(** * String matching: Boyer-Moore, KMP and Levenshtein search

    A shallow embedding of [src/algorithms/boyer_moore.py],
    [src/algorithms/kmp.py], [src/algorithms/levenshtein.py],
    [src/algorithms/native.py] and the generators of
    [src/utils/data_generator.py], with the properties of the specification
    stated and proved over it.

    Python values are modelled as follows.
    - [int] is [Z] (unbounded).
    - [str] is a [list Σ] over an arbitrary countable symbol type [Σ];
      [len], indexing and slicing are the list operations below.
    - [list] is [list]; [l[i]] and [l[i] = x] raise [IndexError] out of
      range and wrap negative indices, as Python does.
    - [dict] is [gmap].
    - A call either returns a value, raises, or (in the model only) runs
      out of the fuel given to a [while] loop.
    - The module [random] is a piece of state that the generators thread:
      the draws still to come, and the draws each seed installs. *)

From stdpp Require Import gmap strings list list_numbers sorting.
From Stdlib Require Import ZArith Lia.

Open Scope Z_scope.

(** ** Outcomes of a call *)

Inductive exn : Type := IndexError.

Inductive result (T : Type) : Type :=
| Ok (x : T)
| Raise (e : exn)
| OutOfFuel.

Arguments Ok {T} x.
Arguments Raise {T} e.
Arguments OutOfFuel {T}.

Definition result_bind {T U : Type} (f : T → result U) (c : result T) : result U :=
  match c with
  | Ok x => f x
  | Raise e => Raise e
  | OutOfFuel => OutOfFuel
  end.

Global Instance result_ret : MRet result := @Ok.
Global Instance result_mbind : MBind result := @result_bind.

Lemma bind_Ok {T U} (f : T → result U) (x : T) : (Ok x ≫= f) = f x.
Proof. reflexivity. Qed.

Lemma bind_Ok_inv {T U} (f : T → result U) (c : result T) (y : U) :
  c ≫= f = Ok y → ∃ x, c = Ok x ∧ f x = Ok y.
Proof. destruct c; simpl; intros; try discriminate; eauto. Qed.

(** [for x in xs: s = f(s, x)], stopping at the first exception. *)
Fixpoint foldM {S X : Type} (f : S → X → result S) (xs : list X) (s : S) : result S :=
  match xs with
  | [] => Ok s
  | x :: xs' => s' ← f s x; foldM f xs' s'
  end.

Lemma foldM_app {S X} (f : S → X → result S) xs ys s :
  foldM f (xs ++ ys) s = (foldM f xs s ≫= foldM f ys).
Proof.
  revert s; induction xs as [|x xs IH]; intros s; simpl; [reflexivity|].
  destruct (f s x); simpl; auto.
Qed.

(** ** Python sequences *)

Definition len {T} (l : list T) : Z := Z.of_nat (length l).

(** [range(a, b)] *)
Definition range (a b : Z) : list Z := seqZ a (b - a).

(** [[x] * k] *)
Definition repeat_list {T} (x : T) (k : Z) : list T := replicate (Z.to_nat k) x.

(** The position a subscript denotes: negative subscripts count from the end. *)
Definition norm_index {T} (l : list T) (i : Z) : Z :=
  if i <? 0 then i + len l else i.

(** [l[i]] *)
Definition getitem {T} (l : list T) (i : Z) : result T :=
  let k := norm_index l i in
  if k <? 0 then Raise IndexError
  else match l !! Z.to_nat k with
       | Some x => Ok x
       | None => Raise IndexError
       end.

(** [l[i] = x] *)
Definition setitem {T} (l : list T) (i : Z) (x : T) : result (list T) :=
  let k := norm_index l i in
  if (k <? 0) || (len l <=? k) then Raise IndexError
  else Ok (<[Z.to_nat k := x]> l).

(** [l[a:b]]: bounds are wrapped when negative and clamped to the length. *)
Definition clamp_index {T} (l : list T) (i : Z) : Z :=
  if i <? 0 then Z.max 0 (i + len l) else Z.min i (len l).

Definition slice {T} (l : list T) (a b : Z) : list T :=
  let lo := clamp_index l a in
  let hi := clamp_index l b in
  take (Z.to_nat (hi - lo)) (drop (Z.to_nat lo) l).

(** The element at position [i], for reasoning: [None] outside [0 <= i < len l]. *)
Definition zlookup {T} (l : list T) (i : Z) : option T :=
  if i <? 0 then None else l !! Z.to_nat i.

(** [dp[i][j]] and [dp[i][j] = x] on a list of rows *)
Definition getitem2 {T} (dp : list (list T)) (i j : Z) : result T :=
  row ← getitem dp i; getitem row j.

Definition setitem2 {T} (dp : list (list T)) (i j : Z) (x : T) : result (list (list T)) :=
  row ← getitem dp i; row' ← setitem row j x; setitem dp i row'.

(** [min(x, y, z)] *)
Definition min3 (x y z : Z) : Z := Z.min x (Z.min y z).

Section Algorithms.

Context {Σ : Type} `{Countable Σ}.

Implicit Types (text pattern a b : list Σ).

(** ** levenshtein.py *)

Definition subst_cost (x y : Σ) : Z := if decide (x = y) then 0 else 1.

Definition levenshtein_cell a b (dp : list (list Z)) (i j : Z) : result (list (list Z)) :=
  x ← getitem a (i - 1);
  y ← getitem b (j - 1);
  let cost := subst_cost x y in
  deletion ← getitem2 dp (i - 1) j;
  insertion ← getitem2 dp i (j - 1);
  substitution ← getitem2 dp (i - 1) (j - 1);
  setitem2 dp i j (min3 (deletion + 1) (insertion + 1) (substitution + cost)).

Definition levenshtein_distance a b : result Z :=
  let n := len a in
  let m := len b in
  if n =? 0 then Ok m
  else if m =? 0 then Ok n
  else
    let dp := repeat_list (repeat_list 0 (m + 1)) (n + 1) in
    dp ← foldM (λ dp i, setitem2 dp i 0 i) (range 0 (n + 1)) dp;
    dp ← foldM (λ dp j, setitem2 dp 0 j j) (range 0 (m + 1)) dp;
    dp ← foldM (λ dp i, foldM (λ dp j, levenshtein_cell a b dp i j) (range 1 (m + 1)) dp)
               (range 1 (n + 1)) dp;
    getitem2 dp n m.

Definition levenshtein_search text pattern (max_distance : Z) : result (list Z) :=
  let n := len text in
  let m := len pattern in
  if m =? 0 then Ok (range 0 (n + 1))
  else if n <? m then Ok []
  else
    foldM (λ matches start,
             let substring := slice text start (start + m) in
             dist ← levenshtein_distance substring pattern;
             if dist <=? max_distance then Ok (matches ++ [start]) else Ok matches)
          (range 0 (n - m + 1)) [].

(** One cell of the rolling rows: reads [prev[j]], [curr[j-1]], [prev[j-1]]. *)
Definition rolling_cell (x : Σ) pattern (prev curr : list Z) (j : Z) : result (list Z) :=
  y ← getitem pattern (j - 1);
  let cost := subst_cost x y in
  deletion ← getitem prev j;
  insertion ← getitem curr (j - 1);
  substitution ← getitem prev (j - 1);
  setitem curr j (min3 (deletion + 1) (insertion + 1) (substitution + cost)).

(** The body of [for i in range(1, m + 1)] in [levenshtein_search_optimized];
    the state is the pair of row objects [(prev, curr)], swapped at the end. *)
Definition optimized_row (substring pattern : list Σ) (m : Z)
    (rows : list Z * list Z) (i : Z) : result (list Z * list Z) :=
  let '(prev, curr) := rows in
  curr ← setitem curr 0 i;
  curr ← foldM (λ curr j, x ← getitem substring (i - 1); rolling_cell x pattern prev curr j)
               (range 1 (m + 1)) curr;
  Ok (curr, prev).

Definition levenshtein_search_optimized text pattern (max_distance : Z) : result (list Z) :=
  let n := len text in
  let m := len pattern in
  if m =? 0 then Ok (range 0 (n + 1))
  else if n <? m then Ok []
  else
    foldM (λ matches start,
             let substring := slice text start (start + m) in
             let prev := range 0 (m + 1) in
             let curr := repeat_list 0 (m + 1) in
             '(prev, curr) ← foldM (optimized_row substring pattern m) (range 1 (m + 1)) (prev, curr);
             d ← getitem prev m;
             if d <=? max_distance then Ok (matches ++ [start]) else Ok matches)
          (range 0 (n - m + 1)) [].

(** The band of row [i] in [levenshtein_search_diagonal]. *)
Definition start_j (i max_distance : Z) : Z := Z.max 1 (i - max_distance).
Definition end_j (m i max_distance : Z) : Z := Z.min m (i + max_distance).

(** The row object as it is when the band loop starts: zeros, with [curr[0] = i]. *)
Definition diagonal_fresh_row (m i : Z) : result (list Z) :=
  setitem (repeat_list 0 (m + 1)) 0 i.

(** The body of the band loop. *)
Definition diagonal_cell text pattern (prev : list Z) (i : Z) (curr : list Z) (j : Z)
    : result (list Z) :=
  x ← getitem text (i - 1);
  y ← getitem pattern (j - 1);
  let cost := subst_cost x y in
  c ← getitem curr (j - 1);
  let ins := c + 1 in
  p ← getitem prev j;
  let delete := p + 1 in
  q ← getitem prev (j - 1);
  let subst := q + cost in
  setitem curr j (min3 ins delete subst).

(** The row after the band loop, before the cells outside the band are overwritten. *)
Definition diagonal_band text pattern (max_distance : Z) (prev : list Z) (i : Z)
    : result (list Z) :=
  let m := len pattern in
  curr ← diagonal_fresh_row m i;
  foldM (diagonal_cell text pattern prev i)
        (range (start_j i max_distance) (end_j m i max_distance + 1)) curr.

(** The finished row. *)
Definition diagonal_row text pattern (max_distance : Z) (prev : list Z) (i : Z)
    : result (list Z) :=
  let m := len pattern in
  curr ← diagonal_band text pattern max_distance prev i;
  curr ← foldM (λ curr j, setitem curr j (max_distance + 5))
               (range 1 (start_j i max_distance)) curr;
  foldM (λ curr j, setitem curr j (max_distance + 5))
        (range (end_j m i max_distance + 1) (m + 1)) curr.

Definition diagonal_step text pattern (max_distance : Z)
    (st : list Z * list Z) (i : Z) : result (list Z * list Z) :=
  let '(matches, prev) := st in
  let m := len pattern in
  curr ← diagonal_row text pattern max_distance prev i;
  hit ← (if m <=? i then c ← getitem curr m; Ok (c <=? max_distance) else Ok false);
  Ok (if hit : bool then matches ++ [i - m] else matches, curr).

Definition levenshtein_search_diagonal text pattern (max_distance : Z) : result (list Z) :=
  let n := len text in
  let m := len pattern in
  if m =? 0 then Ok (range 0 (n + 1))
  else if n <? m then Ok []
  else
    '(matches, _) ← foldM (diagonal_step text pattern max_distance)
                          (range 1 (n + 1)) ([], range 0 (m + 1));
    Ok matches.

(** One cell of [count_comparisons_levenshtein]: the counter is bumped first. *)
Definition counting_cell text pattern (start i : Z) (prev : list Z)
    (st : list Z * Z) (j : Z) : result (list Z * Z) :=
  let '(curr, comparisons) := st in
  let comparisons := comparisons + 1 in
  x ← getitem text (start + i - 1);
  curr ← rolling_cell x pattern prev curr j;
  Ok (curr, comparisons).

Definition counting_row text pattern (start m : Z)
    (st : list Z * list Z * Z) (i : Z) : result (list Z * list Z * Z) :=
  let '(prev, curr, comparisons) := st in
  curr ← setitem curr 0 i;
  '(curr, comparisons) ← foldM (counting_cell text pattern start i prev)
                               (range 1 (m + 1)) (curr, comparisons);
  Ok (curr, prev, comparisons).

Definition count_comparisons_levenshtein text pattern (max_distance : Z)
    : result (list Z * Z) :=
  let n := len text in
  let m := len pattern in
  let comparisons := 0 in
  if m =? 0 then Ok (range 0 (n + 1), 0)
  else if n <? m then Ok ([], 0)
  else
    foldM (λ '(matches, comparisons) start,
             let prev := range 0 (m + 1) in
             let curr := repeat_list 0 (m + 1) in
             '(prev, curr, comparisons) ←
               foldM (counting_row text pattern start m) (range 1 (m + 1))
                     (prev, curr, comparisons);
             d ← getitem prev m;
             if d <=? max_distance then Ok (matches ++ [start], comparisons)
             else Ok (matches, comparisons))
          (range 0 (n - m + 1)) ([], comparisons).

(** ** kmp.py *)

(** The loop of [compute_lps_table]; the state is [(lps, j, i)]. *)
Fixpoint lps_loop (fuel : nat) pattern (length : Z) (lps : list Z) (j i : Z)
    : result (list Z) :=
  match fuel with
  | O => OutOfFuel
  | S fuel =>
    if i <? length then
      x ← getitem pattern i;
      y ← getitem pattern j;
      if decide (x = y) then
        let j := j + 1 in
        lps ← setitem lps i j;
        lps_loop fuel pattern length lps j (i + 1)
      else if negb (j =? 0) then
        j ← getitem lps (j - 1);
        lps_loop fuel pattern length lps j i
      else
        lps ← setitem lps i 0;
        lps_loop fuel pattern length lps j (i + 1)
    else Ok lps
  end.

Definition compute_lps_table pattern : result (list Z) :=
  let length := len pattern in
  let lps := repeat_list 0 length in
  lps_loop (Z.to_nat (2 * length + 1)) pattern length lps 0 1.

(** The loop of [kmp_search]; the state is [(i, j, occurrences)]. *)
Fixpoint kmp_loop (fuel : nat) text pattern (n m : Z) (lps : list Z)
    (i j : Z) (occurrences : list Z) : result (list Z) :=
  match fuel with
  | O => OutOfFuel
  | S fuel =>
    if i <? n then
      x ← getitem pattern j;
      y ← getitem text i;
      let '(i, j) := if decide (x = y) then (i + 1, j + 1) else (i, j) in
      if j =? m then
        let occurrences := occurrences ++ [i - j] in
        j ← getitem lps (j - 1);
        kmp_loop fuel text pattern n m lps i j occurrences
      else
        mismatch ← (if i <? n then
                      x ← getitem pattern j;
                      y ← getitem text i;
                      Ok (bool_decide (x ≠ y))
                    else Ok false);
        if mismatch : bool then
          if negb (j =? 0) then
            j ← getitem lps (j - 1);
            kmp_loop fuel text pattern n m lps i j occurrences
          else
            kmp_loop fuel text pattern n m lps (i + 1) j occurrences
        else
          kmp_loop fuel text pattern n m lps i j occurrences
    else Ok occurrences
  end.

Definition kmp_search text pattern : result (list Z) :=
  if len pattern =? 0 then Ok []
  else if len text <? len pattern then Ok []
  else
    let n := len text in
    let m := len pattern in
    lps ← compute_lps_table pattern;
    kmp_loop (Z.to_nat (2 * n + 1)) text pattern n m lps 0 0 [].

(** The loop of [count_comparisons_kmp]; the state is
    [(i, j, occurrences, comparisons)]. *)
Fixpoint kmp_count_loop (fuel : nat) text pattern (n m : Z) (lps : list Z)
    (i j : Z) (occurrences : list Z) (comparisons : Z) : result (list Z * Z) :=
  match fuel with
  | O => OutOfFuel
  | S fuel =>
    if i <? n then
      let comparisons := comparisons + 1 in
      x ← getitem pattern j;
      y ← getitem text i;
      if decide (x = y) then
        let i := i + 1 in
        let j := j + 1 in
        if j =? m then
          let occurrences := occurrences ++ [i - j] in
          j ← getitem lps (j - 1);
          kmp_count_loop fuel text pattern n m lps i j occurrences comparisons
        else
          kmp_count_loop fuel text pattern n m lps i j occurrences comparisons
      else if negb (j =? 0) then
        j ← getitem lps (j - 1);
        kmp_count_loop fuel text pattern n m lps i j occurrences comparisons
      else
        kmp_count_loop fuel text pattern n m lps (i + 1) j occurrences comparisons
    else Ok (occurrences, comparisons)
  end.

Definition count_comparisons_kmp text pattern : result (list Z * Z) :=
  if (len pattern =? 0) || (len text <? len pattern) then Ok ([], 0)
  else
    let n := len text in
    let m := len pattern in
    lps ← compute_lps_table pattern;
    kmp_count_loop (Z.to_nat (2 * n + 1)) text pattern n m lps 0 0 [] 0.

(** ** boyer_moore.py *)

Definition bad_character_table pattern : result (gmap Σ Z) :=
  foldM (λ bad_char i, c ← getitem pattern i; Ok (<[c := i]> bad_char))
        (range 0 (len pattern)) ∅.

(** [d.get(c, default)] *)
Definition dict_get (d : gmap Σ Z) (c : Σ) (dflt : Z) : Z := default dflt (d !! c).

(** The inner loop of the first phase of [good_suffix_table]:
    [while j <= m and pattern[i - 1] != pattern[j - 1]]; the state is [(shift, j)]. *)
Fixpoint border_inner (fuel : nat) pattern (m i : Z) (border shift : list Z) (j : Z)
    : result (list Z * Z) :=
  match fuel with
  | O => OutOfFuel
  | S fuel =>
    go ← (if j <=? m then
            x ← getitem pattern (i - 1);
            y ← getitem pattern (j - 1);
            Ok (bool_decide (x ≠ y))
          else Ok false);
    if go : bool then
      s ← getitem shift (j - 1);
      shift ← (if s =? m then setitem shift (j - 1) (j - i) else Ok shift);
      j ← getitem border j;
      border_inner fuel pattern m i border shift j
    else Ok (shift, j)
  end.

(** The outer loop, [while i > 0]; the state is [(shift, border, i, j)]. *)
Fixpoint border_outer (fuel : nat) pattern (m : Z) (shift border : list Z) (i j : Z)
    : result (list Z * list Z) :=
  match fuel with
  | O => OutOfFuel
  | S fuel =>
    if 0 <? i then
      '(shift, j) ← border_inner (Z.to_nat (m + 2)) pattern m i border shift j;
      let i := i - 1 in
      let j := j - 1 in
      border ← setitem border i j;
      border_outer fuel pattern m shift border i j
    else Ok (shift, border)
  end.

(** The body of the second phase, [for i in range(m)]; the state is [(shift, j)]. *)
Definition prefix_step (m : Z) (border : list Z) (st : list Z * Z) (i : Z)
    : result (list Z * Z) :=
  let '(shift, j) := st in
  s ← getitem shift i;
  shift ← (if s =? m then setitem shift i j else Ok shift);
  if i =? j then j ← getitem border j; Ok (shift, j)
  else Ok (shift, j).

Definition good_suffix_table pattern : result (list Z) :=
  let m := len pattern in
  let shift := repeat_list m m in
  let border := repeat_list 0 (m + 1) in
  let i := m in
  let j := m + 1 in
  border ← setitem border i j;
  '(shift, border) ← border_outer (Z.to_nat (m + 1)) pattern m shift border i j;
  j ← getitem border 0;
  '(shift, _) ← foldM (prefix_step m border) (range 0 m) (shift, j);
  Ok shift.

(** [while j >= 0 and pattern[j] == text[shift_amount + j]: j -= 1] *)
Fixpoint bm_compare (fuel : nat) text pattern (shift_amount j : Z) : result Z :=
  match fuel with
  | O => OutOfFuel
  | S fuel =>
    go ← (if 0 <=? j then
            x ← getitem pattern j;
            y ← getitem text (shift_amount + j);
            Ok (bool_decide (x = y))
          else Ok false);
    if go : bool then bm_compare fuel text pattern shift_amount (j - 1)
    else Ok j
  end.

(** The advance after the comparison stopped at [j]. *)
Definition bm_advance text (n m : Z) (bad_char : gmap Σ Z) (good_suffix : list Z)
    (shift_amount j : Z) : result Z :=
  if j <? 0 then
    if shift_amount + m <? n then getitem good_suffix 0 else Ok 1
  else
    c ← getitem text (shift_amount + j);
    let bad_char_shift := j - dict_get bad_char c (-1) in
    good_suffix_shift ← getitem good_suffix j;
    Ok (Z.max bad_char_shift good_suffix_shift).

(** The scan loop of [boyer_moore_search]; the state is [(shift_amount, matches)]. *)
Fixpoint bm_loop (fuel : nat) text pattern (n m : Z) (bad_char : gmap Σ Z)
    (good_suffix : list Z) (shift_amount : Z) (matches : list Z) : result (list Z) :=
  match fuel with
  | O => OutOfFuel
  | S fuel =>
    if shift_amount <=? n - m then
      j ← bm_compare (Z.to_nat (m + 1)) text pattern shift_amount (m - 1);
      let matches := if j <? 0 then matches ++ [shift_amount] else matches in
      step ← bm_advance text n m bad_char good_suffix shift_amount j;
      bm_loop fuel text pattern n m bad_char good_suffix (shift_amount + step) matches
    else Ok matches
  end.

Definition boyer_moore_search text pattern : result (list Z) :=
  if len pattern =? 0 then Ok []
  else
    let n := len text in
    let m := len pattern in
    if n <? m then Ok []
    else
      bad_char ← bad_character_table pattern;
      good_suffix ← good_suffix_table pattern;
      bm_loop (Z.to_nat (n + 1)) text pattern n m bad_char good_suffix 0 [].

(** The comparison loop of [count_comparisons_boyer_moore]:
    [while j >= 0: comparisons += 1; if pattern[j] != text[...]: break; j -= 1]. *)
Fixpoint bm_count_compare (fuel : nat) text pattern (shift_amount j comparisons : Z)
    : result (Z * Z) :=
  match fuel with
  | O => OutOfFuel
  | S fuel =>
    if 0 <=? j then
      let comparisons := comparisons + 1 in
      x ← getitem pattern j;
      y ← getitem text (shift_amount + j);
      if decide (x ≠ y) then Ok (j, comparisons)
      else bm_count_compare fuel text pattern shift_amount (j - 1) comparisons
    else Ok (j, comparisons)
  end.

Fixpoint bm_count_loop (fuel : nat) text pattern (n m : Z) (bad_char : gmap Σ Z)
    (good_suffix : list Z) (shift_amount : Z) (matches : list Z) (comparisons : Z)
    : result (list Z * Z) :=
  match fuel with
  | O => OutOfFuel
  | S fuel =>
    if shift_amount <=? n - m then
      '(j, comparisons) ← bm_count_compare (Z.to_nat (m + 1)) text pattern
                                           shift_amount (m - 1) comparisons;
      let matches := if j <? 0 then matches ++ [shift_amount] else matches in
      step ← bm_advance text n m bad_char good_suffix shift_amount j;
      bm_count_loop fuel text pattern n m bad_char good_suffix
                    (shift_amount + step) matches comparisons
    else Ok (matches, comparisons)
  end.

Definition count_comparisons_boyer_moore text pattern : result (list Z * Z) :=
  if len pattern =? 0 then Ok ([], 0)
  else
    let n := len text in
    let m := len pattern in
    if n <? m then Ok ([], 0)
    else
      bad_char ← bad_character_table pattern;
      good_suffix ← good_suffix_table pattern;
      bm_count_loop (Z.to_nat (n + 1)) text pattern n m bad_char good_suffix 0 [] 0.

(** ** native.py *)

(** The built-in [text.find(pattern, start)]: the lowest index [idx >= start]
    with [text[idx:idx + len(pattern)] == pattern], or [-1]. *)
Definition str_find text pattern (start : Z) : Z :=
  let n := len text in
  let m := len pattern in
  let start := if start <? 0 then Z.max 0 (start + n) else start in
  match List.find (λ idx, bool_decide (slice text idx (idx + m) = pattern))
                  (range start (n - m + 1)) with
  | Some idx => idx
  | None => -1
  end.

(** The loop of [native_search], [while True]; the state is [(matches, start)]. *)
Fixpoint native_loop (fuel : nat) text pattern (matches : list Z) (start : Z)
    : result (list Z) :=
  match fuel with
  | O => OutOfFuel
  | S fuel =>
    let idx := str_find text pattern start in
    if idx =? -1 then Ok matches
    else native_loop fuel text pattern (matches ++ [idx]) (idx + 1)
  end.

Definition native_search text pattern : result (list Z) :=
  native_loop (Z.to_nat (len text + 2)) text pattern [] 0.

(** [re.finditer(re.escape(pattern), text)], as the list of the start offsets
    of the matches it yields. The escaped pattern matches the literal
    [pattern] and nothing else; the scan for the next match resumes where the
    previous match ended, and one symbol further after an empty match. The
    state is [(matches, pos)]. *)
Fixpoint finditer_loop (fuel : nat) text pattern (matches : list Z) (pos : Z)
    : result (list Z) :=
  match fuel with
  | O => OutOfFuel
  | S fuel =>
    let idx := str_find text pattern pos in
    if idx =? -1 then Ok matches
    else finditer_loop fuel text pattern (matches ++ [idx])
                       (idx + Z.max 1 (len pattern))
  end.

Definition regex_search text pattern : result (list Z) :=
  finditer_loop (Z.to_nat (len text + 2)) text pattern [] 0.

End Algorithms.

Definition str (s : string) : list Ascii.ascii := String.list_ascii_of_string s.

(** ** data_generator.py *)

(** The state of the module [random]: the draws still to come, and the
    sequence of draws that [random.seed(s)] installs for every seed [s].
    Nothing is assumed of either, so a property proved for every state holds
    of every run of the generator. *)
Record rng : Type := { draws : nat → Z; seeded : Z → nat → Z }.

Inductive raised : Type := ValueError | SequenceError (e : exn).

(** A call that uses [random] returns a value and the new state, raises, or
    (in the model only) is stuck where a sequence operation ran out of fuel. *)
Inductive outcome (T : Type) : Type :=
| Returns (x : T) (g : rng)
| Raises (e : raised)
| Stuck.

Arguments Returns {T} x g.
Arguments Raises {T} e.
Arguments Stuck {T}.

Definition rand (T : Type) : Type := rng → outcome T.

Definition rand_ret {T : Type} (x : T) : rand T := λ g, Returns x g.

Definition rand_bind {T U : Type} (f : T → rand U) (c : rand T) : rand U :=
  λ g, match c g with
       | Returns x g' => f x g'
       | Raises e => Raises e
       | Stuck => Stuck
       end.

Global Instance rand_mret : MRet rand := @rand_ret.
Global Instance rand_mbind : MBind rand := @rand_bind.

Definition rand_raise {T : Type} (e : raised) : rand T := λ _, Raises e.

(** A sequence operation inside a call that uses [random]. *)
Definition lift {T : Type} (c : result T) : rand T :=
  λ g, match c with
       | Ok x => Returns x g
       | Raise e => Raises (SequenceError e)
       | OutOfFuel => Stuck
       end.

(** [for x in xs: s = f(s, x)] *)
Fixpoint for_each {S X : Type} (f : S → X → rand S) (xs : list X) (s : S) : rand S :=
  match xs with
  | [] => mret s
  | x :: xs' => s' ← f s x; for_each f xs' s'
  end.

(** [random.seed(s)] *)
Definition random_seed (s : Z) : rand unit :=
  λ g, Returns () {| draws := seeded g s; seeded := seeded g |}.

(** The next draw, brought into [0 <= r < n]. *)
Definition randbelow (n : Z) : rand Z :=
  λ g, Returns (draws g O `mod` n)
               {| draws := λ k, draws g (S k); seeded := seeded g |}.

(** [random.randint(a, b)] *)
Definition randint (a b : Z) : rand Z :=
  if b <? a then rand_raise ValueError
  else r ← randbelow (b - a + 1); mret (a + r).

(** [random.choice(seq)] *)
Definition choice {T : Type} (seq : list T) : rand T :=
  if len seq =? 0 then rand_raise (SequenceError IndexError)
  else r ← randbelow (len seq); lift (getitem seq r).

(** [random.choices(population, k=k)] *)
Definition choices {T : Type} (population : list T) (k : Z) : rand (list T) :=
  for_each (λ picked _, r ← randbelow (len population);
                         x ← lift (getitem population r);
                         mret (picked ++ [x]))
           (range 0 k) [].

(** [l.insert(i, x)]: the index is wrapped when negative and clamped. *)
Definition list_insert {T : Type} (l : list T) (i : Z) (x : T) : list T :=
  let k := Z.to_nat (clamp_index l i) in
  take k l ++ x :: drop k l.

(** [l.pop(i)], as the list that is left. *)
Definition list_pop {T : Type} (l : list T) (i : Z) : result (list T) :=
  let k := norm_index l i in
  if (k <? 0) || (len l <=? k) then Raise IndexError
  else Ok (delete (Z.to_nat k) l).

(** [if seed: random.seed(seed)]; [None] and [0] are not truthy. *)
Definition seed_if_given (seed : option Z) : rand unit :=
  match seed with
  | Some s => if s =? 0 then mret () else random_seed s
  | None => mret ()
  end.

Definition bases : list Ascii.ascii := str "ATCG".

Definition generate_synthetic_dna (length seed : Z) : rand (list Ascii.ascii) :=
  _ ← random_seed seed;
  choices bases length.

Definition generate_patterns_from_text {Σ : Type} (text : list Σ) (length count : Z)
    (seed : option Z) : rand (list (list Σ)) :=
  _ ← seed_if_given seed;
  let text_len := len text in
  if text_len <? length then rand_raise ValueError
  else
    for_each (λ patterns _,
                start_idx ← randint 0 (text_len - length);
                let p := slice text start_idx (start_idx + length) in
                mret (patterns ++ [p]))
             (range 0 count) [].

(** The body of [for _ in range(k)] in [generate_mutated_pattern]. *)
Definition mutate (mutation_type : string) (pattern_list : list Ascii.ascii)
    : rand (list Ascii.ascii) :=
  op ← (if bool_decide (mutation_type = "sub") then mret "sub"
        else choice ["sub"; "ins"; "del"]);
  if bool_decide (op = "sub") && (0 <? len pattern_list) then
    idx ← randint 0 (len pattern_list - 1);
    current_base ← lift (getitem pattern_list idx);
    let choices := List.filter (λ b, bool_decide (b ≠ current_base)) bases in
    c ← choice choices;
    lift (setitem pattern_list idx c)
  else if bool_decide (op = "ins") then
    idx ← randint 0 (len pattern_list);
    c ← choice bases;
    mret (list_insert pattern_list idx c)
  else if bool_decide (op = "del") && (0 <? len pattern_list) then
    idx ← randint 0 (len pattern_list - 1);
    lift (list_pop pattern_list idx)
  else mret pattern_list.

Definition generate_mutated_pattern (original_pattern : list Ascii.ascii) (k : Z)
    (mutation_type : string) (seed : option Z) : rand (list Ascii.ascii) :=
  _ ← seed_if_given seed;
  for_each (λ pattern_list _, mutate mutation_type pattern_list)
           (range 0 k) original_pattern.

(** * Properties *)

(** ** Sequences *)

Section Sequences.

Context {T : Type}.
Implicit Types (l : list T) (i j k : Z).

Lemma len_nonneg l : 0 ≤ len l.
Proof. unfold len; lia. Qed.

Lemma zlookup_nonneg l i : 0 ≤ i → zlookup l i = l !! Z.to_nat i.
Proof. intros. unfold zlookup. by destruct (Z.ltb_spec i 0); [lia|]. Qed.

Lemma zlookup_neg l i : i < 0 → zlookup l i = None.
Proof. intros. unfold zlookup. by destruct (Z.ltb_spec i 0); [|lia]. Qed.

Lemma zlookup_Some_range l i x : zlookup l i = Some x → 0 ≤ i < len l.
Proof.
  destruct (Z.lt_ge_cases i 0) as [Hi|Hi].
  - by rewrite zlookup_neg.
  - rewrite zlookup_nonneg by done. intros Hl%lookup_lt_Some. unfold len. lia.
Qed.

Lemma zlookup_is_Some l i : 0 ≤ i < len l → is_Some (zlookup l i).
Proof.
  unfold len. intros Hi. rewrite zlookup_nonneg by lia.
  apply lookup_lt_is_Some. lia.
Qed.

Lemma zlookup_None l i : ¬ (0 ≤ i < len l) → zlookup l i = None.
Proof.
  intros Hi. destruct (zlookup l i) eqn:E; [|done].
  apply zlookup_Some_range in E. lia.
Qed.

Lemma zlookup_of_nat l (k : nat) : zlookup l (Z.of_nat k) = l !! k.
Proof. rewrite zlookup_nonneg by lia. by rewrite Nat2Z.id. Qed.

Lemma getitem_nonneg l i :
  0 ≤ i → getitem l i = match zlookup l i with Some x => Ok x | None => Raise IndexError end.
Proof.
  intros. rewrite zlookup_nonneg by done. unfold getitem, norm_index.
  assert ((i <? 0) = false) as E by lia. rewrite E. cbv iota. by rewrite E.
Qed.

Lemma getitem_Ok l i x : zlookup l i = Some x → getitem l i = Ok x.
Proof.
  intros Hl. pose proof (zlookup_Some_range _ _ _ Hl) as Hr.
  rewrite getitem_nonneg by lia. by rewrite Hl.
Qed.

Lemma getitem_Ok_inv l i x : 0 ≤ i → getitem l i = Ok x → zlookup l i = Some x.
Proof.
  intros Hi. rewrite getitem_nonneg by done.
  destruct (zlookup l i); [|discriminate]. by intros [= ->].
Qed.

Lemma getitem_out_of_range l i : len l ≤ i → getitem l i = Raise IndexError.
Proof.
  intros Hi. pose proof (len_nonneg l). rewrite getitem_nonneg by lia.
  rewrite zlookup_None; [done|lia].
Qed.

Lemma setitem_Ok l i x : 0 ≤ i < len l → setitem l i x = Ok (<[Z.to_nat i := x]> l).
Proof.
  intros Hi. unfold setitem, norm_index.
  assert ((i <? 0) = false) as E by lia. rewrite E. cbv iota. rewrite E.
  by assert ((len l <=? i) = false) as -> by lia.
Qed.

Lemma setitem_out_of_range l i x : len l ≤ i → setitem l i x = Raise IndexError.
Proof.
  intros Hi. pose proof (len_nonneg l). unfold setitem, norm_index.
  assert ((i <? 0) = false) as E by lia. rewrite E. cbv iota. rewrite E.
  by assert ((len l <=? i) = true) as -> by lia.
Qed.

Lemma len_insert l (k : nat) x : len (<[k := x]> l) = len l.
Proof. unfold len. by rewrite length_insert. Qed.

Lemma zlookup_insert_eq l i x :
  0 ≤ i < len l → zlookup (<[Z.to_nat i := x]> l) i = Some x.
Proof.
  intros Hi. rewrite zlookup_nonneg by lia. unfold len in *.
  apply list_lookup_insert_eq. lia.
Qed.

Lemma zlookup_insert_ne l i j x :
  0 ≤ i → i ≠ j → zlookup (<[Z.to_nat i := x]> l) j = zlookup l j.
Proof.
  intros Hi Hne. destruct (Z.lt_ge_cases j 0).
  - by rewrite !zlookup_neg.
  - rewrite !zlookup_nonneg by done. apply list_lookup_insert_ne. lia.
Qed.

Lemma len_repeat_list (x : T) k : 0 ≤ k → len (repeat_list x k) = k.
Proof. intros. unfold len, repeat_list. rewrite length_replicate. lia. Qed.

Lemma zlookup_repeat_list (x : T) k i :
  0 ≤ i < k → zlookup (repeat_list x k) i = Some x.
Proof.
  intros Hi. rewrite zlookup_nonneg by lia. unfold repeat_list.
  apply lookup_replicate_2. lia.
Qed.

Lemma len_app l1 l2 : len (l1 ++ l2) = len l1 + len l2.
Proof. unfold len. rewrite length_app. lia. Qed.

Lemma len_nil_inv l : len l = 0 → l = [].
Proof. unfold len. destruct l; simpl; [done|lia]. Qed.

(** A slice that stays inside the list. *)
Lemma slice_inside l a b :
  0 ≤ a → a ≤ b → b ≤ len l →
  slice l a b = take (Z.to_nat (b - a)) (drop (Z.to_nat a) l).
Proof.
  intros Ha Hab Hb. unfold slice, clamp_index.
  assert ((a <? 0) = false) as -> by lia. assert ((b <? 0) = false) as -> by lia.
  by rewrite !Z.min_l by lia.
Qed.

Lemma len_slice l a b : 0 ≤ a → a ≤ b → b ≤ len l → len (slice l a b) = b - a.
Proof.
  intros Ha Hab Hb. rewrite slice_inside by done. unfold len in *.
  rewrite length_take, length_drop. lia.
Qed.

Lemma zlookup_slice l a b i :
  0 ≤ a → a ≤ b → b ≤ len l → 0 ≤ i < b - a →
  zlookup (slice l a b) i = zlookup l (a + i).
Proof.
  intros Ha Hab Hb Hi. rewrite slice_inside by done.
  rewrite !zlookup_nonneg by lia.
  rewrite lookup_take_lt by lia. rewrite lookup_drop. f_equal. lia.
Qed.

End Sequences.

Lemma len_range a b : a ≤ b → len (range a b) = b - a.
Proof. intros. unfold len, range. rewrite length_seqZ. lia. Qed.

Lemma zlookup_range a b i : 0 ≤ i < b - a → zlookup (range a b) i = Some (a + i).
Proof.
  intros Hi. rewrite zlookup_nonneg by lia. unfold range.
  rewrite lookup_seqZ_lt by lia. f_equal. lia.
Qed.

Lemma range_nil a b : b ≤ a → range a b = [].
Proof. intros. unfold range. apply seqZ_nil. lia. Qed.

Lemma range_cons a b : a < b → range a b = a :: range (a + 1) b.
Proof.
  intros. unfold range. rewrite seqZ_cons by lia. f_equal. f_equal; lia.
Qed.

Lemma range_snoc a b : a ≤ b → range a (b + 1) = range a b ++ [b].
Proof.
  intros. unfold range.
  replace (b + 1 - a) with ((b - a) + 1) by lia.
  rewrite seqZ_app by lia. f_equal.
  rewrite seqZ_cons by lia. rewrite seqZ_nil by lia. f_equal. lia.
Qed.

Lemma elem_of_range a b k : k ∈ range a b ↔ a ≤ k < b.
Proof. unfold range. rewrite elem_of_seqZ. lia. Qed.

(** ** Loops *)

(** A [for] loop over a range that maintains an invariant returns normally. *)
Lemma foldM_range_inv {S} (f : S → Z → result S) (I : Z → S → Prop) a b s :
  a ≤ b → I a s →
  (∀ k s, a ≤ k < b → I k s → ∃ s', f s k = Ok s' ∧ I (k + 1) s') →
  ∃ s', foldM f (range a b) s = Ok s' ∧ I b s'.
Proof.
  intros Hab. remember (Z.to_nat (b - a)) as d eqn:Hd.
  revert a s Hab Hd. induction d as [|d IH]; intros a s Hab Hd HI Hstep.
  - assert (a = b) as -> by lia. rewrite range_nil by lia. simpl. eauto.
  - rewrite range_cons by lia. simpl.
    destruct (Hstep a s) as (s' & -> & HI'); [lia|done|]. simpl.
    apply IH; [lia|lia|done|]. intros k s0 Hk. apply Hstep. lia.
Qed.

Lemma foldM_ext_in {S X} (f g : S → X → result S) xs s :
  (∀ s x, x ∈ xs → f s x = g s x) → foldM f xs s = foldM g xs s.
Proof.
  revert s. induction xs as [|x xs IH]; intros s Hfg; simpl; [done|].
  rewrite Hfg by left. destruct (g s x); simpl; [|done..].
  apply IH. intros. apply Hfg. by right.
Qed.

(** A loop that appends the elements passing a test computes a filter. *)
Lemma foldM_filter (p : Z → bool) (f : list Z → Z → result (list Z)) xs acc :
  (∀ acc x, x ∈ xs → f acc x = Ok (if p x then acc ++ [x] else acc)) →
  foldM f xs acc = Ok (acc ++ List.filter p xs).
Proof.
  revert acc. induction xs as [|x xs IH]; intros acc Hf; simpl.
  - by rewrite app_nil_r.
  - rewrite Hf by left. simpl. rewrite IH.
    + destruct (p x); simpl; [by rewrite <- app_assoc | done].
    + intros. apply Hf. by right.
Qed.

(** ** Edit distance *)

Section EditDistance.

Context {Σ : Type} `{Countable Σ}.
Implicit Types (a b c : list Σ).

(** The recurrence of the specification, on prefix lengths:
    [lev_cell a b i j] is the value [dp[i][j]] with [dp[i][0] = i],
    [dp[0][j] = j] and
    [dp[i][j] = min(dp[i-1][j] + 1, dp[i][j-1] + 1, dp[i-1][j-1] + cost)]. *)
Definition cost_at a b (i j : nat) : Z :=
  match a !! i, b !! j with
  | Some x, Some y => subst_cost x y
  | _, _ => 1
  end.

Fixpoint lev_cell a b (i : nat) : nat → Z :=
  match i with
  | O => λ j, Z.of_nat j
  | S i' =>
    fix row (j : nat) : Z :=
      match j with
      | O => Z.of_nat i
      | S j' => min3 (lev_cell a b i' j + 1) (row j' + 1)
                     (lev_cell a b i' j' + cost_at a b i' j')
      end
  end.

(** The edit distance of the specification. *)
Definition edit_distance a b : Z := lev_cell a b (length a) (length b).

Lemma lev_cell_0_r a b i : lev_cell a b i 0 = Z.of_nat i.
Proof. by destruct i. Qed.

Lemma lev_cell_S a b i j :
  lev_cell a b (S i) (S j) =
  min3 (lev_cell a b i (S j) + 1) (lev_cell a b (S i) j + 1)
       (lev_cell a b i j + cost_at a b i j).
Proof. reflexivity. Qed.

(** The same on integer indices. *)
Definition lev_at a b (i j : Z) : Z := lev_cell a b (Z.to_nat i) (Z.to_nat j).

Lemma lev_at_row0 a b j : 0 ≤ j → lev_at a b 0 j = j.
Proof. intros. unfold lev_at. simpl. lia. Qed.

Lemma lev_at_col0 a b i : 0 ≤ i → lev_at a b i 0 = i.
Proof. intros. unfold lev_at. simpl. rewrite lev_cell_0_r. lia. Qed.

Lemma lev_at_rec a b i j x y :
  zlookup a (i - 1) = Some x → zlookup b (j - 1) = Some y →
  lev_at a b i j =
  min3 (lev_at a b (i - 1) j + 1) (lev_at a b i (j - 1) + 1)
       (lev_at a b (i - 1) (j - 1) + subst_cost x y).
Proof.
  intros Hx Hy.
  pose proof (zlookup_Some_range _ _ _ Hx). pose proof (zlookup_Some_range _ _ _ Hy).
  rewrite zlookup_nonneg in Hx, Hy by lia.
  unfold lev_at.
  replace (Z.to_nat i) with (S (Z.to_nat (i - 1))) by lia.
  replace (Z.to_nat j) with (S (Z.to_nat (j - 1))) by lia.
  rewrite lev_cell_S. unfold cost_at. by rewrite Hx, Hy.
Qed.

Lemma lev_at_full a b : lev_at a b (len a) (len b) = edit_distance a b.
Proof. unfold lev_at, edit_distance, len. by rewrite !Nat2Z.id. Qed.

(** *** The full table of [levenshtein_distance] *)

Definition cell (dp : list (list Z)) (i j : Z) : option Z :=
  row ← zlookup dp i; zlookup row j.

Definition table_shape (dp : list (list Z)) (rows cols : Z) : Prop :=
  len dp = rows ∧ ∀ i row, zlookup dp i = Some row → len row = cols.

Lemma getitem2_cell dp i j v : cell dp i j = Some v → getitem2 dp i j = Ok v.
Proof.
  unfold cell, getitem2. destruct (zlookup dp i) as [row|] eqn:E; simpl; [|done].
  intros Hv. rewrite (getitem_Ok _ _ _ E). simpl. by apply getitem_Ok.
Qed.

Lemma setitem2_spec dp rows cols i j v :
  table_shape dp rows cols → 0 ≤ i < rows → 0 ≤ j < cols →
  ∃ dp', setitem2 dp i j v = Ok dp' ∧ table_shape dp' rows cols ∧
         cell dp' i j = Some v ∧
         ∀ i' j', (i' ≠ i ∨ j' ≠ j) → cell dp' i' j' = cell dp i' j'.
Proof.
  intros [Hrows Hcols] Hi Hj.
  destruct (zlookup_is_Some dp i) as [row Hrow]; [lia|].
  pose proof (Hcols _ _ Hrow) as Hlen.
  unfold setitem2. rewrite (getitem_Ok _ _ _ Hrow). simpl.
  rewrite setitem_Ok by lia. simpl. rewrite setitem_Ok by lia.
  eexists; split; [done|]. split; [|split].
  - split; [by rewrite len_insert|].
    intros i' row'. destruct (decide (i' = i)) as [->|Hne].
    + rewrite zlookup_insert_eq by lia. intros [= <-]. by rewrite len_insert.
    + rewrite zlookup_insert_ne by lia. apply Hcols.
  - unfold cell. rewrite zlookup_insert_eq by lia. simpl.
    apply zlookup_insert_eq. lia.
  - intros i' j' Hne. unfold cell. destruct (decide (i' = i)) as [->|Hi'].
    + rewrite zlookup_insert_eq by lia. rewrite Hrow. simpl.
      apply zlookup_insert_ne; [lia|]. destruct Hne; [done|lia].
    + by rewrite zlookup_insert_ne by lia.
Qed.

(** The cells selected by [P] hold the values of the recurrence. *)
Definition table_good a b (dp : list (list Z)) (P : Z → Z → Prop) : Prop :=
  table_shape dp (len a + 1) (len b + 1) ∧
  ∀ i j, 0 ≤ i ≤ len a → 0 ≤ j ≤ len b → P i j → cell dp i j = Some (lev_at a b i j).

Lemma table_good_set a b dp (P Q : Z → Z → Prop) i j :
  table_good a b dp P → 0 ≤ i ≤ len a → 0 ≤ j ≤ len b →
  (∀ i' j', Q i' j' → P i' j' ∨ (i' = i ∧ j' = j)) →
  ∃ dp', setitem2 dp i j (lev_at a b i j) = Ok dp' ∧ table_good a b dp' Q.
Proof.
  intros [Hshape Hgood] Hi Hj HQ.
  destruct (setitem2_spec dp _ _ i j (lev_at a b i j) Hshape) as (dp' & -> & Hs' & Hij & Hother);
    [lia..|].
  exists dp'. split; [done|]. split; [done|].
  intros i' j' Hi' Hj' HQ'. destruct (HQ _ _ HQ') as [HP|[-> ->]]; [|done].
  destruct (decide (i' = i ∧ j' = j)) as [[-> ->]|Hne]; [done|].
  rewrite Hother by lia. by apply Hgood.
Qed.

Lemma levenshtein_cell_good a b dp (P Q : Z → Z → Prop) i j :
  table_good a b dp P → 1 ≤ i ≤ len a → 1 ≤ j ≤ len b →
  P (i - 1) j → P i (j - 1) → P (i - 1) (j - 1) →
  (∀ i' j', Q i' j' → P i' j' ∨ (i' = i ∧ j' = j)) →
  ∃ dp', levenshtein_cell a b dp i j = Ok dp' ∧ table_good a b dp' Q.
Proof.
  intros Hgood Hi Hj H1 H2 H3 HQ.
  destruct (zlookup_is_Some a (i - 1)) as [x Hx]; [lia|].
  destruct (zlookup_is_Some b (j - 1)) as [y Hy]; [lia|].
  unfold levenshtein_cell.
  rewrite (getitem_Ok _ _ _ Hx), bind_Ok, (getitem_Ok _ _ _ Hy), bind_Ok.
  destruct Hgood as [Hshape Hcells].
  rewrite (getitem2_cell dp (i - 1) j (lev_at a b (i - 1) j)), bind_Ok
    by (apply Hcells; [lia|lia|done]).
  rewrite (getitem2_cell dp i (j - 1) (lev_at a b i (j - 1))), bind_Ok
    by (apply Hcells; [lia|lia|done]).
  rewrite (getitem2_cell dp (i - 1) (j - 1) (lev_at a b (i - 1) (j - 1))), bind_Ok
    by (apply Hcells; [lia|lia|done]).
  rewrite <- (lev_at_rec a b i j x y Hx Hy).
  apply (table_good_set a b dp P Q); [by split|lia|lia|done].
Qed.

Lemma edit_distance_nil_l b : edit_distance [] b = len b.
Proof. reflexivity. Qed.

Lemma edit_distance_nil_r a : edit_distance a [] = len a.
Proof. unfold edit_distance. simpl. by rewrite lev_cell_0_r. Qed.

(** [levenshtein_distance] returns the edit distance of the recurrence. *)
Lemma levenshtein_distance_spec a b : levenshtein_distance a b = Ok (edit_distance a b).
Proof.
  unfold levenshtein_distance.
  destruct (Z.eqb_spec (len a) 0) as [Ha|Ha].
  { apply len_nil_inv in Ha as ->. by rewrite edit_distance_nil_l. }
  destruct (Z.eqb_spec (len b) 0) as [Hb|Hb].
  { apply len_nil_inv in Hb as ->. by rewrite edit_distance_nil_r. }
  pose proof (len_nonneg a). pose proof (len_nonneg b).
  set (n := len a) in *. set (m := len b) in *.
  (* first column *)
  destruct (foldM_range_inv (λ dp i, setitem2 dp i 0 i)
              (λ k dp, table_good a b dp (λ i j, j = 0 ∧ i < k))
              0 (n + 1) (repeat_list (repeat_list 0 (m + 1)) (n + 1)))
    as (dp1 & -> & Hdp1); [lia| | |].
  { split.
    - split; [apply len_repeat_list; lia|].
      intros i row Hrow. pose proof (zlookup_Some_range _ _ _ Hrow) as Hr.
      rewrite len_repeat_list in Hr by lia.
      rewrite zlookup_repeat_list in Hrow by lia. injection Hrow as <-.
      apply len_repeat_list. lia.
    - intros; lia. }
  { intros k dp Hk Hgood.
    replace (setitem2 dp k 0 k) with (setitem2 dp k 0 (lev_at a b k 0))
      by (by rewrite lev_at_col0 by lia).
    apply (table_good_set a b dp _ _ k 0 Hgood); [lia|lia|].
    intros i' j' [-> Hi']. destruct (decide (i' = k)); [by right|left; lia]. }
  rewrite bind_Ok.
  (* first row *)
  destruct (foldM_range_inv (λ dp j, setitem2 dp 0 j j)
              (λ k dp, table_good a b dp (λ i j, j = 0 ∨ (i = 0 ∧ j < k)))
              0 (m + 1) dp1)
    as (dp2 & -> & Hdp2); [lia| | |].
  { destruct Hdp1 as [Hs Hc]. split; [done|].
    intros i j Hi Hj [->|[-> Hj']]; [|lia]. apply Hc; lia. }
  { intros k dp Hk Hgood.
    replace (setitem2 dp 0 k k) with (setitem2 dp 0 k (lev_at a b 0 k))
      by (by rewrite lev_at_row0 by lia).
    apply (table_good_set a b dp _ _ 0 k Hgood); [lia|lia|].
    intros i' j' [->|[-> Hj']].
    - by left; left.
    - destruct (decide (j' = k)); [by right|left; right; lia]. }
  rewrite bind_Ok.
  (* the rows of the recurrence *)
  destruct (foldM_range_inv
              (λ dp i, foldM (λ dp j, levenshtein_cell a b dp i j) (range 1 (m + 1)) dp)
              (λ k dp, table_good a b dp (λ i j, j = 0 ∨ i < k))
              1 (n + 1) dp2)
    as (dp3 & -> & Hdp3); [lia| | |].
  { destruct Hdp2 as [Hs Hc]. split; [done|].
    intros i j Hi Hj [->|Hi']; apply Hc; lia. }
  { intros i dp Hi Hgood.
    destruct (foldM_range_inv (λ dp j, levenshtein_cell a b dp i j)
                (λ k dp, table_good a b dp (λ i' j', j' = 0 ∨ i' < i ∨ (i' = i ∧ j' < k)))
                1 (m + 1) dp)
      as (dp' & -> & Hdp'); [lia| | |].
    - destruct Hgood as [Hs Hc]. split; [done|].
      intros i' j' Hi' Hj' [->|[Hlt|[-> Hlt]]]; apply Hc; lia.
    - intros j dp' Hj Hgood'.
      apply (levenshtein_cell_good a b dp' _ _ i j Hgood'); [lia|lia|lia..|].
      intros i' j' [->|[Hlt|[-> Hlt]]]; [left; lia|left; lia|].
      destruct (decide (j' = j)); [by right|left; lia].
    - exists dp'. split; [done|].
      destruct Hdp' as [Hs Hc]. split; [done|].
      intros i' j' Hi' Hj' [->|Hlt]; apply Hc; lia. }
  rewrite bind_Ok.
  destruct Hdp3 as [Hs Hc]. apply getitem2_cell.
  rewrite Hc by lia. by rewrite lev_at_full.
Qed.

(** *** The recurrence is a metric *)

Lemma subst_cost_range (x y : Σ) : 0 ≤ subst_cost x y ≤ 1.
Proof. unfold subst_cost. destruct (decide (x = y)); lia. Qed.

Lemma cost_at_range a b i j : 0 ≤ cost_at a b i j ≤ 1.
Proof.
  unfold cost_at. destruct (a !! i), (b !! j); try lia. apply subst_cost_range.
Qed.

Lemma cost_at_sym a b i j : cost_at a b i j = cost_at b a j i.
Proof.
  unfold cost_at, subst_cost. destruct (a !! i), (b !! j); try done.
  repeat destruct (decide _); congruence.
Qed.

Lemma cost_at_triangle a b c i j k :
  cost_at a c i k ≤ cost_at a b i j + cost_at b c j k.
Proof.
  unfold cost_at, subst_cost.
  destruct (a !! i), (b !! j), (c !! k); repeat destruct (decide _); try lia.
  congruence.
Qed.

Lemma cost_at_zero a b i j x y :
  a !! i = Some x → b !! j = Some y → cost_at a b i j = 0 → x = y.
Proof.
  unfold cost_at, subst_cost. intros -> ->. by destruct (decide (x = y)).
Qed.

Lemma cost_at_same a i : (i < length a)%nat → cost_at a a i i = 0.
Proof.
  intros [x Hx]%lookup_lt_is_Some. unfold cost_at, subst_cost. rewrite Hx.
  by destruct (decide (x = x)).
Qed.

Lemma lev_cell_lower a b i j :
  Z.of_nat i - Z.of_nat j ≤ lev_cell a b i j ∧ Z.of_nat j - Z.of_nat i ≤ lev_cell a b i j.
Proof.
  revert j. induction i as [|i IHi]; intros j; [simpl; lia|].
  induction j as [|j IHj]; [rewrite lev_cell_0_r; lia|].
  rewrite lev_cell_S. pose proof (IHi (S j)). pose proof (IHi j).
  pose proof (cost_at_range a b i j). unfold min3. lia.
Qed.

Lemma lev_cell_nonneg a b i j : 0 ≤ lev_cell a b i j.
Proof. pose proof (lev_cell_lower a b i j). lia. Qed.

Lemma lev_cell_step_l a b i j : lev_cell a b (S i) j ≤ lev_cell a b i j + 1.
Proof.
  destruct j as [|j]; [rewrite !lev_cell_0_r; lia|].
  rewrite lev_cell_S. unfold min3. lia.
Qed.

Lemma lev_cell_upper a b i j : lev_cell a b i j ≤ Z.of_nat i + Z.of_nat j.
Proof.
  induction i as [|i IH]; [simpl; lia|].
  pose proof (lev_cell_step_l a b i j). lia.
Qed.

Lemma lev_cell_sym a b i j : lev_cell a b i j = lev_cell b a j i.
Proof.
  revert j. induction i as [|i IHi]; intros j; [by rewrite lev_cell_0_r|].
  induction j as [|j IHj]; [by rewrite lev_cell_0_r|].
  rewrite !lev_cell_S. rewrite IHj, (IHi (S j)), (IHi j), (cost_at_sym a b).
  unfold min3. lia.
Qed.

Lemma lev_cell_refl a i : (i ≤ length a)%nat → lev_cell a a i i = 0.
Proof.
  induction i as [|i IH]; intros Hi; [done|].
  pose proof (lev_cell_nonneg a a (S i) (S i)) as Hge. revert Hge.
  rewrite lev_cell_S. rewrite IH by lia. rewrite cost_at_same by lia.
  unfold min3. lia.
Qed.

Lemma lev_cell_zero a b i j :
  (i ≤ length a)%nat → (j ≤ length b)%nat →
  lev_cell a b i j = 0 → i = j ∧ take i a = take j b.
Proof.
  intros Hi Hj Hz.
  assert (i = j) as <- by (pose proof (lev_cell_lower a b i j); lia).
  split; [done|].
  induction i as [|i IH]; [done|].
  destruct (lookup_lt_is_Some_2 a i) as [x Hx]; [lia|].
  destruct (lookup_lt_is_Some_2 b i) as [y Hy]; [lia|].
  rewrite lev_cell_S in Hz.
  pose proof (lev_cell_nonneg a b i (S i)). pose proof (lev_cell_nonneg a b (S i) i).
  pose proof (lev_cell_nonneg a b i i). pose proof (cost_at_range a b i i).
  unfold min3 in Hz.
  assert (lev_cell a b i i = 0) as Hz' by lia.
  assert (cost_at a b i i = 0) as Hc by lia.
  rewrite (take_S_r a i x), (take_S_r b i y) by done.
  rewrite (cost_at_zero a b i i x y Hx Hy Hc).
  f_equal. apply IH; [lia|done|lia].
Qed.

Lemma lev_cell_triangle a b c i j k :
  lev_cell a c i k ≤ lev_cell a b i j + lev_cell b c j k.
Proof.
  remember (i + j + k)%nat as s eqn:Hs.
  revert i j k Hs. induction s as [s IH] using lt_wf_ind. intros i j k ->.
  destruct i as [|i].
  { pose proof (lev_cell_lower b c j k). simpl. lia. }
  destruct k as [|k].
  { pose proof (lev_cell_lower a b (S i) j). rewrite !lev_cell_0_r. lia. }
  destruct j as [|j].
  { pose proof (lev_cell_upper a c (S i) (S k)). rewrite lev_cell_0_r. simpl (lev_cell b c 0 _). lia. }
  pose proof (IH (i + (S j) + (S k))%nat ltac:(lia) i (S j) (S k) eq_refl) as IH1.
  pose proof (IH ((S i) + j + (S k))%nat ltac:(lia) (S i) j (S k) eq_refl) as IH2a.
  pose proof (IH ((S i) + (S j) + k)%nat ltac:(lia) (S i) (S j) k eq_refl) as IH2b.
  pose proof (IH ((S i) + j + k)%nat ltac:(lia) (S i) j k eq_refl) as IH2c.
  pose proof (IH (i + j + (S k))%nat ltac:(lia) i j (S k) eq_refl) as IH3a.
  pose proof (IH (i + j + k)%nat ltac:(lia) i j k eq_refl) as IH3c.
  pose proof (cost_at_triangle a b c i j k).
  pose proof (cost_at_range a b i j). pose proof (cost_at_range b c j k).
  rewrite (lev_cell_S a c), (lev_cell_S a b), (lev_cell_S b c).
  rewrite (lev_cell_S a b) in IH2b. rewrite (lev_cell_S b c) in IH1.
  rewrite (lev_cell_S a c) in IH2a.
  unfold min3 in *. lia.
Qed.

Lemma edit_distance_refl a : edit_distance a a = 0.
Proof. apply lev_cell_refl. lia. Qed.

Lemma edit_distance_zero a b : edit_distance a b = 0 → a = b.
Proof.
  intros Hz. apply lev_cell_zero in Hz as [_ Ht]; [|lia..].
  by rewrite !firstn_all in Ht.
Qed.

Lemma edit_distance_sym a b : edit_distance a b = edit_distance b a.
Proof. apply lev_cell_sym. Qed.

Lemma edit_distance_triangle a b c :
  edit_distance a c ≤ edit_distance a b + edit_distance b c.
Proof. apply lev_cell_triangle. Qed.

Lemma edit_distance_nonneg a b : 0 ≤ edit_distance a b.
Proof. apply lev_cell_nonneg. Qed.

(** *** The rolling rows of the optimized and the counting search *)

(** The cells of [r] selected by [P] hold row [i] of the recurrence. *)
Definition row_good a b (r : list Z) (i : Z) (P : Z → Prop) : Prop :=
  len r = len b + 1 ∧
  ∀ j, 0 ≤ j ≤ len b → P j → zlookup r j = Some (lev_at a b i j).

Lemma row_good_init a b : row_good a b (range 0 (len b + 1)) 0 (λ _, True).
Proof.
  pose proof (len_nonneg b). split; [rewrite len_range; lia|].
  intros j Hj _. rewrite zlookup_range by lia. rewrite lev_at_row0 by lia.
  f_equal; lia.
Qed.

Lemma rolling_cell_good a b prev curr i j x :
  zlookup a (i - 1) = Some x → 1 ≤ j ≤ len b →
  row_good a b prev (i - 1) (λ _, True) →
  row_good a b curr i (λ j', j' < j) →
  ∃ curr', rolling_cell x b prev curr j = Ok curr' ∧
           row_good a b curr' i (λ j', j' < j + 1).
Proof.
  intros Hx Hj [Hlp Hp] [Hlc Hc].
  destruct (zlookup_is_Some b (j - 1)) as [y Hy]; [lia|].
  unfold rolling_cell.
  rewrite (getitem_Ok _ _ _ Hy), bind_Ok.
  rewrite (getitem_Ok prev j (lev_at a b (i - 1) j)), bind_Ok by (apply Hp; [lia|done]).
  rewrite (getitem_Ok curr (j - 1) (lev_at a b i (j - 1))), bind_Ok by (apply Hc; lia).
  rewrite (getitem_Ok prev (j - 1) (lev_at a b (i - 1) (j - 1))), bind_Ok
    by (apply Hp; [lia|done]).
  rewrite <- (lev_at_rec a b i j x y Hx Hy).
  rewrite setitem_Ok by lia. eexists; split; [done|].
  split; [by rewrite len_insert|].
  intros j' Hj' Hlt. destruct (decide (j' = j)) as [->|Hne].
  - apply zlookup_insert_eq. lia.
  - rewrite zlookup_insert_ne by lia. apply Hc; lia.
Qed.

(** The row object [curr] once [curr[0] = i] is stored. *)
Lemma row_good_first a b curr i :
  len curr = len b + 1 → 0 ≤ i →
  ∃ curr', setitem curr 0 i = Ok curr' ∧ row_good a b curr' i (λ j', j' < 1).
Proof.
  intros Hl Hi. pose proof (len_nonneg b).
  rewrite setitem_Ok by lia. eexists; split; [done|].
  split; [by rewrite len_insert|].
  intros j Hj Hlt. assert (j = 0) as -> by lia.
  rewrite zlookup_insert_eq by lia. by rewrite lev_at_col0 by lia.
Qed.

Lemma optimized_row_good a b prev curr i :
  1 ≤ i ≤ len a →
  row_good a b prev (i - 1) (λ _, True) → len curr = len b + 1 →
  ∃ curr', optimized_row a b (len b) (prev, curr) i = Ok (curr', prev) ∧
           row_good a b curr' i (λ _, True).
Proof.
  intros Hi Hprev Hlc. pose proof (len_nonneg b).
  destruct (zlookup_is_Some a (i - 1)) as [x Hx]; [lia|].
  unfold optimized_row.
  destruct (row_good_first a b curr i Hlc) as (curr0 & -> & Hcurr0); [lia|].
  rewrite bind_Ok.
  destruct (foldM_range_inv
              (λ curr j, x ← getitem a (i - 1); rolling_cell x b prev curr j)
              (λ k curr, row_good a b curr i (λ j', j' < k))
              1 (len b + 1) curr0) as (curr' & -> & Hcurr'); [lia|done| |].
  { intros j c Hj Hc. rewrite (getitem_Ok _ _ _ Hx), bind_Ok.
    apply (rolling_cell_good a b prev c i j x); [done|lia|done|done]. }
  rewrite bind_Ok. exists curr'. split; [done|].
  destruct Hcurr' as [Hl Hc]. split; [done|]. intros j Hj _. apply Hc; lia.
Qed.

Lemma optimized_rows_spec a b :
  len a = len b →
  ∃ prev curr,
    foldM (optimized_row a b (len b)) (range 1 (len b + 1))
          (range 0 (len b + 1), repeat_list 0 (len b + 1)) = Ok (prev, curr) ∧
    zlookup prev (len b) = Some (edit_distance a b).
Proof.
  intros Hab. pose proof (len_nonneg b).
  destruct (foldM_range_inv (optimized_row a b (len b))
              (λ k rows, row_good a b rows.1 (k - 1) (λ _, True) ∧ len rows.2 = len b + 1)
              1 (len b + 1) (range 0 (len b + 1), repeat_list 0 (len b + 1)))
    as ([prev curr] & Hrun & Hprev & Hcurr); [lia| | |].
  { cbn [fst snd]. split; [apply row_good_init|]. apply len_repeat_list. lia. }
  { intros i [prev curr] Hi [Hprev Hcurr]. cbn [fst snd] in *.
    destruct (optimized_row_good a b prev curr i) as (curr' & -> & Hc'); [lia|done|done|].
    eexists; split; [done|]. cbn [fst snd]. split.
    - by replace (i + 1 - 1) with i by lia.
    - by destruct Hprev. }
  exists prev, curr. split; [done|]. cbn [fst snd] in Hprev.
  destruct Hprev as [_ Hp]. rewrite Hp by lia.
  replace (len b + 1 - 1) with (len a) by lia. by rewrite lev_at_full.
Qed.

Lemma counting_row_good text b start prev curr i (comparisons : Z) :
  let a := slice text start (start + len b) in
  0 ≤ start → start + len b ≤ len text → 1 ≤ i ≤ len b →
  row_good a b prev (i - 1) (λ _, True) → len curr = len b + 1 →
  ∃ curr' comparisons',
    counting_row text b start (len b) (prev, curr, comparisons) i
      = Ok (curr', prev, comparisons') ∧
    row_good a b curr' i (λ _, True) ∧ comparisons ≤ comparisons'.
Proof.
  intros a Hs Hfit Hi Hprev Hlc. pose proof (len_nonneg b).
  assert (len a = len b) as Hla by (unfold a; rewrite len_slice; lia).
  destruct (zlookup_is_Some a (i - 1)) as [x Hx]; [lia|].
  assert (zlookup text (start + i - 1) = Some x) as Hx'.
  { rewrite <- Hx. unfold a. rewrite zlookup_slice by lia. f_equal. lia. }
  unfold counting_row.
  destruct (row_good_first a b curr i Hlc) as (curr0 & -> & Hcurr0); [lia|].
  rewrite bind_Ok.
  destruct (foldM_range_inv (counting_cell text b start i prev)
              (λ k st, row_good a b st.1 i (λ j', j' < k) ∧ comparisons ≤ st.2)
              1 (len b + 1) (curr0, comparisons))
    as ([curr' comparisons'] & -> & Hcurr' & Hle); [lia| | |].
  { cbn [fst snd]. split; [done|lia]. }
  { intros j [c k] Hj [Hc Hk]. cbn [fst snd] in *. unfold counting_cell.
    rewrite (getitem_Ok _ _ _ Hx'), bind_Ok.
    destruct (rolling_cell_good a b prev c i j x) as (c' & -> & Hc'); [done|lia|done|done|].
    rewrite bind_Ok. eexists; split; [done|]. cbn [fst snd]. split; [done|lia]. }
  rewrite bind_Ok. exists curr', comparisons'. cbn [fst snd] in *. split; [done|].
  split; [|done].
  destruct Hcurr' as [Hl Hc]. split; [done|]. intros j Hj _. apply Hc; lia.
Qed.

Lemma counting_rows_spec text b start (comparisons : Z) :
  0 ≤ start → start + len b ≤ len text →
  ∃ prev curr comparisons',
    foldM (counting_row text b start (len b)) (range 1 (len b + 1))
          (range 0 (len b + 1), repeat_list 0 (len b + 1), comparisons)
      = Ok (prev, curr, comparisons') ∧
    zlookup prev (len b) = Some (edit_distance (slice text start (start + len b)) b) ∧
    comparisons ≤ comparisons'.
Proof.
  intros Hs Hfit. pose proof (len_nonneg b).
  set (a := slice text start (start + len b)).
  assert (len a = len b) as Hla by (unfold a; rewrite len_slice; lia).
  destruct (foldM_range_inv (counting_row text b start (len b))
              (λ k st, row_good a b st.1.1 (k - 1) (λ _, True) ∧
                       len st.1.2 = len b + 1 ∧ comparisons ≤ st.2)
              1 (len b + 1) (range 0 (len b + 1), repeat_list 0 (len b + 1), comparisons))
    as ([[prev curr] k'] & Hrun & Hprev & Hcurr & Hle); [lia| | |].
  { cbn [fst snd]. split; [apply row_good_init|]. split; [|lia]. apply len_repeat_list. lia. }
  { intros i [[prev curr] k] Hi (Hprev & Hcurr & Hk). cbn [fst snd] in *.
    destruct (counting_row_good text b start prev curr i k)
      as (curr' & k' & -> & Hc' & Hk'); [lia|lia|lia|done|done|].
    eexists; split; [done|]. cbn [fst snd]. split; [|split].
    - by replace (i + 1 - 1) with i by lia.
    - by destruct Hprev.
    - lia. }
  exists prev, curr, k'. split; [done|]. cbn [fst snd] in *. split; [|done].
  destruct Hprev as [_ Hp]. rewrite Hp by lia.
  replace (len b + 1 - 1) with (len a) by lia. by rewrite lev_at_full.
Qed.

(** *** The window searches *)

(** The offsets the specification asks for: those whose window of
    [len pattern] symbols is within [max_distance] edits of the pattern. *)
Definition window_within text pattern (max_distance start : Z) : bool :=
  edit_distance (slice text start (start + len pattern)) pattern <=? max_distance.

Definition approx_matches text pattern (max_distance : Z) : list Z :=
  List.filter (window_within text pattern max_distance)
              (range 0 (len text - len pattern + 1)).

Lemma levenshtein_search_spec (text pattern : list Σ) d :
  len pattern ≠ 0 → len pattern ≤ len text →
  levenshtein_search text pattern d = Ok (approx_matches text pattern d).
Proof.
  intros Hm Hfit. unfold levenshtein_search.
  destruct (Z.eqb_spec (len pattern) 0); [done|].
  destruct (Z.ltb_spec (len text) (len pattern)); [lia|].
  rewrite (foldM_filter (window_within text pattern d)); [done|].
  intros acc start _. rewrite levenshtein_distance_spec, bind_Ok.
  unfold window_within. by destruct (_ <=? d).
Qed.

Lemma levenshtein_search_optimized_spec (text pattern : list Σ) d :
  len pattern ≠ 0 → len pattern ≤ len text →
  levenshtein_search_optimized text pattern d = Ok (approx_matches text pattern d).
Proof.
  intros Hm Hfit. unfold levenshtein_search_optimized.
  destruct (Z.eqb_spec (len pattern) 0); [done|].
  destruct (Z.ltb_spec (len text) (len pattern)); [lia|].
  rewrite (foldM_filter (window_within text pattern d)); [done|].
  intros acc start Hstart%elem_of_range. pose proof (len_nonneg pattern).
  destruct (optimized_rows_spec (slice text start (start + len pattern)) pattern)
    as (prev & curr & -> & Hd); [rewrite len_slice; lia|].
  rewrite bind_Ok. rewrite (getitem_Ok _ _ _ Hd), bind_Ok.
  unfold window_within. by destruct (_ <=? d).
Qed.

Lemma count_comparisons_levenshtein_spec (text pattern : list Σ) d :
  len pattern ≠ 0 → len pattern ≤ len text →
  ∃ comparisons,
    count_comparisons_levenshtein text pattern d
      = Ok (approx_matches text pattern d, comparisons) ∧ 0 ≤ comparisons.
Proof.
  intros Hm Hfit. unfold count_comparisons_levenshtein.
  destruct (Z.eqb_spec (len pattern) 0); [done|].
  destruct (Z.ltb_spec (len text) (len pattern)); [lia|].
  unfold approx_matches.
  assert (∀ xs acc k, (∀ x, x ∈ xs → 0 ≤ x ∧ x + len pattern ≤ len text) →
    ∃ k', foldM (λ '(matches, comparisons) start,
             '(prev, curr, comparisons) ←
               foldM (counting_row text pattern start (len pattern))
                     (range 1 (len pattern + 1))
                     (range 0 (len pattern + 1), repeat_list 0 (len pattern + 1),
                      comparisons);
             d0 ← getitem prev (len pattern);
             if d0 <=? d then Ok (matches ++ [start], comparisons)
             else Ok (matches, comparisons)) xs (acc, k)
          = Ok (acc ++ List.filter (window_within text pattern d) xs, k') ∧ k ≤ k')
    as Hloop.
  { induction xs as [|x xs IH]; intros acc k Hxs; simpl.
    - exists k. by rewrite app_nil_r.
    - destruct (Hxs x) as [Hx0 Hx1]; [by left|].
      destruct (counting_rows_spec text pattern x k)
        as (prev & curr & k1 & -> & Hd & Hk1); [lia|lia|].
      rewrite bind_Ok. rewrite (getitem_Ok _ _ _ Hd), bind_Ok.
      unfold window_within at 1.
      destruct (_ <=? d).
      + rewrite bind_Ok.
        destruct (IH (acc ++ [x]) k1) as (k' & -> & Hk'); [intros; apply Hxs; by right|].
        exists k'. rewrite <- app_assoc. split; [done|lia].
      + rewrite bind_Ok.
        destruct (IH acc k1) as (k' & -> & Hk'); [intros; apply Hxs; by right|].
        exists k'. split; [done|lia]. }
  destruct (Hloop (range 0 (len text - len pattern + 1)) [] 0) as (k' & -> & Hk').
  { intros x Hx%elem_of_range. lia. }
  exists k'. by split.
Qed.

End EditDistance.

(** ** Borders and occurrences *)

Section Exact.

Context {Σ : Type} `{Countable Σ}.
Variables (text pattern : list Σ).

Local Abbreviation n := (len text).
Local Abbreviation m := (len pattern).

(** [pborder k q]: the first [k] symbols of the pattern are a proper border of
    its first [q] symbols, [pattern[0:k] == pattern[q-k:q]] with [k < q]. *)
Definition pborder (k q : Z) : Prop :=
  0 ≤ k < q ∧ q ≤ m ∧
  ∀ t, 0 ≤ t < k → zlookup pattern t = zlookup pattern (q - k + t).

(** [tmatch k i]: the first [k] symbols of the pattern end at text position [i],
    [pattern[0:k] == text[i-k:i]]. *)
Definition tmatch (k i : Z) : Prop :=
  0 ≤ k ≤ i ∧ k ≤ m ∧ i ≤ n ∧
  ∀ t, 0 ≤ t < k → zlookup pattern t = zlookup text (i - k + t).

Lemma pborder_zero q : 1 ≤ q ≤ m → pborder 0 q.
Proof. intros. split; [lia|]. split; [lia|]. intros; lia. Qed.

Lemma pborder_trans k j q : pborder k j → pborder j q → pborder k q.
Proof.
  intros (Hk & Hj & Hkj) (Hj' & Hq & Hjq). split; [lia|]. split; [done|].
  intros t Ht. rewrite (Hkj t) by lia. rewrite (Hjq (j - k + t)) by lia. f_equal; lia.
Qed.

Lemma pborder_between k j q : pborder k q → pborder j q → k < j → pborder k j.
Proof.
  intros (Hk & Hq & Hkq) (Hj & _ & Hjq) Hlt. split; [lia|]. split; [lia|].
  intros t Ht. rewrite (Hkq t) by lia. rewrite (Hjq (j - k + t)) by lia. f_equal; lia.
Qed.

Lemma pborder_pred k q :
  0 ≤ k → pborder (k + 1) (q + 1) →
  zlookup pattern k = zlookup pattern q ∧ (1 ≤ k → pborder k q).
Proof.
  intros Hk (Hkq & Hq & Hb). split.
  - rewrite (Hb k) by lia. f_equal; lia.
  - intros Hk1. split; [lia|]. split; [lia|].
    intros t Ht. rewrite (Hb t) by lia. f_equal; lia.
Qed.

Lemma pborder_succ k q :
  pborder k q → q < m → zlookup pattern k = zlookup pattern q →
  pborder (k + 1) (q + 1).
Proof.
  intros (Hk & Hq & Hb) Hlt Heq. split; [lia|]. split; [lia|].
  intros t Ht. destruct (decide (t = k)) as [->|Hne].
  - rewrite Heq. f_equal; lia.
  - rewrite (Hb t) by lia. f_equal; lia.
Qed.

Lemma tmatch_zero i : 0 ≤ i ≤ n → tmatch 0 i.
Proof.
  intros. pose proof (len_nonneg pattern).
  split; [lia|]. split; [lia|]. split; [lia|]. intros; lia.
Qed.

Lemma tmatch_border k j i : tmatch j i → pborder k j → tmatch k i.
Proof.
  intros (Hj & Hjm & Hi & Hji) (Hk & _ & Hkj).
  split; [lia|]. split; [lia|]. split; [done|].
  intros t Ht. rewrite (Hkj t) by lia. rewrite (Hji (j - k + t)) by lia. f_equal; lia.
Qed.

Lemma tmatch_between k j i : tmatch k i → tmatch j i → k < j → pborder k j.
Proof.
  intros (Hk & _ & _ & Hki) (Hj & Hjm & _ & Hji) Hlt.
  split; [lia|]. split; [lia|].
  intros t Ht. rewrite (Hki t) by lia. rewrite (Hji (j - k + t)) by lia. f_equal; lia.
Qed.

Lemma tmatch_pred k i :
  0 ≤ k → tmatch (k + 1) (i + 1) →
  zlookup pattern k = zlookup text i ∧ tmatch k i.
Proof.
  intros Hk (Hki & Hkm & Hi & Hb). split.
  - rewrite (Hb k) by lia. f_equal; lia.
  - split; [lia|]. split; [lia|]. split; [lia|].
    intros t Ht. rewrite (Hb t) by lia. f_equal; lia.
Qed.

Lemma tmatch_succ k i :
  tmatch k i → k < m → i < n → zlookup pattern k = zlookup text i →
  tmatch (k + 1) (i + 1).
Proof.
  intros (Hk & Hkm & Hi & Hb) Hlt Hin Heq.
  split; [lia|]. split; [lia|]. split; [lia|].
  intros t Ht. destruct (decide (t = k)) as [->|Hne].
  - rewrite Heq. f_equal; lia.
  - rewrite (Hb t) by lia. f_equal; lia.
Qed.

(** *** The LPS table *)

(** The entries for the prefixes of length [1..i] hold their longest border. *)
Definition lps_correct (lps : list Z) (i : Z) : Prop :=
  ∀ q, 1 ≤ q ≤ i →
    ∃ k, zlookup lps (q - 1) = Some k ∧ pborder k q ∧ ∀ k', pborder k' q → k' ≤ k.

Definition lps_inv (lps : list Z) (j i : Z) : Prop :=
  len lps = m ∧ 1 ≤ i ≤ m ∧ 0 ≤ j < i ∧ lps_correct lps i ∧
  (1 ≤ j → pborder j i) ∧
  (∀ k, 0 ≤ k → pborder (k + 1) (i + 1) → k ≤ j).

Lemma lps_correct_set lps i v :
  len lps = m → 1 ≤ i < m → lps_correct lps i →
  pborder v (i + 1) → (∀ k', pborder k' (i + 1) → k' ≤ v) →
  lps_correct (<[Z.to_nat i := v]> lps) (i + 1).
Proof.
  intros Hl Hi Hc Hv Hmax q Hq. destruct (decide (q = i + 1)) as [->|Hne].
  - exists v. replace (i + 1 - 1) with i by lia.
    rewrite zlookup_insert_eq by lia. done.
  - destruct (Hc q) as (k & Hk & Hb); [lia|]. exists k.
    rewrite zlookup_insert_ne by lia. done.
Qed.

Lemma lps_lookup lps i j :
  lps_correct lps i → 1 ≤ j ≤ i →
  ∃ k, zlookup lps (j - 1) = Some k ∧ 0 ≤ k < j ∧
       (1 ≤ k → pborder k j) ∧ ∀ k', pborder k' j → k' ≤ k.
Proof.
  intros Hc Hj. destruct (Hc j Hj) as (k & Hk & Hb & Hmax).
  exists k. split; [done|]. split; [destruct Hb; lia|]. done.
Qed.

Lemma lps_loop_spec fuel lps j i :
  lps_inv lps j i → 2 * (m - i) + j + 1 ≤ Z.of_nat fuel →
  ∃ lps', lps_loop fuel pattern m lps j i = Ok lps' ∧
          len lps' = m ∧ lps_correct lps' m.
Proof.
  revert lps j i. induction fuel as [|fuel IH]; intros lps j i Hinv Hfuel.
  { destruct Hinv as (_ & ? & ? & _). lia. }
  destruct Hinv as (Hl & Hi & Hj & Hc & Hb & Hmax).
  cbn [lps_loop]. destruct (Z.ltb_spec i m) as [Him|Him].
  2:{ exists lps. assert (i = m) as -> by lia. done. }
  destruct (zlookup_is_Some pattern i) as [x Hx]; [lia|].
  destruct (zlookup_is_Some pattern j) as [y Hy]; [lia|].
  rewrite (getitem_Ok _ _ _ Hx), bind_Ok, (getitem_Ok _ _ _ Hy), bind_Ok.
  assert (1 ≤ j + 1 → pborder (j + 1) (i + 1) ↔ x = y) as Hext.
  { intros _. split.
    - intros Hb'. apply pborder_pred in Hb' as [Heq _]; [|lia]. congruence.
    - intros ->. destruct (decide (j = 0)) as [->|Hj0].
      + split; [lia|]. split; [lia|]. intros t Ht. assert (t = 0) as -> by lia.
        rewrite Hy, <- Hx. f_equal; lia.
      + apply pborder_succ; [apply Hb; lia|lia|congruence]. }
  destruct (decide (x = y)) as [Heq|Hne].
  - (* the border extends *)
    rewrite setitem_Ok by lia. rewrite bind_Ok.
    assert (pborder (j + 1) (i + 1)) as Hb' by (apply Hext; [lia|done]).
    assert (∀ k', pborder k' (i + 1) → k' ≤ j + 1) as Hmax'.
    { intros k' Hk'. destruct (decide (k' = 0)); [lia|].
      assert (k' - 1 ≤ j); [|lia]. apply Hmax; [destruct Hk'; lia|].
      by replace (k' - 1 + 1) with k' by lia. }
    apply IH; [|lia].
    split; [by rewrite len_insert|]. split; [lia|]. split; [lia|].
    split; [apply lps_correct_set; [done|lia|done|done|done]|]. split; [done|].
    intros k Hk Hk'. apply pborder_pred in Hk' as [_ Hk']; [|lia].
    destruct (decide (k = 0)); [lia|]. apply Hmax'. apply Hk'. lia.
  - destruct (Z.eqb_spec j 0) as [Hj0|Hj0]; cbn [negb].
    + (* no border of the prefix of length i + 1 *)
      subst j. rewrite setitem_Ok by lia. rewrite bind_Ok.
      assert (∀ k', pborder k' (i + 1) → k' ≤ 0) as Hmax'.
      { intros k' Hk'. destruct (decide (k' ≤ 0)); [done|].
        assert (k' - 1 ≤ 0) as Hk1.
        { apply Hmax; [lia|]. by replace (k' - 1 + 1) with k' by lia. }
        assert (k' = 1) as -> by lia.
        exfalso. apply Hne. by apply Hext. }
      apply IH; [|lia].
      split; [by rewrite len_insert|]. split; [lia|]. split; [lia|].
      split; [apply lps_correct_set; [done|lia|done|apply pborder_zero; lia|done]|].
      split; [lia|].
      intros k Hk Hk'. apply pborder_pred in Hk' as [_ Hk']; [|lia].
      destruct (decide (k = 0)); [lia|]. apply Hmax'. apply Hk'. lia.
    + (* fall back to the longest border of the current border *)
      destruct (lps_lookup lps i j Hc) as (j' & Hj' & Hr & Hbj' & Hmaxj'); [lia|].
      rewrite (getitem_Ok _ _ _ Hj'), bind_Ok.
      apply IH; [|lia].
      split; [done|]. split; [lia|]. split; [lia|]. split; [done|].
      split.
      * intros Hj1. apply (pborder_trans j' j i); [by apply Hbj'|apply Hb; lia].
      * intros k Hk Hk'. pose proof (Hmax k Hk Hk') as Hkj.
        assert (k ≠ j) as Hkne.
        { intros ->. apply Hne. apply Hext; [lia|done]. }
        apply pborder_pred in Hk' as [_ Hk']; [|lia].
        destruct (decide (k = 0)); [lia|].
        apply Hmaxj'. apply (pborder_between k j i); [apply Hk'; lia|apply Hb; lia|lia].
Qed.

Lemma compute_lps_table_spec :
  1 ≤ m →
  ∃ lps, compute_lps_table pattern = Ok lps ∧ len lps = m ∧ lps_correct lps m.
Proof.
  intros Hm. unfold compute_lps_table. apply lps_loop_spec; [|lia].
  split; [apply len_repeat_list; lia|]. split; [lia|]. split; [lia|].
  split; [|split].
  - intros q Hq. assert (q = 1) as -> by lia. exists 0.
    rewrite zlookup_repeat_list by lia. split; [done|].
    split; [apply pborder_zero; lia|]. intros k' (? & ? & _). lia.
  - lia.
  - intros k Hk (? & ? & _). lia.
Qed.

(** *** Occurrences *)

(** The offsets of the specification: [s] with
    [text[s:s + len(pattern)] == pattern], in ascending order. *)
Definition occurs_at (s : Z) : bool :=
  bool_decide (slice text s (s + m) = pattern).

Definition occurrences_below (e : Z) : list Z :=
  List.filter occurs_at (range 0 e).

Definition occurrences : list Z := occurrences_below (n - m + 1).

Lemma slice_full_length s :
  0 ≤ s → 1 ≤ m → len (slice text s (s + m)) = m → s + m ≤ n.
Proof.
  intros Hs Hm. unfold slice, clamp_index.
  assert ((s <? 0) = false) as -> by lia.
  assert ((s + m <? 0) = false) as -> by lia.
  unfold len in *. rewrite length_take, length_drop. lia.
Qed.

Lemma occurs_at_tmatch s :
  0 ≤ s → 1 ≤ m → occurs_at s = true ↔ tmatch m (s + m).
Proof.
  intros Hs Hm. unfold occurs_at. rewrite bool_decide_eq_true. split.
  - intros Heq.
    assert (s + m ≤ n) as Hfit by (apply slice_full_length; [done..|by rewrite Heq]).
    split; [lia|]. split; [lia|]. split; [done|].
    intros t Ht. rewrite <- Heq at 1. rewrite zlookup_slice by lia. f_equal; lia.
  - intros (_ & _ & Hfit & Hb). apply list_eq. intros k.
    rewrite <- !zlookup_of_nat.
    destruct (decide (Z.of_nat k < m)) as [Hk|Hk].
    + rewrite zlookup_slice by lia. rewrite (Hb (Z.of_nat k)) by lia. f_equal; lia.
    + rewrite !zlookup_None; [done|lia|rewrite len_slice; lia].
Qed.

Lemma occurrences_below_nil e : e ≤ 0 → occurrences_below e = [].
Proof. intros. unfold occurrences_below. by rewrite range_nil by lia. Qed.

Lemma occurrences_below_succ e :
  0 ≤ e →
  occurrences_below (e + 1) = occurrences_below e ++ (if occurs_at e then [e] else []).
Proof.
  intros He. unfold occurrences_below. rewrite range_snoc by lia.
  rewrite List.filter_app. simpl. by destruct (occurs_at e).
Qed.

Lemma occurrences_below_hit e :
  1 ≤ m → tmatch m (e + m) →
  occurrences_below (e + 1) = occurrences_below e ++ [e].
Proof.
  intros Hm Ht. assert (0 ≤ e) as He by (destruct Ht; lia).
  rewrite occurrences_below_succ by done.
  by rewrite (proj2 (occurs_at_tmatch e He Hm) Ht).
Qed.

Lemma occurrences_below_miss e :
  1 ≤ m → ¬ tmatch m (e + m) → occurrences_below (e + 1) = occurrences_below e.
Proof.
  intros Hm Ht. destruct (decide (0 ≤ e)) as [He|He].
  - rewrite occurrences_below_succ by done.
    destruct (occurs_at e) eqn:E; [|by rewrite app_nil_r].
    exfalso. apply Ht. by apply occurs_at_tmatch.
  - by rewrite !occurrences_below_nil by lia.
Qed.

(** No offset beyond [len(text) - len(pattern)] is an occurrence. *)
Lemma occurrences_below_beyond e :
  1 ≤ m → n - m + 1 ≤ e → occurrences_below e = occurrences.
Proof.
  intros Hm He. unfold occurrences.
  replace e with (n - m + 1 + Z.of_nat (Z.to_nat (e - (n - m + 1)))) by lia.
  induction (Z.to_nat (e - (n - m + 1))) as [|d IH].
  - f_equal; lia.
  - rewrite <- IH.
    replace (n - m + 1 + Z.of_nat (S d)) with (n - m + 1 + Z.of_nat d + 1) by lia.
    apply occurrences_below_miss; [done|]. intros (_ & _ & ? & _). lia.
Qed.

(** *** The KMP scan *)

Definition kmp_inv (i j : Z) (occ : list Z) : Prop :=
  0 ≤ i ≤ n ∧ 0 ≤ j < m ∧ tmatch j i ∧
  (∀ k, 0 ≤ k < m → tmatch (k + 1) (i + 1) → k ≤ j) ∧
  occ = occurrences_below (i - m + 1).

Lemma kmp_inv_init : 1 ≤ m → kmp_inv 0 0 [].
Proof.
  intros Hm. pose proof (len_nonneg text).
  split; [lia|]. split; [lia|]. split; [apply tmatch_zero; lia|]. split.
  - intros k Hk (? & _). lia.
  - by rewrite occurrences_below_nil by lia.
Qed.

Lemma kmp_inv_final i j occ : 1 ≤ m → kmp_inv i j occ → n ≤ i → occ = occurrences.
Proof.
  intros Hm (Hi & _ & _ & _ & ->) Hn. apply occurrences_below_beyond; [done|lia].
Qed.

(** The candidates at the next text position, from those at this one. *)
Lemma kmp_candidates_next i j :
  0 ≤ j →
  (∀ k, 0 ≤ k < m → tmatch (k + 1) (i + 1) → k ≤ j) →
  ∀ k, 0 ≤ k < m → tmatch (k + 1) (i + 1 + 1) → k ≤ j + 1.
Proof.
  intros Hj Hmax k Hk Ht. apply tmatch_pred in Ht as [_ Ht]; [|lia].
  destruct (decide (k = 0)); [lia|].
  assert (k - 1 ≤ j); [|lia]. apply Hmax; [lia|].
  by replace (k - 1 + 1) with k by lia.
Qed.

(** A symbol match that does not complete the pattern. *)
Lemma kmp_step_match i j occ :
  kmp_inv i j occ → i < n → zlookup pattern j = zlookup text i → j + 1 < m →
  kmp_inv (i + 1) (j + 1) occ.
Proof.
  intros (Hi & Hj & Ht & Hmax & ->) Hin Heq Hjm.
  split; [lia|]. split; [lia|]. split; [apply tmatch_succ; [done|lia|lia|done]|].
  split; [apply kmp_candidates_next; [lia|done]|].
  replace (i + 1 - m + 1) with (i - m + 1 + 1) by lia.
  symmetry. apply occurrences_below_miss; [lia|].
  replace (i - m + 1 + m) with (i + 1) by lia. intros Hocc.
  assert (m - 1 ≤ j); [|lia]. apply Hmax; [lia|].
  by replace (m - 1 + 1) with m by lia.
Qed.

(** A symbol match that completes the pattern, followed by the fallback to the
    longest border [j'] of the whole pattern. *)
Lemma kmp_step_found i j j' occ :
  kmp_inv i j occ → i < n → zlookup pattern j = zlookup text i → j + 1 = m →
  0 ≤ j' < m → (1 ≤ j' → pborder j' m) → (∀ k', pborder k' m → k' ≤ j') →
  kmp_inv (i + 1) j' (occ ++ [i + 1 - (j + 1)]).
Proof.
  intros (Hi & Hj & Ht & Hmax & ->) Hin Heq Hjm Hj' Hb Hbmax.
  assert (tmatch m (i + 1)) as Hfull.
  { rewrite <- Hjm. apply tmatch_succ; [done|lia|lia|done]. }
  split; [lia|]. split; [lia|]. split.
  { destruct (decide (j' = 0)) as [->|Hne]; [apply tmatch_zero; lia|].
    apply (tmatch_border j' m); [done|apply Hb; lia]. }
  split.
  - intros k Hk Hk'. apply tmatch_pred in Hk' as [_ Hk']; [|lia].
    destruct (decide (k = 0)); [lia|]. apply Hbmax.
    apply (tmatch_between k m (i + 1)); [done|done|lia].
  - replace (i + 1 - m + 1) with (i - m + 1 + 1) by lia.
    replace (i + 1 - (j + 1)) with (i - m + 1) by lia.
    symmetry. apply occurrences_below_hit; [lia|].
    by replace (i - m + 1 + m) with (i + 1) by lia.
Qed.

(** A mismatch with nothing matched: the text position advances. *)
Lemma kmp_step_skip i occ :
  kmp_inv i 0 occ → i < n → zlookup pattern 0 ≠ zlookup text i →
  kmp_inv (i + 1) 0 occ.
Proof.
  intros (Hi & Hj & Ht & Hmax & ->) Hin Hne.
  assert (∀ k, 0 ≤ k < m → ¬ tmatch (k + 1) (i + 1)) as Hnone.
  { intros k Hk Hk'. pose proof (Hmax k Hk Hk'). assert (k = 0) as -> by lia.
    apply (tmatch_pred 0 i) in Hk' as [Heq _]; [done|lia]. }
  split; [lia|]. split; [lia|]. split; [apply tmatch_zero; lia|]. split.
  - intros k Hk Hk'. apply tmatch_pred in Hk' as [_ Hk']; [|lia].
    destruct (decide (k = 0)); [lia|]. exfalso. apply (Hnone (k - 1)); [lia|].
    by replace (k - 1 + 1) with k by lia.
  - replace (i + 1 - m + 1) with (i - m + 1 + 1) by lia.
    symmetry. apply occurrences_below_miss; [lia|].
    replace (i - m + 1 + m) with (i + 1) by lia. intros Hocc.
    apply (Hnone (m - 1)); [lia|]. by replace (m - 1 + 1) with m by lia.
Qed.

(** A mismatch after [j] matched symbols: fall back to the longest border [j']
    of the matched prefix. *)
Lemma kmp_step_fallback i j j' occ :
  kmp_inv i j occ → i < n → zlookup pattern j ≠ zlookup text i → 1 ≤ j →
  0 ≤ j' < j → (1 ≤ j' → pborder j' j) → (∀ k', pborder k' j → k' ≤ j') →
  kmp_inv i j' occ.
Proof.
  intros (Hi & Hj & Ht & Hmax & ->) Hin Hne Hj1 Hj' Hb Hbmax.
  split; [lia|]. split; [lia|]. split.
  { destruct (decide (j' = 0)) as [->|Hne']; [apply tmatch_zero; lia|].
    apply (tmatch_border j' j); [done|apply Hb; lia]. }
  split; [|done].
  intros k Hk Hk'. pose proof (Hmax k Hk Hk') as Hkj.
  apply tmatch_pred in Hk' as [Heq Hk']; [|lia].
  assert (k ≠ j) by (intros ->; done).
  destruct (decide (k = 0)); [lia|]. apply Hbmax.
  apply (tmatch_between k j i); [done|done|lia].
Qed.

Lemma kmp_count_loop_spec lps fuel i j occ (c : Z) :
  len lps = m → lps_correct lps m →
  kmp_inv i j occ → 2 * (n - i) + j + 1 ≤ Z.of_nat fuel → 0 ≤ c ≤ 2 * i - j →
  ∃ c', kmp_count_loop fuel text pattern n m lps i j occ c = Ok (occurrences, c') ∧
        0 ≤ c' ≤ 2 * n.
Proof.
  intros Hl Hlps. revert i j occ c.
  induction fuel as [|fuel IH]; intros i j occ c Hinv Hfuel Hc.
  { destruct Hinv as (? & ? & _). lia. }
  pose proof Hinv as (Hi & Hj & _).
  cbn [kmp_count_loop]. destruct (Z.ltb_spec i n) as [Hin|Hin].
  2:{ exists c. rewrite (kmp_inv_final i j occ) by (done || lia). split; [done|lia]. }
  destruct (zlookup_is_Some pattern j) as [x Hx]; [lia|].
  destruct (zlookup_is_Some text i) as [y Hy]; [lia|].
  rewrite (getitem_Ok _ _ _ Hx), bind_Ok, (getitem_Ok _ _ _ Hy), bind_Ok.
  destruct (decide (x = y)) as [Heq|Hne].
  - assert (zlookup pattern j = zlookup text i) as Heq' by congruence.
    destruct (Z.eqb_spec (j + 1) m) as [Hjm|Hjm].
    + destruct (lps_lookup lps m m Hlps) as (j' & Hj' & Hr & Hb & Hmax); [lia|].
      replace (j + 1 - 1) with (m - 1) by lia.
      rewrite (getitem_Ok _ _ _ Hj'), bind_Ok.
      apply IH; [|lia|lia]. by apply kmp_step_found.
    + apply IH; [|lia|lia]. apply kmp_step_match; [done|done|done|lia].
  - assert (zlookup pattern j ≠ zlookup text i) as Hne' by congruence.
    destruct (Z.eqb_spec j 0) as [Hj0|Hj0]; cbn [negb].
    + subst j. apply IH; [|lia|lia]. by apply kmp_step_skip.
    + destruct (lps_lookup lps m j Hlps) as (j' & Hj' & Hr & Hb & Hmax); [lia|].
      rewrite (getitem_Ok _ _ _ Hj'), bind_Ok.
      apply IH; [|lia|lia]. apply (kmp_step_fallback i j j'); [done|done|done|lia|done..].
Qed.

Lemma kmp_loop_spec lps fuel i j occ :
  len lps = m → lps_correct lps m →
  kmp_inv i j occ → 2 * (n - i) + j + 1 ≤ Z.of_nat fuel →
  kmp_loop fuel text pattern n m lps i j occ = Ok occurrences.
Proof.
  intros Hl Hlps. revert i j occ.
  induction fuel as [|fuel IH]; intros i j occ Hinv Hfuel.
  { destruct Hinv as (? & ? & _). lia. }
  pose proof Hinv as (Hi & Hj & _).
  cbn [kmp_loop]. destruct (Z.ltb_spec i n) as [Hin|Hin].
  2:{ by rewrite (kmp_inv_final i j occ) by (done || lia). }
  destruct (zlookup_is_Some pattern j) as [x Hx]; [lia|].
  destruct (zlookup_is_Some text i) as [y Hy]; [lia|].
  rewrite (getitem_Ok _ _ _ Hx), bind_Ok, (getitem_Ok _ _ _ Hy), bind_Ok.
  (* the mismatch branch, from any state satisfying the invariant *)
  assert (∀ i j x y, kmp_inv i j occ → i < n →
            zlookup pattern j = Some x → zlookup text i = Some y → x ≠ y →
            2 * (n - i) + j ≤ Z.of_nat fuel →
            (if negb (j =? 0)
             then j0 ← getitem lps (j - 1); kmp_loop fuel text pattern n m lps i j0 occ
             else kmp_loop fuel text pattern n m lps (i + 1) j occ) = Ok occurrences)
    as Hmismatch.
  { clear dependent i. clear dependent x. clear dependent y. clear j Hj.
    intros i j x y Hinv Hin Hx Hy Hne Hfuel.
    pose proof Hinv as (Hi & Hj & _).
    assert (zlookup pattern j ≠ zlookup text i) as Hne' by congruence.
    destruct (Z.eqb_spec j 0) as [Hj0|Hj0]; cbn [negb].
    - subst j. apply IH; [|lia]. by apply kmp_step_skip.
    - destruct (lps_lookup lps m j Hlps) as (j' & Hj' & Hr & Hb & Hmax); [lia|].
      rewrite (getitem_Ok _ _ _ Hj'), bind_Ok.
      apply IH; [|lia]. apply (kmp_step_fallback i j j'); [done|done|done|lia|done..]. }
  destruct (decide (x = y)) as [Heq|Hne]; cbv beta iota zeta.
  - assert (zlookup pattern j = zlookup text i) as Heq' by congruence.
    destruct (Z.eqb_spec (j + 1) m) as [Hjm|Hjm].
    + destruct (lps_lookup lps m m Hlps) as (j' & Hj' & Hr & Hb & Hmax); [lia|].
      replace (j + 1 - 1) with (m - 1) by lia.
      rewrite (getitem_Ok _ _ _ Hj'), bind_Ok.
      apply IH; [|lia]. by apply kmp_step_found.
    + assert (kmp_inv (i + 1) (j + 1) occ) as Hinv'
        by (apply kmp_step_match; [done|done|done|lia]).
      destruct (Z.ltb_spec (i + 1) n) as [Hin'|Hin'].
      * destruct (zlookup_is_Some pattern (j + 1)) as [x' Hx']; [lia|].
        destruct (zlookup_is_Some text (i + 1)) as [y' Hy']; [lia|].
        rewrite (getitem_Ok _ _ _ Hx'), bind_Ok, (getitem_Ok _ _ _ Hy'), bind_Ok.
        rewrite bind_Ok. destruct (decide (x' = y')) as [Heq2|Hne2].
        -- rewrite bool_decide_eq_false_2 by (intros ?; done).
           apply IH; [done|lia].
        -- rewrite bool_decide_eq_true_2 by done.
           apply (Hmismatch (i + 1) (j + 1) x' y'); [done|lia|done|done|done|lia].
      * rewrite bind_Ok. apply IH; [done|lia].
  - destruct (Z.eqb_spec j m) as [Hjm|Hjm]; [lia|].
    destruct (Z.ltb_spec i n) as [_|?]; [|lia].
    rewrite (getitem_Ok _ _ _ Hx), bind_Ok, (getitem_Ok _ _ _ Hy), bind_Ok.
    rewrite bind_Ok. rewrite bool_decide_eq_true_2 by done.
    apply (Hmismatch i j x y); [done|done|done|done|done|lia].
Qed.

Lemma kmp_search_spec : 1 ≤ m → m ≤ n → kmp_search text pattern = Ok occurrences.
Proof.
  intros Hm Hfit. unfold kmp_search.
  destruct (Z.eqb_spec m 0) as [?|_]; [lia|].
  destruct (Z.ltb_spec n m) as [?|_]; [lia|].
  destruct (compute_lps_table_spec Hm) as (lps & -> & Hl & Hlps). rewrite bind_Ok.
  apply kmp_loop_spec; [done|done|by apply kmp_inv_init|lia].
Qed.

Lemma count_comparisons_kmp_spec :
  1 ≤ m → m ≤ n →
  ∃ c, count_comparisons_kmp text pattern = Ok (occurrences, c) ∧ 0 ≤ c ≤ 2 * n.
Proof.
  intros Hm Hfit. unfold count_comparisons_kmp.
  destruct (Z.eqb_spec m 0) as [?|_]; [lia|].
  destruct (Z.ltb_spec n m) as [?|_]; [lia|].
  cbn [orb].
  destruct (compute_lps_table_spec Hm) as (lps & -> & Hl & Hlps). rewrite bind_Ok.
  apply kmp_count_loop_spec; [done|done|by apply kmp_inv_init|lia|lia].
Qed.

(** *** The reference search *)

Lemma range_split a b c : a ≤ b → b ≤ c → range a c = range a b ++ range b c.
Proof.
  intros Hab Hbc. unfold range.
  replace (c - a) with ((b - a) + (c - b)) by lia.
  rewrite seqZ_app by lia. do 2 f_equal; lia.
Qed.

Lemma find_range (p : Z → bool) a b :
  a ≤ b →
  match List.find p (range a b) with
  | Some idx => a ≤ idx < b ∧ p idx = true ∧ List.filter p (range a idx) = []
  | None => List.filter p (range a b) = []
  end.
Proof.
  intros Hab. remember (Z.to_nat (b - a)) as d eqn:Hd.
  revert a Hab Hd. induction d as [|d IH]; intros a Hab Hd.
  - by rewrite range_nil by lia.
  - rewrite range_cons by lia. simpl. destruct (p a) eqn:Hp.
    + split; [lia|]. split; [done|]. by rewrite range_nil by lia.
    + specialize (IH (a + 1) ltac:(lia) ltac:(lia)).
      destruct (List.find p (range (a + 1) b)) as [idx|]; [|done].
      destruct IH as (Hidx & Hpidx & Hnone). split; [lia|]. split; [done|].
      rewrite range_cons by lia. simpl. by rewrite Hp.
Qed.

Lemma str_find_spec start :
  0 ≤ start ≤ n - m + 1 →
  let idx := str_find text pattern start in
  (idx = -1 ∧ occurrences = occurrences_below start) ∨
  (start ≤ idx < n - m + 1 ∧ occurrences_below (idx + 1) = occurrences_below start ++ [idx]).
Proof.
  intros Hs. unfold str_find.
  assert ((start <? 0) = false) as -> by lia.
  pose proof (find_range occurs_at start (n - m + 1) ltac:(lia)) as Hfind.
  unfold occurs_at at 1 in Hfind.
  destruct (List.find _ (range start (n - m + 1))) as [idx|]; simpl.
  - right. destruct Hfind as (Hidx & Hocc & Hnone). split; [done|].
    unfold occurrences_below.
    rewrite (range_split 0 start (idx + 1)) by lia.
    rewrite (range_split start idx (idx + 1)) by lia.
    rewrite !List.filter_app, Hnone. rewrite (range_cons idx) by lia.
    rewrite (range_nil (idx + 1)) by lia. simpl. by rewrite Hocc.
  - left. split; [done|]. unfold occurrences, occurrences_below.
    rewrite (range_split 0 start (n - m + 1)) by lia.
    by rewrite List.filter_app, Hfind, app_nil_r.
Qed.

Lemma native_loop_spec fuel start :
  0 ≤ start ≤ n - m + 1 → n - m + 1 - start < Z.of_nat fuel →
  native_loop fuel text pattern (occurrences_below start) start = Ok occurrences.
Proof.
  revert start. induction fuel as [|fuel IH]; intros start Hs Hfuel; [lia|].
  cbn [native_loop].
  destruct (str_find_spec start Hs) as [[-> Hocc]|[Hidx Hocc]].
  - simpl. by rewrite Hocc.
  - destruct (Z.eqb_spec (str_find text pattern start) (-1)) as [E|_]; [lia|].
    rewrite <- Hocc. apply IH; lia.
Qed.

Lemma native_search_spec : m ≤ n → native_search text pattern = Ok occurrences.
Proof.
  intros Hfit. pose proof (len_nonneg pattern). unfold native_search.
  rewrite <- (occurrences_below_nil 0) by lia.
  apply native_loop_spec; lia.
Qed.

(** *** The good-suffix table *)

(** [sborder i j]: the suffix of the pattern that starts at [j] is also a
    prefix of the suffix that starts at [i],
    [pattern[j:] == pattern[i:i + m - j]] with [i < j]; [j = m + 1] is the
    end of every chain of such borders. *)
Definition sborder (i j : Z) : Prop :=
  0 ≤ i < j ∧ j ≤ m + 1 ∧
  ∀ t, 0 ≤ t < m - j → zlookup pattern (i + t) = zlookup pattern (j + t).

(** [strong i j]: the suffix at [j] recurs at [i], preceded by another symbol. *)
Definition strong (i j : Z) : Prop :=
  1 ≤ i ∧ j ≤ m ∧ sborder i j ∧ zlookup pattern (i - 1) ≠ zlookup pattern (j - 1).

Lemma sborder_end i : 0 ≤ i ≤ m → sborder i (m + 1).
Proof. intros. split; [lia|]. split; [lia|]. intros; lia. Qed.

Lemma sborder_empty i : 0 ≤ i < m → sborder i m.
Proof. intros. split; [lia|]. split; [lia|]. intros; lia. Qed.

Lemma sborder_trans i j k : sborder i j → sborder j k → sborder i k.
Proof.
  intros (Hi & Hj & Hij) (Hj' & Hk & Hjk). split; [lia|]. split; [done|].
  intros t Ht. rewrite (Hij t) by lia. apply Hjk. lia.
Qed.

Lemma sborder_between i j k : sborder i j → sborder i k → j < k → sborder j k.
Proof.
  intros (Hi & Hj & Hij) (Hi' & Hk & Hik) Hlt. split; [lia|]. split; [done|].
  intros t Ht. rewrite <- (Hij t) by lia. apply Hik. lia.
Qed.

Lemma sborder_pred i j :
  1 ≤ i → j ≤ m + 1 → sborder (i - 1) (j - 1) →
  sborder i j ∧ (j ≤ m → zlookup pattern (i - 1) = zlookup pattern (j - 1)).
Proof.
  intros Hi Hj (Hij & _ & Hb). split.
  - split; [lia|]. split; [done|]. intros t Ht.
    replace (i + t) with (i - 1 + (t + 1)) by lia.
    replace (j + t) with (j - 1 + (t + 1)) by lia. apply Hb. lia.
  - intros Hjm. specialize (Hb 0 ltac:(lia)). by rewrite !Z.add_0_r in Hb.
Qed.

Lemma sborder_succ i j :
  1 ≤ i → sborder i j →
  (j ≤ m → zlookup pattern (i - 1) = zlookup pattern (j - 1)) →
  sborder (i - 1) (j - 1).
Proof.
  intros Hi (Hij & Hj & Hb) Heq. split; [lia|]. split; [lia|].
  intros t Ht. destruct (decide (t = 0)) as [->|Hne].
  - rewrite !Z.add_0_r. apply Heq. lia.
  - replace (i - 1 + t) with (i + (t - 1)) by lia.
    replace (j - 1 + t) with (j + (t - 1)) by lia. apply Hb. lia.
Qed.

(** The entries [border[i..m]] hold the start of the widest border. *)
Definition border_correct (border : list Z) (i : Z) : Prop :=
  len border = m + 1 ∧
  ∀ k, i ≤ k ≤ m →
    ∃ j, zlookup border k = Some j ∧ sborder k j ∧ ∀ j', sborder k j' → j ≤ j'.

(** An entry of [shift] is still [m], or was stored by the first phase while
    the outer index was at least [i]. *)
Definition shift_ok (shift : list Z) (i : Z) : Prop :=
  len shift = m ∧
  ∀ q, 0 ≤ q < m →
    ∃ v, zlookup shift q = Some v ∧ (v = m ∨ (1 ≤ v ≤ q ∧ v ≤ q + 1 - i)).

Definition covered (shift : list Z) (i j : Z) : Prop :=
  ∃ v, zlookup shift (j - 1) = Some v ∧ v ≤ j - i.

(** Every strong recurrence at [i0] or further right has its shift stored. *)
Definition covers (shift : list Z) (i0 : Z) : Prop :=
  ∀ i j, i0 ≤ i → strong i j → covered shift i j.

Lemma shift_ok_mono shift i i' : shift_ok shift i → i' ≤ i → shift_ok shift i'.
Proof.
  intros [Hl Hs] Hi. split; [done|]. intros q Hq.
  destruct (Hs q Hq) as (v & Hv & Hb). exists v. split; [done|]. lia.
Qed.

(** The conditional store [if shift[j - 1] == m: shift[j - 1] = j - i]. *)
Lemma shift_store shift i j v :
  shift_ok shift i → 1 ≤ i < j → j ≤ m → zlookup shift (j - 1) = Some v →
  ∃ shift',
    (if v =? m then setitem shift (j - 1) (j - i) else Ok shift) = Ok shift' ∧
    shift_ok shift' i ∧ covered shift' i j ∧
    ∀ i1 j1, 1 ≤ i1 → j1 ≤ m → covered shift i1 j1 → covered shift' i1 j1.
Proof.
  intros [Hl Hs] Hi Hj Hv. destruct (Z.eqb_spec v m) as [->|Hne].
  - rewrite setitem_Ok by lia. eexists; split; [done|]. split; [|split].
    + split; [by rewrite len_insert|]. intros q Hq.
      destruct (decide (q = j - 1)) as [->|Hq'].
      * exists (j - i). rewrite zlookup_insert_eq by lia. split; [done|]. lia.
      * rewrite zlookup_insert_ne by lia. by apply Hs.
    + exists (j - i). rewrite zlookup_insert_eq by lia. split; [done|lia].
    + intros i1 j1 Hi1 Hj1 (v1 & Hv1 & Hle). exists v1. split; [|done].
      destruct (decide (j1 = j)) as [->|Hj1'].
      * rewrite Hv in Hv1. injection Hv1 as <-. lia.
      * by rewrite zlookup_insert_ne by lia.
  - exists shift. split; [done|]. split; [by split|]. split; [|done].
    exists v. split; [done|]. destruct (Hs (j - 1)) as (v' & Hv' & Hb); [lia|].
    rewrite Hv in Hv'. injection Hv' as <-. lia.
Qed.

Definition inner_inv (i : Z) (shift : list Z) (j : Z) : Prop :=
  shift_ok shift i ∧ sborder i j ∧
  (∀ j', i < j' < j → j' ≤ m → sborder i j' →
         zlookup pattern (i - 1) ≠ zlookup pattern (j' - 1)) ∧
  covers shift (i + 1) ∧
  (∀ j', j' < j → strong i j' → covered shift i j').

(** What holds when the inner loop stops at [j]. *)
Lemma border_inner_exit i shift j :
  1 ≤ i ≤ m → inner_inv i shift j →
  (j ≤ m → zlookup pattern (i - 1) = zlookup pattern (j - 1)) →
  shift_ok shift i ∧ sborder (i - 1) (j - 1) ∧
  (∀ j'', sborder (i - 1) j'' → j - 1 ≤ j'') ∧ covers shift i.
Proof.
  intros Hi (Hok & Hb & Hvis & Hcov & Hcur) Heq.
  split; [done|]. split; [by apply sborder_succ; [lia|..]|]. split.
  - intros j'' Hj''. destruct (decide (j - 1 ≤ j'')); [done|]. exfalso.
    assert (j'' + 1 ≤ m + 1) as Hle by (destruct Hb as (_ & ? & _); lia).
    replace j'' with (j'' + 1 - 1) in Hj'' by lia.
    apply sborder_pred in Hj'' as [Hb' Heq']; [|lia|lia].
    assert (j'' + 1 ≤ m) as Hle' by (destruct Hb as (_ & ? & _); lia).
    apply (Hvis (j'' + 1)); [destruct Hb'; lia|done|done|by apply Heq'].
  - intros i1 j1 Hi1 Hst. destruct (decide (i1 = i)) as [->|Hne].
    2:{ apply Hcov; [lia|done]. }
    destruct (Z.lt_trichotomy j1 j) as [Hlt|[->|Hgt]].
    + by apply Hcur.
    + destruct Hst as (_ & Hjm & _ & Hne). exfalso. apply Hne. by apply Heq.
    + destruct Hst as (_ & Hjm & Hb1 & Hne).
      assert (strong j j1) as Hst'.
      { split; [destruct Hb; lia|]. split; [done|].
        split; [by apply (sborder_between i j j1)|]. rewrite <- Heq by lia. done. }
      destruct (Hcov j j1) as (v & Hv & Hle); [destruct Hb; lia|done|].
      exists v. split; [done|]. destruct Hb. lia.
Qed.

Lemma border_inner_spec border i fuel shift j :
  1 ≤ i ≤ m → border_correct border i → inner_inv i shift j →
  m + 2 - j ≤ Z.of_nat fuel →
  ∃ shift' j',
    border_inner fuel pattern m i border shift j = Ok (shift', j') ∧
    shift_ok shift' i ∧ sborder (i - 1) (j' - 1) ∧
    (∀ j'', sborder (i - 1) j'' → j' - 1 ≤ j'') ∧ covers shift' i.
Proof.
  intros Hi Hbc. revert shift j.
  induction fuel as [|fuel IH]; intros shift j Hinv Hfuel.
  { destruct Hinv as (_ & (_ & ? & _) & _). lia. }
  pose proof Hinv as (Hok & Hb & Hvis & Hcov & Hcur).
  pose proof Hb as (Hij & Hjm & _).
  cbn [border_inner]. destruct (Z.leb_spec j m) as [Hle|Hgt].
  2:{ rewrite bind_Ok. exists shift, j. split; [done|].
      apply border_inner_exit; [done|done|lia]. }
  destruct (zlookup_is_Some pattern (i - 1)) as [x Hx]; [lia|].
  destruct (zlookup_is_Some pattern (j - 1)) as [y Hy]; [lia|].
  rewrite (getitem_Ok _ _ _ Hx), bind_Ok, (getitem_Ok _ _ _ Hy), bind_Ok.
  rewrite bind_Ok. destruct (decide (x = y)) as [Heq|Hne].
  { rewrite bool_decide_eq_false_2 by (intros ?; done).
    exists shift, j. split; [done|].
    apply border_inner_exit; [done|done|]. intros _. congruence. }
  rewrite bool_decide_eq_true_2 by done.
  assert (zlookup pattern (i - 1) ≠ zlookup pattern (j - 1)) as Hne' by congruence.
  destruct Hok as [Hl Hs]. destruct (Hs (j - 1)) as (v & Hv & _); [lia|].
  rewrite (getitem_Ok _ _ _ Hv), bind_Ok.
  destruct (shift_store shift i j v) as (shift' & -> & Hok' & Hcovj & Hkeep);
    [by split|lia|done|done|].
  rewrite bind_Ok.
  destruct Hbc as [Hlb Hbc]. destruct (Hbc j) as (j1 & Hj1 & Hb1 & Hmin1); [lia|].
  rewrite (getitem_Ok _ _ _ Hj1), bind_Ok.
  apply IH; [|destruct Hb1; lia].
  split; [done|]. split; [by apply (sborder_trans i j j1)|]. split; [|split].
  - intros j' Hj' Hj'm Hb'. destruct (Z.lt_trichotomy j' j) as [Hlt|[->|Hgt]].
    + apply Hvis; [lia|done|done].
    + done.
    + exfalso. assert (j1 ≤ j'); [|lia]. apply Hmin1.
      by apply (sborder_between i j j').
  - intros i1 j1' Hi1 Hst. pose proof Hst as (? & ? & _).
    apply Hkeep; [lia|done|]. by apply Hcov.
  - intros j' Hj' Hst. pose proof Hst as (? & ? & Hb' & _).
    destruct (Z.lt_trichotomy j' j) as [Hlt|[->|Hgt]].
    + apply Hkeep; [lia|done|]. by apply Hcur.
    + done.
    + exfalso. assert (j1 ≤ j'); [|lia]. apply Hmin1.
      by apply (sborder_between i j j').
Qed.

Definition outer_inv (shift border : list Z) (i j : Z) : Prop :=
  0 ≤ i ≤ m ∧ border_correct border i ∧ sborder i j ∧
  (∀ j', sborder i j' → j ≤ j') ∧ shift_ok shift i ∧ covers shift (i + 1).

Lemma border_outer_spec fuel shift border i j :
  outer_inv shift border i j → i < Z.of_nat fuel →
  ∃ shift' border',
    border_outer fuel pattern m shift border i j = Ok (shift', border') ∧
    border_correct border' 0 ∧ shift_ok shift' 0 ∧ covers shift' 1.
Proof.
  revert shift border i j.
  induction fuel as [|fuel IH]; intros shift border i j Hinv Hfuel.
  { destruct Hinv as (? & _). lia. }
  destruct Hinv as (Hi & Hbc & Hb & Hmin & Hok & Hcov).
  cbn [border_outer]. destruct (Z.ltb_spec 0 i) as [Hpos|Hzero].
  2:{ assert (i = 0) as -> by lia. exists shift, border. done. }
  destruct (border_inner_spec border i (Z.to_nat (m + 2)) shift j)
    as (shift' & j' & -> & Hok' & Hb' & Hmin' & Hcov'); [lia|done| |destruct Hb; lia|].
  { split; [done|]. split; [done|]. split; [|split].
    - intros j' Hj' _ Hbj'. specialize (Hmin _ Hbj'). lia.
    - done.
    - intros j' Hj' (_ & _ & Hbj' & _). specialize (Hmin _ Hbj'). lia. }
  rewrite bind_Ok. destruct Hbc as [Hlb Hbc].
  rewrite setitem_Ok by lia. rewrite bind_Ok.
  apply IH; [|lia].
  split; [lia|]. split; [|split; [done|split; [done|split]]].
  - split; [by rewrite len_insert|]. intros k Hk.
    destruct (decide (k = i - 1)) as [->|Hne].
    + exists (j' - 1). rewrite zlookup_insert_eq by lia. done.
    + rewrite zlookup_insert_ne by lia. apply Hbc. lia.
  - apply (shift_ok_mono shift' i); [done|lia].
  - by replace (i - 1 + 1) with i by lia.
Qed.

(** *** The second phase and the finished table *)

(** [v] does not exceed any shift [k > q] that aligns a prefix of the pattern
    with a suffix of it. *)
Definition safe_weak (q v : Z) : Prop := ∀ k, sborder 0 k → q < k → v ≤ k.

Definition prefix_inv (border : list Z) (i : Z) (st : list Z * Z) : Prop :=
  len st.1 = m ∧ sborder 0 st.2 ∧ 1 ≤ st.2 ≤ m ∧ i ≤ st.2 ∧
  (∀ k, sborder 0 k → i ≤ k → st.2 ≤ k) ∧
  covers st.1 1 ∧
  ∀ q, 0 ≤ q < m →
    ∃ v, zlookup st.1 q = Some v ∧
         ((q < i ∧ 1 ≤ v ∧ safe_weak q v) ∨ (i ≤ q ∧ (v = m ∨ 1 ≤ v ≤ q))).

Lemma prefix_step_spec border i st :
  border_correct border 0 → 0 ≤ i < m → prefix_inv border i st →
  ∃ st', prefix_step m border st i = Ok st' ∧ prefix_inv border (i + 1) st'.
Proof.
  intros [Hlb Hbc] Hi. destruct st as [shift j]. unfold prefix_inv. cbn [fst snd].
  intros (Hl & Hb & Hj & Hij & Hmin & Hcov & Hs).
  unfold prefix_step.
  destruct (Hs i Hi) as (v & Hv & Hvb).
  rewrite (getitem_Ok _ _ _ Hv), bind_Ok.
  (* the conditional store *)
  assert (∃ shift',
    (if v =? m then setitem shift i j else Ok shift) = Ok shift' ∧
    len shift' = m ∧ covers shift' 1 ∧
    ∀ q, 0 ≤ q < m →
      ∃ v, zlookup shift' q = Some v ∧
           ((q < i + 1 ∧ 1 ≤ v ∧ safe_weak q v) ∨ (i + 1 ≤ q ∧ (v = m ∨ 1 ≤ v ≤ q))))
    as (shift' & -> & Hl' & Hcov' & Hs').
  { destruct Hvb as [[? _]|[_ Hvb]]; [lia|].
    destruct (Z.eqb_spec v m) as [->|Hne].
    - rewrite setitem_Ok by lia. eexists; split; [done|].
      split; [by rewrite len_insert|]. split.
      + intros i1 j1 Hi1 Hst. destruct (Hcov i1 j1 Hi1 Hst) as (v1 & Hv1 & Hle).
        exists v1. split; [|done]. destruct Hst as (? & ? & _).
        destruct (decide (j1 - 1 = i)) as [Heq|Hne].
        * rewrite Heq, Hv in Hv1. injection Hv1 as <-. lia.
        * by rewrite zlookup_insert_ne by lia.
      + intros q Hq. destruct (decide (q = i)) as [->|Hne].
        * exists j. rewrite zlookup_insert_eq by lia. split; [done|]. left.
          split; [lia|]. split; [lia|]. intros k Hk Hik. apply Hmin; [done|lia].
        * rewrite zlookup_insert_ne by lia. destruct (Hs q Hq) as (v' & Hv' & Hb').
          exists v'. split; [done|]. destruct Hb' as [?|[? ?]]; [left; intuition lia|].
          right. split; [lia|done].
    - exists shift. split; [done|]. split; [done|]. split; [done|].
      intros q Hq. destruct (decide (q = i)) as [->|Hne'].
      + exists v. split; [done|]. left. split; [lia|]. split; [lia|].
        intros k Hk Hik. lia.
      + destruct (Hs q Hq) as (v' & Hv' & Hb').
        exists v'. split; [done|]. destruct Hb' as [?|[? ?]]; [left; intuition lia|].
        right. split; [lia|done]. }
  rewrite bind_Ok. destruct (Z.eqb_spec i j) as [Heq|Hne].
  - subst j. destruct (Hbc i) as (j1 & Hj1 & Hb1 & Hmin1); [lia|].
    rewrite (getitem_Ok _ _ _ Hj1), bind_Ok. eexists; split; [done|].
    cbn [fst snd]. split; [done|].
    assert (j1 ≤ m) as Hj1m by (apply Hmin1, sborder_empty; lia).
    split; [by apply (sborder_trans 0 i j1)|]. split; [destruct Hb1; lia|].
    split; [destruct Hb1; lia|]. split; [|done].
    intros k Hk Hik. apply Hmin1. apply (sborder_between 0 i k); [done|done|lia].
  - eexists; split; [done|]. cbn [fst snd]. split; [done|]. split; [done|].
    split; [done|]. split; [lia|]. split; [|done].
    intros k Hk Hik. apply Hmin; [done|lia].
Qed.

(** The finished table: every entry is a positive shift that skips no
    alignment compatible with a mismatch at its index. *)
Definition good_suffix_spec (shift : list Z) : Prop :=
  len shift = m ∧
  ∀ q, 0 ≤ q < m →
    ∃ v, zlookup shift q = Some v ∧ 1 ≤ v ∧ safe_weak q v ∧
         ∀ i, strong i (q + 1) → v ≤ q + 1 - i.

Lemma good_suffix_table_spec :
  1 ≤ m →
  ∃ shift, good_suffix_table pattern = Ok shift ∧ good_suffix_spec shift.
Proof.
  intros Hm. unfold good_suffix_table.
  rewrite setitem_Ok by (rewrite len_repeat_list; lia). rewrite bind_Ok.
  destruct (border_outer_spec (Z.to_nat (m + 1)) (repeat_list m m)
              (<[Z.to_nat m := m + 1]> (repeat_list 0 (m + 1))) m (m + 1))
    as (shift & border & -> & Hbc & Hok & Hcov); [|lia|].
  { split; [lia|]. split; [|split; [|split; [|split]]].
    - split; [rewrite len_insert; apply len_repeat_list; lia|].
      intros k Hk. assert (k = m) as -> by lia. exists (m + 1).
      rewrite zlookup_insert_eq by (rewrite len_repeat_list; lia).
      split; [done|]. split; [apply sborder_end; lia|]. intros j' (? & _). lia.
    - apply sborder_end. lia.
    - intros j' (? & _). lia.
    - split; [apply len_repeat_list; lia|]. intros q Hq. exists m.
      rewrite zlookup_repeat_list by lia. split; [done|]. by left.
    - intros i j Hi (_ & _ & (? & ? & _) & _). lia. }
  rewrite bind_Ok. pose proof Hbc as [Hlb Hbc'].
  destruct (Hbc' 0) as (j0 & Hj0 & Hb0 & Hmin0); [lia|].
  rewrite (getitem_Ok _ _ _ Hj0), bind_Ok.
  destruct (foldM_range_inv (prefix_step m border) (prefix_inv border) 0 m (shift, j0))
    as ([shift' j'] & -> & Hfin); [lia| | |].
  { unfold prefix_inv. cbn [fst snd]. destruct Hok as [Hl Hs].
    split; [done|]. split; [done|].
    assert (j0 ≤ m) by (apply Hmin0, sborder_empty; lia).
    split; [destruct Hb0; lia|]. split; [destruct Hb0; lia|].
    split; [intros k Hk _; by apply Hmin0|]. split; [done|].
    intros q Hq. destruct (Hs q Hq) as (v & Hv & Hb). exists v. split; [done|].
    right. split; [lia|]. lia. }
  { intros k st Hk Hinv. by apply prefix_step_spec. }
  rewrite bind_Ok. exists shift'. split; [done|].
  unfold prefix_inv in Hfin. cbn [fst snd] in Hfin.
  destruct Hfin as (Hl & _ & _ & _ & _ & Hcov' & Hs).
  split; [done|]. intros q Hq. destruct (Hs q Hq) as (v & Hv & Hb).
  exists v. split; [done|]. destruct Hb as [(_ & Hv1 & Hsafe)|[? _]]; [|lia].
  split; [done|]. split; [done|].
  intros i Hst. destruct (Hcov' i (q + 1)) as (v' & Hv' & Hle); [destruct Hst; lia|done|].
  replace (q + 1 - 1) with q in Hv' by lia. rewrite Hv in Hv'. injection Hv' as <-. lia.
Qed.

(** *** The bad-character table *)

(** [bad_char.get(c, -1)] is at least the index of every occurrence of [c]. *)
Definition bad_char_spec (bad_char : gmap Σ Z) : Prop :=
  ∀ c, -1 ≤ dict_get bad_char c (-1) ∧
       ∀ t, zlookup pattern t = Some c → t ≤ dict_get bad_char c (-1).

Lemma dict_get_insert (d : gmap Σ Z) c c' v :
  dict_get (<[c := v]> d) c' (-1) = if decide (c = c') then v else dict_get d c' (-1).
Proof.
  unfold dict_get. destruct (decide (c = c')) as [->|Hne].
  - by rewrite lookup_insert_eq.
  - by rewrite lookup_insert_ne.
Qed.

Lemma bad_character_table_spec :
  ∃ bad_char, bad_character_table pattern = Ok bad_char ∧ bad_char_spec bad_char.
Proof.
  pose proof (len_nonneg pattern). unfold bad_character_table.
  destruct (foldM_range_inv
              (λ (bad_char : gmap Σ Z) i, c ← getitem pattern i; Ok (<[c := i]> bad_char))
              (λ k bad_char, ∀ c, -1 ≤ dict_get bad_char c (-1) ∧
                 ∀ t, 0 ≤ t < k → zlookup pattern t = Some c → t ≤ dict_get bad_char c (-1))
              0 m ∅) as (bad_char & -> & Hbc); [lia| | |].
  - intros c. unfold dict_get. rewrite lookup_empty. simpl. split; [lia|]. intros; lia.
  - intros k bc Hk Hinv. destruct (zlookup_is_Some pattern k) as [ck Hck]; [lia|].
    rewrite (getitem_Ok _ _ _ Hck), bind_Ok. eexists; split; [done|].
    intros c. rewrite dict_get_insert. destruct (Hinv c) as [Hge Hocc].
    destruct (decide (ck = c)) as [->|Hne].
    + split; [lia|]. intros; lia.
    + split; [done|]. intros t Ht Hc. apply Hocc; [|done].
      destruct (decide (t = k)) as [->|?]; [congruence|lia].
  - exists bad_char. split; [done|]. intros c. destruct (Hbc c) as [Hge Hocc].
    split; [done|]. intros t Ht. apply Hocc; [|done]. by apply zlookup_Some_range in Ht.
Qed.

(** *** The Boyer-Moore scan *)

(** The window at [s] agrees with the pattern to the right of index [j]. *)
Definition suffix_matched (s j : Z) : Prop :=
  ∀ t, j < t < m → zlookup pattern t = zlookup text (s + t).

Lemma tmatch_window s :
  tmatch m (s + m) ↔ 0 ≤ s ∧ s + m ≤ n ∧ suffix_matched s (-1).
Proof.
  pose proof (len_nonneg pattern). split.
  - intros (Hs & _ & Hn & Hb). split; [lia|]. split; [done|].
    intros t Ht. rewrite (Hb t) by lia. f_equal; lia.
  - intros (Hs & Hn & Hb). split; [lia|]. split; [lia|]. split; [done|].
    intros t Ht. rewrite (Hb t) by lia. f_equal; lia.
Qed.

Lemma occurrences_below_skip a b :
  1 ≤ m → a ≤ b → (∀ e, a ≤ e < b → ¬ tmatch m (e + m)) →
  occurrences_below b = occurrences_below a.
Proof.
  intros Hm Hab Hnone.
  replace b with (a + Z.of_nat (Z.to_nat (b - a))) in * by lia.
  induction (Z.to_nat (b - a)) as [|d IH]; [f_equal; lia|].
  rewrite <- IH; [|lia|intros e He; apply Hnone; lia].
  replace (a + Z.of_nat (S d)) with (a + Z.of_nat d + 1) by lia.
  apply occurrences_below_miss; [done|]. apply Hnone. lia.
Qed.

Lemma bm_compare_spec s fuel j :
  0 ≤ s → s + m ≤ n → -1 ≤ j < m → j + 1 < Z.of_nat fuel → suffix_matched s j →
  ∃ j', bm_compare fuel text pattern s j = Ok j' ∧ -1 ≤ j' ≤ j ∧
        suffix_matched s j' ∧
        (0 ≤ j' → zlookup pattern j' ≠ zlookup text (s + j')).
Proof.
  intros Hs Hfit. revert j. induction fuel as [|fuel IH]; intros j Hj Hfuel Hsuf; [lia|].
  cbn [bm_compare]. destruct (Z.leb_spec 0 j) as [Hpos|Hneg].
  2:{ rewrite bind_Ok. exists j. split; [done|]. split; [lia|]. split; [done|lia]. }
  destruct (zlookup_is_Some pattern j) as [x Hx]; [lia|].
  destruct (zlookup_is_Some text (s + j)) as [y Hy]; [lia|].
  rewrite (getitem_Ok _ _ _ Hx), bind_Ok, (getitem_Ok _ _ _ Hy), bind_Ok.
  rewrite bind_Ok. destruct (decide (x = y)) as [Heq|Hne].
  - rewrite bool_decide_eq_true_2 by done.
    destruct (IH (j - 1)) as (j' & -> & Hj' & Hsuf' & Hmis); [lia|lia| |].
    { intros t Ht. destruct (decide (t = j)) as [->|?]; [congruence|].
      apply Hsuf. lia. }
    exists j'. split; [done|]. split; [lia|done].
  - rewrite bool_decide_eq_false_2 by done.
    exists j. split; [done|]. split; [lia|]. split; [done|]. intros _. congruence.
Qed.

Lemma bm_count_compare_spec s fuel j (c : Z) :
  0 ≤ s → s + m ≤ n → -1 ≤ j < m → j + 1 < Z.of_nat fuel → suffix_matched s j →
  ∃ j' c', bm_count_compare fuel text pattern s j c = Ok (j', c') ∧ -1 ≤ j' ≤ j ∧
           suffix_matched s j' ∧
           (0 ≤ j' → zlookup pattern j' ≠ zlookup text (s + j')) ∧ c ≤ c'.
Proof.
  intros Hs Hfit. revert j c.
  induction fuel as [|fuel IH]; intros j c Hj Hfuel Hsuf; [lia|].
  cbn [bm_count_compare]. destruct (Z.leb_spec 0 j) as [Hpos|Hneg].
  2:{ exists j, c. split; [done|]. split; [lia|]. split; [done|]. split; lia. }
  destruct (zlookup_is_Some pattern j) as [x Hx]; [lia|].
  destruct (zlookup_is_Some text (s + j)) as [y Hy]; [lia|].
  rewrite (getitem_Ok _ _ _ Hx), bind_Ok, (getitem_Ok _ _ _ Hy), bind_Ok.
  destruct (decide (x ≠ y)) as [Hne|Heq].
  - exists j, (c + 1). split; [done|]. split; [lia|]. split; [done|].
    split; [|lia]. intros _. congruence.
  - assert (x = y) as -> by (by destruct (decide (x = y))).
    destruct (IH (j - 1) (c + 1)) as (j' & c' & -> & Hj' & Hsuf' & Hmis & Hc);
      [lia|lia| |].
    { intros t Ht. destruct (decide (t = j)) as [->|?]; [congruence|].
      apply Hsuf. lia. }
    exists j', c'. split; [done|]. split; [lia|]. split; [done|]. split; [done|lia].
Qed.

(** An occurrence [k] positions to the right of a window whose suffix beyond
    [j] matched aligns a prefix of the pattern with a suffix of it. *)
Lemma weak_from_occurrence s j k :
  suffix_matched s j → tmatch m (s + k + m) → j < k → 1 ≤ k ≤ m + 1 → sborder 0 k.
Proof.
  intros Hsuf (_ & _ & _ & Hocc) Hjk Hk. split; [lia|]. split; [lia|].
  intros t Ht. rewrite Z.add_0_l.
  rewrite (Hocc t) by lia. rewrite (Hsuf (k + t)) by lia. f_equal; lia.
Qed.

Lemma strong_from_occurrence s j k :
  suffix_matched s j → 0 ≤ j < m → zlookup pattern j ≠ zlookup text (s + j) →
  tmatch m (s + k + m) → 1 ≤ k ≤ j → strong (j + 1 - k) (j + 1).
Proof.
  intros Hsuf Hj Hmis (_ & _ & _ & Hocc) Hk.
  split; [lia|]. split; [lia|]. split.
  - split; [lia|]. split; [lia|]. intros t Ht.
    rewrite (Hocc (j + 1 - k + t)) by lia. rewrite (Hsuf (j + 1 + t)) by lia.
    f_equal; lia.
  - replace (j + 1 - k - 1) with (j - k) by lia. replace (j + 1 - 1) with j by lia.
    rewrite (Hocc (j - k)) by lia. intros Heq. apply Hmis. rewrite <- Heq. f_equal; lia.
Qed.

Lemma good_suffix_le_m shift q :
  good_suffix_spec shift → 0 ≤ q < m →
  ∃ v, zlookup shift q = Some v ∧ 1 ≤ v ≤ m ∧ safe_weak q v ∧
       ∀ i, strong i (q + 1) → v ≤ q + 1 - i.
Proof.
  intros [Hl Hs] Hq. destruct (Hs q Hq) as (v & Hv & Hv1 & Hsafe & Hstrong).
  exists v. split; [done|]. split; [|done].
  split; [done|]. apply Hsafe; [apply sborder_empty; lia|lia].
Qed.

Lemma bm_advance_spec bad_char good_suffix s j :
  bad_char_spec bad_char → good_suffix_spec good_suffix →
  1 ≤ m → 0 ≤ s → s + m ≤ n → -1 ≤ j < m →
  suffix_matched s j → (0 ≤ j → zlookup pattern j ≠ zlookup text (s + j)) →
  ∃ step, bm_advance text n m bad_char good_suffix s j = Ok step ∧ 1 ≤ step ∧
          ∀ k, 1 ≤ k < step → ¬ tmatch m (s + k + m).
Proof.
  intros Hbc Hgs Hm Hs Hfit Hj Hsuf Hmis. unfold bm_advance.
  destruct (Z.ltb_spec j 0) as [Hneg|Hpos].
  - destruct (Z.ltb_spec (s + m) n) as [Hmore|Hlast].
    2:{ exists 1. split; [done|]. split; [lia|]. intros; lia. }
    destruct (good_suffix_le_m good_suffix 0 Hgs) as (v & Hv & Hv1 & Hsafe & _); [lia|].
    rewrite (getitem_Ok _ _ _ Hv). exists v. split; [done|]. split; [lia|].
    intros k Hk Hocc. assert (v ≤ k); [|lia].
    apply Hsafe; [|lia]. apply (weak_from_occurrence s j k); [done|done|lia|lia].
  - destruct (zlookup_is_Some text (s + j)) as [c Hc]; [lia|].
    rewrite (getitem_Ok _ _ _ Hc), bind_Ok.
    destruct (good_suffix_le_m good_suffix j Hgs) as (v & Hv & Hv1 & Hsafe & Hstrong); [lia|].
    rewrite (getitem_Ok _ _ _ Hv), bind_Ok.
    eexists; split; [done|]. split; [lia|].
    intros k Hk Hocc. destruct (Hbc c) as [Hge Hright].
    assert (v ≤ k) as Hvk.
    { destruct (decide (k ≤ j)) as [Hkj|Hkj].
      - pose proof (Hstrong (j + 1 - k)
          (strong_from_occurrence s j k Hsuf ltac:(lia) (Hmis Hpos) Hocc ltac:(lia))).
        lia.
      - destruct (decide (k ≤ m + 1)); [|lia].
        apply Hsafe; [|lia]. apply (weak_from_occurrence s j k); [done|done|lia|lia]. }
    assert (j - dict_get bad_char c (-1) ≤ k) as Hbk.
    { destruct (decide (k ≤ j)) as [Hkj|Hkj]; [|lia].
      assert (j - k ≤ dict_get bad_char c (-1)); [|lia]. apply Hright.
      destruct Hocc as (_ & _ & _ & Hocc). rewrite (Hocc (j - k)) by lia.
      rewrite <- Hc. f_equal; lia. }
    lia.
Qed.

(** One iteration of the scan keeps [matches = occurrences_below shift_amount]. *)
Lemma bm_iteration bad_char good_suffix s j :
  bad_char_spec bad_char → good_suffix_spec good_suffix →
  1 ≤ m → 0 ≤ s → s + m ≤ n → -1 ≤ j < m →
  suffix_matched s j → (0 ≤ j → zlookup pattern j ≠ zlookup text (s + j)) →
  ∃ step, bm_advance text n m bad_char good_suffix s j = Ok step ∧ 1 ≤ step ∧
          (if j <? 0 then occurrences_below s ++ [s] else occurrences_below s)
          = occurrences_below (s + step).
Proof.
  intros Hbc Hgs Hm Hs Hfit Hj Hsuf Hmis.
  destruct (bm_advance_spec bad_char good_suffix s j) as (step & Hadv & Hstep & Hskip);
    [done..|].
  exists step. split; [done|]. split; [done|].
  rewrite (occurrences_below_skip (s + 1) (s + step)); [|done|lia|].
  2:{ intros e He. replace e with (s + (e - s)) by lia. apply Hskip. lia. }
  destruct (Z.ltb_spec j 0) as [Hneg|Hpos].
  - symmetry. apply occurrences_below_hit; [done|]. apply tmatch_window.
    split; [done|]. split; [done|]. by assert (j = -1) as <- by lia.
  - symmetry. apply occurrences_below_miss; [done|].
    intros (_ & _ & Hocc)%tmatch_window. apply (Hmis Hpos). apply Hocc. lia.
Qed.

Lemma bm_loop_spec bad_char good_suffix fuel s :
  bad_char_spec bad_char → good_suffix_spec good_suffix →
  1 ≤ m → 0 ≤ s → Z.max 0 (n - m + 1 - s) < Z.of_nat fuel →
  bm_loop fuel text pattern n m bad_char good_suffix s (occurrences_below s)
  = Ok occurrences.
Proof.
  intros Hbc Hgs Hm. revert s. induction fuel as [|fuel IH]; intros s Hs Hfuel; [lia|].
  cbn [bm_loop]. destruct (Z.leb_spec s (n - m)) as [Hin|Hout].
  2:{ f_equal. apply occurrences_below_beyond; lia. }
  destruct (bm_compare_spec s (Z.to_nat (m + 1)) (m - 1))
    as (j & -> & Hj & Hsuf & Hmis); [lia|lia|lia|lia|intros t Ht; lia|].
  rewrite bind_Ok.
  destruct (bm_iteration bad_char good_suffix s j) as (step & -> & Hstep & ->);
    [done|done|done|done|lia|lia|done|done|].
  rewrite bind_Ok. apply IH; lia.
Qed.

Lemma bm_count_loop_spec bad_char good_suffix fuel s (c : Z) :
  bad_char_spec bad_char → good_suffix_spec good_suffix →
  1 ≤ m → 0 ≤ s → Z.max 0 (n - m + 1 - s) < Z.of_nat fuel → 0 ≤ c →
  ∃ c', bm_count_loop fuel text pattern n m bad_char good_suffix s
                      (occurrences_below s) c = Ok (occurrences, c') ∧ 0 ≤ c'.
Proof.
  intros Hbc Hgs Hm. revert s c.
  induction fuel as [|fuel IH]; intros s c Hs Hfuel Hc; [lia|].
  cbn [bm_count_loop]. destruct (Z.leb_spec s (n - m)) as [Hin|Hout].
  2:{ exists c. split; [|done]. do 2 f_equal. apply occurrences_below_beyond; lia. }
  destruct (bm_count_compare_spec s (Z.to_nat (m + 1)) (m - 1) c)
    as (j & c1 & -> & Hj & Hsuf & Hmis & Hc1); [lia|lia|lia|lia|intros t Ht; lia|].
  rewrite bind_Ok.
  destruct (bm_iteration bad_char good_suffix s j) as (step & -> & Hstep & ->);
    [done|done|done|done|lia|lia|done|done|].
  rewrite bind_Ok. apply IH; lia.
Qed.

Lemma boyer_moore_search_spec :
  1 ≤ m → m ≤ n → boyer_moore_search text pattern = Ok occurrences.
Proof.
  intros Hm Hfit. unfold boyer_moore_search.
  destruct (Z.eqb_spec m 0) as [?|_]; [lia|].
  destruct (Z.ltb_spec n m) as [?|_]; [lia|].
  destruct bad_character_table_spec as (bad_char & -> & Hbc). rewrite bind_Ok.
  destruct (good_suffix_table_spec Hm) as (good_suffix & -> & Hgs). rewrite bind_Ok.
  rewrite <- (occurrences_below_nil 0) by lia.
  apply bm_loop_spec; [done|done|done|lia|lia].
Qed.

Lemma count_comparisons_boyer_moore_spec :
  1 ≤ m → m ≤ n →
  ∃ c, count_comparisons_boyer_moore text pattern = Ok (occurrences, c) ∧ 0 ≤ c.
Proof.
  intros Hm Hfit. unfold count_comparisons_boyer_moore.
  destruct (Z.eqb_spec m 0) as [?|_]; [lia|].
  destruct (Z.ltb_spec n m) as [?|_]; [lia|].
  destruct bad_character_table_spec as (bad_char & -> & Hbc). rewrite bind_Ok.
  destruct (good_suffix_table_spec Hm) as (good_suffix & -> & Hgs). rewrite bind_Ok.
  rewrite <- (occurrences_below_nil 0) by lia.
  apply bm_count_loop_spec; [done|done|done|lia|lia|lia].
Qed.

End Exact.

(** ** Ascending lists of offsets *)

(** A match set: strictly ascending offsets, each between [0] and
    [len(text) - len(pattern)]. *)
Definition match_set {Σ : Type} (text pattern : list Σ) (offsets : list Z) : Prop :=
  StronglySorted Z.lt offsets ∧
  Forall (λ s, 0 ≤ s ≤ len text - len pattern) offsets.

Lemma filter_range_ascending (p : Z → bool) a b :
  StronglySorted Z.lt (List.filter p (range a b)) ∧
  Forall (λ s, a ≤ s < b) (List.filter p (range a b)).
Proof.
  destruct (decide (a ≤ b)) as [Hab|Hab].
  2:{ rewrite range_nil by lia. simpl. split; constructor. }
  remember (Z.to_nat (b - a)) as d eqn:Hd.
  revert a Hab Hd. induction d as [|d IH]; intros a Hab Hd.
  - rewrite range_nil by lia. simpl. split; constructor.
  - rewrite range_cons by lia. simpl.
    destruct (IH (a + 1) ltac:(lia) ltac:(lia)) as [Hs Hf].
    assert (Forall (λ s, a ≤ s < b) (List.filter p (range (a + 1) b))) as Hf'.
    { eapply Forall_impl; [done|]. simpl. intros; lia. }
    destruct (p a); [|done]. split.
    + apply StronglySorted_cons. split; [|done].
      eapply Forall_impl; [exact Hf|]. simpl. intros; lia.
    + constructor; [lia|done].
Qed.

Lemma match_set_nil {Σ : Type} (text pattern : list Σ) : match_set text pattern [].
Proof. split; constructor. Qed.

Lemma match_set_filter {Σ : Type} (text pattern : list Σ) (p : Z → bool) :
  match_set text pattern (List.filter p (range 0 (len text - len pattern + 1))).
Proof.
  destruct (filter_range_ascending p 0 (len text - len pattern + 1)) as [Hs Hf].
  split; [done|]. eapply Forall_impl; [exact Hf|]. simpl. intros; lia.
Qed.

Lemma match_set_all {Σ : Type} (text : list Σ) :
  match_set text [] (range 0 (len text + 1)).
Proof.
  pose proof (match_set_filter text [] (λ _, true)) as Hm.
  rewrite List.forallb_filter_id in Hm; [|by apply forallb_forall].
  replace (len text - len (@nil Σ) + 1) with (len text + 1) in Hm; [done|].
  unfold len. simpl. lia.
Qed.

Lemma elem_of_occurrences {Σ : Type} `{Countable Σ} (text pattern : list Σ) s :
  s ∈ occurrences text pattern ↔
  0 ≤ s ≤ len text - len pattern ∧ slice text s (s + len pattern) = pattern.
Proof.
  unfold occurrences, occurrences_below. rewrite list_elem_of_In, List.filter_In.
  rewrite <- list_elem_of_In, elem_of_range. unfold occurs_at.
  rewrite bool_decide_eq_true. intuition lia.
Qed.

(** * The properties of the specification *)

Lemma len_pos_of_nonempty {T} (l : list T) : l ≠ [] → 1 ≤ len l.
Proof. destruct l; [done|]. intros _. unfold len. simpl. lia. Qed.

Lemma len_zero_cases {T} (l : list T) : len l = 0 ∨ 1 ≤ len l.
Proof. pose proof (len_nonneg l). lia. Qed.

(** ** Exact search *)

(** C1. For every text and every non-empty pattern no longer than the text,
    [boyer_moore_search] and [kmp_search] return the same list as the
    brute-force [native_search]: the ascending list [occurrences] of all
    offsets [s] with [text[s:s + len(pattern)] == pattern], overlapping
    occurrences included. *)
Theorem exact_search_agrees {Σ : Type} `{Countable Σ} (text pattern : list Σ) :
  pattern ≠ [] → len pattern ≤ len text →
  native_search text pattern = Ok (occurrences text pattern) ∧
  boyer_moore_search text pattern = Ok (occurrences text pattern) ∧
  kmp_search text pattern = Ok (occurrences text pattern) ∧
  StronglySorted Z.lt (occurrences text pattern) ∧
  ∀ s, s ∈ occurrences text pattern ↔
       0 ≤ s ≤ len text - len pattern ∧ slice text s (s + len pattern) = pattern.
Proof.
  intros Hne%len_pos_of_nonempty Hfit. split; [|split; [|split; [|split]]].
  - by apply native_search_spec.
  - by apply boyer_moore_search_spec.
  - by apply kmp_search_spec.
  - apply filter_range_ascending.
  - apply elem_of_occurrences.
Qed.

Lemma exact_search_agrees_witness :
  str "GATC" ≠ [] ∧ len (str "GATC") ≤ len (str "ATCGATCGATCG") ∧
  native_search (str "ATCGATCGATCG") (str "GATC")
    = Ok (occurrences (str "ATCGATCGATCG") (str "GATC")) ∧
  boyer_moore_search (str "ATCGATCGATCG") (str "GATC")
    = Ok (occurrences (str "ATCGATCGATCG") (str "GATC")) ∧
  kmp_search (str "ATCGATCGATCG") (str "GATC")
    = Ok (occurrences (str "ATCGATCGATCG") (str "GATC")) ∧
  occurrences (str "ATCGATCGATCG") (str "GATC") = [3; 7].
Proof.
  split; [discriminate|]. split; [by vm_compute|].
  destruct (exact_search_agrees (str "ATCGATCGATCG") (str "GATC"))
    as (Hn & Hb & Hk & _); [discriminate|by vm_compute|].
  split; [exact Hn|]. split; [exact Hb|]. split; [exact Hk|]. by vm_compute.
Defined.

(** C4. In [boyer_moore_search] and its instrumented variant, the advance
    computed after a mismatch at pattern index [j],
    [max(j - bad_char.get(text[s + j], -1), good_suffix[j])], is at least 1. *)
Theorem boyer_moore_advance_positive {Σ : Type} `{Countable Σ}
    (text pattern : list Σ) (s j : Z) :
  0 ≤ j < len pattern → 0 ≤ s → s + j < len text →
  ∃ bad_char good_suffix c g step,
    bad_character_table pattern = Ok bad_char ∧
    good_suffix_table pattern = Ok good_suffix ∧
    getitem text (s + j) = Ok c ∧ getitem good_suffix j = Ok g ∧
    bm_advance text (len text) (len pattern) bad_char good_suffix s j = Ok step ∧
    step = Z.max (j - dict_get bad_char c (-1)) g ∧
    1 ≤ step ∧ s < s + step.
Proof.
  intros Hj Hs Hsj.
  destruct (bad_character_table_spec pattern) as (bad_char & Hbc & _).
  destruct (good_suffix_table_spec pattern) as (good_suffix & Hgs & Hspec); [lia|].
  destruct (good_suffix_le_m pattern good_suffix j Hspec) as (g & Hg & Hg1 & _); [lia|].
  destruct (zlookup_is_Some text (s + j)) as [c Hc]; [lia|].
  exists bad_char, good_suffix, c, g, (Z.max (j - dict_get bad_char c (-1)) g).
  split; [done|]. split; [done|].
  split; [by apply getitem_Ok|]. split; [by apply getitem_Ok|].
  split; [|split; [done|lia]].
  unfold bm_advance. assert ((j <? 0) = false) as -> by lia.
  by rewrite (getitem_Ok _ _ _ Hc), bind_Ok, (getitem_Ok _ _ _ Hg), bind_Ok.
Qed.

Lemma boyer_moore_advance_positive_witness :
  ∃ bad_char good_suffix c g step,
    bad_character_table (str "GATC") = Ok bad_char ∧
    good_suffix_table (str "GATC") = Ok good_suffix ∧
    getitem (str "ATCGATCG") (0 + 3) = Ok c ∧ getitem good_suffix 3 = Ok g ∧
    bm_advance (str "ATCGATCG") (len (str "ATCGATCG")) (len (str "GATC"))
               bad_char good_suffix 0 3 = Ok step ∧
    step = Z.max (3 - dict_get bad_char c (-1)) g ∧
    1 ≤ step ∧ 0 < 0 + step.
Proof.
  apply (boyer_moore_advance_positive (str "ATCGATCG") (str "GATC") 0 3);
    [by vm_compute|lia|by vm_compute].
Defined.

(** C6. For every text and every non-empty pattern no longer than the text,
    the comparison count of [count_comparisons_kmp] is at most
    [2 * len(text)]. *)
Theorem kmp_comparisons_bounded {Σ : Type} `{Countable Σ} (text pattern : list Σ) :
  pattern ≠ [] → len pattern ≤ len text →
  ∃ matches comparisons,
    count_comparisons_kmp text pattern = Ok (matches, comparisons) ∧
    comparisons ≤ 2 * len text.
Proof.
  intros Hne%len_pos_of_nonempty Hfit.
  destruct (count_comparisons_kmp_spec text pattern Hne Hfit) as (c & Hrun & Hc).
  exists (occurrences text pattern), c. split; [done|lia].
Qed.

Lemma kmp_comparisons_bounded_witness :
  str "AAA" ≠ [] ∧ len (str "AAA") ≤ len (str "AAAAAAA") ∧
  ∃ matches comparisons,
    count_comparisons_kmp (str "AAAAAAA") (str "AAA") = Ok (matches, comparisons) ∧
    comparisons ≤ 2 * len (str "AAAAAAA").
Proof.
  split; [discriminate|]. split; [by vm_compute|].
  apply kmp_comparisons_bounded; [discriminate|by vm_compute].
Defined.

(** ** Edit distance and approximate search *)

(** C5. [levenshtein_distance] is a metric on strings: the distance of a
    string to itself is 0, the distance is 0 only between equal strings, it is
    symmetric, and it satisfies the triangle inequality. *)
Theorem levenshtein_distance_metric {Σ : Type} `{Countable Σ} (x a b c : list Σ) :
  levenshtein_distance x x = Ok 0 ∧
  (levenshtein_distance a b = Ok 0 ↔ a = b) ∧
  levenshtein_distance a b = levenshtein_distance b a ∧
  ∃ dab dbc dac,
    levenshtein_distance a b = Ok dab ∧
    levenshtein_distance b c = Ok dbc ∧
    levenshtein_distance a c = Ok dac ∧
    dac ≤ dab + dbc.
Proof.
  rewrite !levenshtein_distance_spec. split; [|split; [|split]].
  - by rewrite edit_distance_refl.
  - split.
    + intros [= Hz]. by apply edit_distance_zero.
    + intros ->. by rewrite edit_distance_refl.
  - by rewrite edit_distance_sym.
  - exists (edit_distance a b), (edit_distance b c), (edit_distance a c).
    split; [done|]. split; [done|]. split; [done|]. apply edit_distance_triangle.
Qed.

(** C2. For every text, every pattern and every [max_distance >= 0], the
    full-table [levenshtein_search] and the rolling-row
    [levenshtein_search_optimized] return the same match list. *)
Theorem optimized_search_equals_naive {Σ : Type} `{Countable Σ}
    (text pattern : list Σ) (max_distance : Z) :
  0 ≤ max_distance →
  ∃ matches,
    levenshtein_search text pattern max_distance = Ok matches ∧
    levenshtein_search_optimized text pattern max_distance = Ok matches.
Proof.
  intros _. destruct (len_zero_cases pattern) as [Hm|Hm].
  { exists (range 0 (len text + 1)).
    unfold levenshtein_search, levenshtein_search_optimized. by rewrite Hm. }
  destruct (decide (len text < len pattern)) as [Hshort|Hfit].
  { exists []. unfold levenshtein_search, levenshtein_search_optimized.
    assert ((len pattern =? 0) = false) as -> by lia.
    by assert ((len text <? len pattern) = true) as -> by lia. }
  exists (approx_matches text pattern max_distance). split.
  - apply levenshtein_search_spec; lia.
  - apply levenshtein_search_optimized_spec; lia.
Qed.

Lemma optimized_search_equals_naive_witness :
  0 ≤ 1 ∧
  ∃ matches,
    levenshtein_search (str "ATCGATCG") (str "GATG") 1 = Ok matches ∧
    levenshtein_search_optimized (str "ATCGATCG") (str "GATG") 1 = Ok matches.
Proof.
  split; [lia|]. apply optimized_search_equals_naive. lia.
Defined.

(** C8. Each instrumented variant returns the match list of its
    uninstrumented counterpart, paired with a non-negative comparison count. *)
Theorem instrumented_variants_agree {Σ : Type} `{Countable Σ}
    (text pattern : list Σ) (max_distance : Z) :
  (∃ matches comparisons,
     count_comparisons_boyer_moore text pattern = Ok (matches, comparisons) ∧
     boyer_moore_search text pattern = Ok matches ∧ 0 ≤ comparisons) ∧
  (∃ matches comparisons,
     count_comparisons_kmp text pattern = Ok (matches, comparisons) ∧
     kmp_search text pattern = Ok matches ∧ 0 ≤ comparisons) ∧
  (∃ matches comparisons,
     count_comparisons_levenshtein text pattern max_distance = Ok (matches, comparisons) ∧
     levenshtein_search_optimized text pattern max_distance = Ok matches ∧
     0 ≤ comparisons).
Proof.
  destruct (len_zero_cases pattern) as [Hm|Hm].
  { unfold count_comparisons_boyer_moore, boyer_moore_search, count_comparisons_kmp,
      kmp_search, count_comparisons_levenshtein, levenshtein_search_optimized.
    rewrite Hm. simpl. split; [|split]; eexists _, 0; done. }
  destruct (decide (len text < len pattern)) as [Hshort|Hfit].
  { unfold count_comparisons_boyer_moore, boyer_moore_search, count_comparisons_kmp,
      kmp_search, count_comparisons_levenshtein, levenshtein_search_optimized.
    assert ((len pattern =? 0) = false) as -> by lia.
    assert ((len text <? len pattern) = true) as -> by lia.
    simpl. split; [|split]; exists [], 0; done. }
  split; [|split].
  - destruct (count_comparisons_boyer_moore_spec text pattern) as (c & Hrun & Hc); [lia..|].
    exists (occurrences text pattern), c. split; [done|]. split; [|done].
    apply boyer_moore_search_spec; lia.
  - destruct (count_comparisons_kmp_spec text pattern) as (c & Hrun & Hc); [lia..|].
    exists (occurrences text pattern), c. split; [done|]. split; [|lia].
    apply kmp_search_spec; lia.
  - destruct (count_comparisons_levenshtein_spec text pattern max_distance)
      as (c & Hrun & Hc); [lia..|].
    exists (approx_matches text pattern max_distance), c. split; [done|].
    split; [|done]. apply levenshtein_search_optimized_spec; lia.
Qed.

(** C10. With the empty pattern, every approximate search function returns
    all offsets [0..len(text)], whatever [max_distance] is, negative values
    included: the empty-pattern branch comes before any use of the threshold. *)
Theorem empty_pattern_matches_everywhere {Σ : Type} `{Countable Σ}
    (text : list Σ) (max_distance : Z) :
  levenshtein_search text [] max_distance = Ok (range 0 (len text + 1)) ∧
  levenshtein_search_optimized text [] max_distance = Ok (range 0 (len text + 1)) ∧
  levenshtein_search_diagonal text [] max_distance = Ok (range 0 (len text + 1)) ∧
  count_comparisons_levenshtein text [] max_distance = Ok (range 0 (len text + 1), 0) ∧
  ∀ offset, offset ∈ range 0 (len text + 1) ↔ 0 ≤ offset ≤ len text.
Proof.
  split; [done|]. split; [done|]. split; [done|]. split; [done|].
  intros offset. rewrite elem_of_range. lia.
Qed.

(** ** Negative thresholds *)

Lemma foldM_preserves {S X} (f : S → X → result S) (P : S → Prop) xs s s' :
  (∀ s x s', x ∈ xs → P s → f s x = Ok s' → P s') →
  P s → foldM f xs s = Ok s' → P s'.
Proof.
  revert s. induction xs as [|x xs IH]; intros s Hstep HP; simpl.
  - by intros [= <-].
  - intros (s1 & Hs1 & Hrest)%bind_Ok_inv.
    apply (IH s1); [|by apply (Hstep s x); [left|..]|done].
    intros s0 x0 s0' Hx0. apply Hstep. by right.
Qed.

(** The loops [for j in range(a, b): curr[j] = v]. *)
Lemma fill_spec (v : Z) a b curr curr' :
  0 ≤ a →
  foldM (λ curr j, setitem curr j v) (range a b) curr = Ok curr' →
  (∀ j, a ≤ j < b → zlookup curr' j = Some v) ∧
  (∀ j, ¬ (a ≤ j < b) → zlookup curr' j = zlookup curr j).
Proof.
  intros Ha. destruct (decide (a ≤ b)) as [Hab|Hab].
  2:{ rewrite range_nil by lia. simpl. intros [= <-]. split; [intros; lia|done]. }
  remember (Z.to_nat (b - a)) as d eqn:Hd.
  revert a curr Ha Hab Hd. induction d as [|d IH]; intros a curr Ha Hab Hd.
  - rewrite range_nil by lia. simpl. intros [= <-]. split; [intros; lia|done].
  - rewrite range_cons by lia. simpl.
    intros (curr1 & Hset & Hrest)%bind_Ok_inv.
    destruct (decide (a < len curr)) as [Hin|Hout].
    2:{ rewrite setitem_out_of_range in Hset by lia. discriminate. }
    rewrite setitem_Ok in Hset by lia. injection Hset as <-.
    destruct (IH (a + 1) _ ltac:(lia) ltac:(lia) ltac:(lia) Hrest) as [Hin' Hout'].
    split.
    + intros j Hj. destruct (decide (j = a)) as [->|Hne].
      * rewrite Hout' by lia. apply zlookup_insert_eq. lia.
      * apply Hin'. lia.
    + intros j Hj. rewrite Hout' by lia. apply zlookup_insert_ne; lia.
Qed.

(** The last store of such a loop is the one that stays. *)
Lemma fill_last (v : Z) a b curr curr' :
  a ≤ b → 0 ≤ b →
  foldM (λ curr j, setitem curr j v) (range a (b + 1)) curr = Ok curr' →
  zlookup curr' b = Some v.
Proof.
  intros Hab Hb. rewrite range_snoc by lia. rewrite foldM_app.
  intros (curr1 & _ & Hlast)%bind_Ok_inv. simpl in Hlast.
  apply bind_Ok_inv in Hlast as (curr2 & Hset & [= <-]).
  destruct (decide (b < len curr1)) as [Hin|Hout].
  2:{ rewrite setitem_out_of_range in Hset by lia. discriminate. }
  rewrite setitem_Ok in Hset by lia. injection Hset as <-.
  apply zlookup_insert_eq. lia.
Qed.

Section NegativeThreshold.

Context {Σ : Type} `{Countable Σ}.
Variables (text pattern : list Σ) (d : Z).
Hypothesis Hd : d < 0.

Lemma approx_matches_negative : approx_matches text pattern d = [].
Proof.
  unfold approx_matches. induction (range 0 _) as [|x xs IH]; [done|]. simpl.
  unfold window_within at 1.
  pose proof (edit_distance_nonneg (slice text x (x + len pattern)) pattern).
  by assert ((edit_distance (slice text x (x + len pattern)) pattern <=? d) = false)
    as -> by lia.
Qed.

(** With a negative threshold the band of every row is empty, and the final
    cell of a finished row holds the fill value. *)
Lemma diagonal_row_negative prev i curr :
  1 ≤ len pattern ≤ i →
  diagonal_row text pattern d prev i = Ok curr →
  zlookup curr (len pattern) = Some (d + 5).
Proof.
  intros Hi. unfold diagonal_row, diagonal_band.
  intros (curr1 & Hband & (curr2 & Hleft & Hright)%bind_Ok_inv)%bind_Ok_inv.
  unfold start_j, end_j in *.
  apply fill_spec in Hleft as [Hl _]; [|lia].
  destruct (decide (Z.min (len pattern) (i + d) + 1 ≤ len pattern)) as [Hc|Hc].
  - apply fill_last in Hright; [done|done|lia].
  - apply fill_spec in Hright as [_ Hr']; [|lia].
    rewrite Hr' by lia. apply Hl. lia.
Qed.

Lemma diagonal_step_negative matches prev i matches' curr :
  1 ≤ len pattern →
  diagonal_step text pattern d (matches, prev) i = Ok (matches', curr) →
  matches' = matches.
Proof.
  intros Hm. unfold diagonal_step.
  intros (curr1 & Hrow & (hit & Hhit & [= <- <-])%bind_Ok_inv)%bind_Ok_inv.
  destruct (Z.leb_spec (len pattern) i) as [Hi|Hi].
  - rewrite (getitem_Ok _ _ _ (diagonal_row_negative prev i curr1 ltac:(lia) Hrow)) in Hhit.
    rewrite bind_Ok in Hhit. injection Hhit as <-.
    by assert ((d + 5 <=? d) = false) as -> by lia.
  - by injection Hhit as <-.
Qed.

Lemma levenshtein_search_diagonal_negative matches :
  1 ≤ len pattern →
  levenshtein_search_diagonal text pattern d = Ok matches → matches = [].
Proof.
  intros Hm. unfold levenshtein_search_diagonal.
  assert ((len pattern =? 0) = false) as -> by lia.
  destruct (len text <? len pattern); [by intros [= <-]|].
  intros ([matches' prev] & Hrun & [= <-])%bind_Ok_inv.
  apply (foldM_preserves _ (λ st, st.1 = []) _ _ _ ) in Hrun; [done| |done].
  intros [ms p] i [ms' p'] _ Hms Hstep. cbn [fst] in *. subst ms.
  by apply diagonal_step_negative in Hstep.
Qed.

End NegativeThreshold.

(** What it means for a call to be rejected: it raises instead of returning. *)
Definition rejected {T} (c : result T) : Prop := ∃ e, c = Raise e.

(** C9, as stated, fails: with [max_distance = -1], text [AT] and pattern
    [AT], none of the three strategies rejects the call; each returns a
    (here empty) match list. *)
Lemma negative_distance_not_rejected :
  ¬ rejected (levenshtein_search (str "AT") (str "AT") (-1)) ∧
  ¬ rejected (levenshtein_search_optimized (str "AT") (str "AT") (-1)) ∧
  ¬ rejected (levenshtein_search_diagonal (str "AT") (str "AT") (-1)) ∧
  levenshtein_search (str "AT") (str "AT") (-1) = Ok [] ∧
  levenshtein_search_optimized (str "AT") (str "AT") (-1) = Ok [] ∧
  levenshtein_search_diagonal (str "AT") (str "AT") (-1) = Ok [].
Proof.
  repeat split; try (intros [e He]; vm_compute in He; discriminate); by vm_compute.
Qed.

(** C9, amended. No strategy validates [max_distance]. For every text,
    every pattern and every [max_distance < 0], the full-table and the
    rolling-row search return a result: every offset [0..len(text)] for the
    empty pattern and the empty list otherwise; the banded search returns that
    same list whenever it returns. *)
Theorem negative_distance_unvalidated {Σ : Type} `{Countable Σ}
    (text pattern : list Σ) (max_distance : Z) :
  max_distance < 0 →
  let expected := if len pattern =? 0 then range 0 (len text + 1) else [] in
  levenshtein_search text pattern max_distance = Ok expected ∧
  levenshtein_search_optimized text pattern max_distance = Ok expected ∧
  ∀ matches,
    levenshtein_search_diagonal text pattern max_distance = Ok matches →
    matches = expected.
Proof.
  intros Hd expected. subst expected.
  destruct (len_zero_cases pattern) as [Hm|Hm].
  { unfold levenshtein_search, levenshtein_search_optimized, levenshtein_search_diagonal.
    rewrite Hm. simpl. split; [done|]. split; [done|]. by intros matches [= <-]. }
  assert ((len pattern =? 0) = false) as Hm0 by lia. rewrite Hm0.
  destruct (decide (len text < len pattern)) as [Hshort|Hfit].
  { unfold levenshtein_search, levenshtein_search_optimized. rewrite Hm0.
    assert ((len text <? len pattern) = true) as -> by lia.
    split; [done|]. split; [done|].
    intros matches. by apply levenshtein_search_diagonal_negative. }
  split; [|split].
  - rewrite levenshtein_search_spec by lia. by rewrite approx_matches_negative.
  - rewrite levenshtein_search_optimized_spec by lia. by rewrite approx_matches_negative.
  - intros matches. by apply levenshtein_search_diagonal_negative.
Qed.

Lemma negative_distance_unvalidated_witness :
  -1 < 0 ∧
  levenshtein_search (str "ATG") (str "ATG") (-1) = Ok [] ∧
  levenshtein_search_optimized (str "ATG") (str "ATG") (-1) = Ok [] ∧
  ∀ matches,
    levenshtein_search_diagonal (str "ATG") (str "ATG") (-1) = Ok matches →
    matches = [].
Proof.
  split; [lia|].
  apply (negative_distance_unvalidated (str "ATG") (str "ATG") (-1)). lia.
Defined.

(** ** The banded search *)

(** C3 does not hold of the code. With text [XXX], pattern [AB] and
    [max_distance = 1], row 3 has the band [[2, 2]]. When its cell [j = 2] is
    computed the row object is still [[3; 0; 0]]: the cell [curr[1]], outside
    the band, is read as [0], which is not greater than [max_distance],
    because the cells outside the band are only filled after the band loop.
    The cell becomes [0 + 1 = 1], the other two candidates being 3, and the
    search reports offset 1 although the window [XX] is 2 edits from [AB]. *)
Example diagonal_band_reads_unfilled_cell :
  start_j 3 1 = 2 ∧ end_j 2 3 1 = 2 ∧
  diagonal_row (str "XXX") (str "AB") 1 [0; 1; 2] 1 = Ok [1; 1; 2] ∧
  diagonal_row (str "XXX") (str "AB") 1 [1; 1; 2] 2 = Ok [2; 2; 2] ∧
  diagonal_fresh_row 2 3 = Ok [3; 0; 0] ∧
  getitem [3; 0; 0] (start_j 3 1 - 1) = Ok 0 ∧
  diagonal_band (str "XXX") (str "AB") 1 [2; 2; 2] 3 = Ok [3; 0; 1] ∧
  levenshtein_search_diagonal (str "XXX") (str "AB") 1 = Ok [1] ∧
  levenshtein_distance (str "XX") (str "AB") = Ok 2 ∧
  levenshtein_search (str "XXX") (str "AB") 1 = Ok [].
Proof. repeat split; by vm_compute. Qed.

(** C7 does not hold of the banded search: on text [AAAA], pattern [A] and
    [max_distance = 0] it returns no list at all. In row 3 the loop
    [for j in range(1, start_j)] stores at index 2 of a row of length 2 and
    raises [IndexError]; the two window searches return [[0; 1; 2; 3]]. *)
Example diagonal_search_raises :
  levenshtein_search_diagonal (str "AAAA") (str "A") 0 = Raise IndexError ∧
  start_j 3 0 = 3 ∧
  setitem [3; 5] 2 (0 + 5) = Raise IndexError ∧
  levenshtein_search (str "AAAA") (str "A") 0 = Ok [0; 1; 2; 3] ∧
  levenshtein_search_optimized (str "AAAA") (str "A") 0 = Ok [0; 1; 2; 3].
Proof. repeat split; by vm_compute. Qed.

(** * Further properties of the code *)

(** The exact matchers and the two window searches always return a match
    set: a strictly ascending list of offsets between [0] and
    [len(text) - len(pattern)]. *)
Theorem searches_return_match_sets {Σ : Type} `{Countable Σ}
    (text pattern : list Σ) (max_distance : Z) :
  (∃ l, boyer_moore_search text pattern = Ok l ∧ match_set text pattern l) ∧
  (∃ l, kmp_search text pattern = Ok l ∧ match_set text pattern l) ∧
  (∃ l, levenshtein_search text pattern max_distance = Ok l ∧ match_set text pattern l) ∧
  (∃ l, levenshtein_search_optimized text pattern max_distance = Ok l ∧
        match_set text pattern l).
Proof.
  destruct (len_zero_cases pattern) as [Hm|Hm].
  { pose proof (len_nil_inv _ Hm) as ->.
    unfold boyer_moore_search, kmp_search, levenshtein_search, levenshtein_search_optimized.
    simpl. repeat split; eexists; (split; [done|]);
      first [apply match_set_nil | apply match_set_all]. }
  destruct (decide (len text < len pattern)) as [Hshort|Hfit].
  { unfold boyer_moore_search, kmp_search, levenshtein_search, levenshtein_search_optimized.
    assert ((len pattern =? 0) = false) as -> by lia.
    assert ((len text <? len pattern) = true) as -> by lia.
    repeat split; exists []; (split; [done|]); apply match_set_nil. }
  repeat split.
  - exists (occurrences text pattern). split; [|apply match_set_filter].
    apply boyer_moore_search_spec; lia.
  - exists (occurrences text pattern). split; [|apply match_set_filter].
    apply kmp_search_spec; lia.
  - exists (approx_matches text pattern max_distance). split; [|apply match_set_filter].
    apply levenshtein_search_spec; lia.
  - exists (approx_matches text pattern max_distance). split; [|apply match_set_filter].
    apply levenshtein_search_optimized_spec; lia.
Qed.

(** [compute_lps_table] returns, for every index [i], the length of the
    longest proper prefix of [pattern[0..i]] that is also a suffix of it; in
    particular the first entry is 0 and entry [i] is at most [i]. *)
Theorem lps_table_longest_borders {Σ : Type} `{Countable Σ} (pattern : list Σ) :
  pattern ≠ [] →
  ∃ lps,
    compute_lps_table pattern = Ok lps ∧ len lps = len pattern ∧
    getitem lps 0 = Ok 0 ∧
    ∀ i, 0 ≤ i < len pattern →
      ∃ k, getitem lps i = Ok k ∧ 0 ≤ k ≤ i ∧
           (1 ≤ k → pborder pattern k (i + 1)) ∧
           ∀ k', pborder pattern k' (i + 1) → k' ≤ k.
Proof.
  intros Hm%len_pos_of_nonempty.
  destruct (compute_lps_table_spec pattern Hm) as (lps & Hrun & Hl & Hlps).
  exists lps. split; [done|]. split; [done|].
  assert (∀ i, 0 ≤ i < len pattern →
            ∃ k, getitem lps i = Ok k ∧ 0 ≤ k ≤ i ∧
                 (1 ≤ k → pborder pattern k (i + 1)) ∧
                 ∀ k', pborder pattern k' (i + 1) → k' ≤ k) as Hall.
  { intros i Hi.
    destruct (lps_lookup pattern lps (len pattern) (i + 1) Hlps)
      as (k & Hk & Hr & Hb & Hmax); [lia|].
    replace (i + 1 - 1) with i in Hk by lia.
    exists k. split; [by apply getitem_Ok|]. split; [lia|done]. }
  split; [|done].
  destruct (Hall 0) as (k & Hk & Hr & _); [lia|]. by assert (k = 0) as -> by lia.
Qed.

Lemma lps_table_longest_borders_witness :
  ∃ lps,
    compute_lps_table (str "AAACAAAA") = Ok lps ∧ len lps = len (str "AAACAAAA") ∧
    getitem lps 0 = Ok 0 ∧
    ∀ i, 0 ≤ i < len (str "AAACAAAA") →
      ∃ k, getitem lps i = Ok k ∧ 0 ≤ k ≤ i ∧
           (1 ≤ k → pborder (str "AAACAAAA") k (i + 1)) ∧
           ∀ k', pborder (str "AAACAAAA") k' (i + 1) → k' ≤ k.
Proof. apply lps_table_longest_borders. discriminate. Defined.

(** [good_suffix_table] returns one shift per pattern index, each between 1
    and [len(pattern)]. *)
Theorem good_suffix_table_entries {Σ : Type} `{Countable Σ} (pattern : list Σ) :
  pattern ≠ [] →
  ∃ shift,
    good_suffix_table pattern = Ok shift ∧ len shift = len pattern ∧
    ∀ q, 0 ≤ q < len pattern → ∃ v, getitem shift q = Ok v ∧ 1 ≤ v ≤ len pattern.
Proof.
  intros Hm%len_pos_of_nonempty.
  destruct (good_suffix_table_spec pattern Hm) as (shift & Hrun & Hspec).
  exists shift. split; [done|]. split; [by destruct Hspec|].
  intros q Hq. destruct (good_suffix_le_m pattern shift q Hspec Hq) as (v & Hv & Hr & _).
  exists v. split; [by apply getitem_Ok|done].
Qed.

Lemma good_suffix_table_entries_witness :
  ∃ shift,
    good_suffix_table (str "GCAGAGAG") = Ok shift ∧ len shift = len (str "GCAGAGAG") ∧
    ∀ q, 0 ≤ q < len (str "GCAGAGAG") →
      ∃ v, getitem shift q = Ok v ∧ 1 ≤ v ≤ len (str "GCAGAGAG").
Proof. apply good_suffix_table_entries. discriminate. Defined.

(** An empty pattern, or one longer than the text, gives the empty match list
    in both exact matchers and their instrumented variants; a non-empty
    pattern longer than the text gives it in the approximate searches. *)
Theorem degenerate_inputs {Σ : Type} `{Countable Σ}
    (text pattern : list Σ) (max_distance : Z) :
  pattern = [] ∨ len text < len pattern →
  boyer_moore_search text pattern = Ok [] ∧
  kmp_search text pattern = Ok [] ∧
  count_comparisons_boyer_moore text pattern = Ok ([], 0) ∧
  count_comparisons_kmp text pattern = Ok ([], 0) ∧
  (pattern ≠ [] →
   levenshtein_search text pattern max_distance = Ok [] ∧
   levenshtein_search_optimized text pattern max_distance = Ok [] ∧
   levenshtein_search_diagonal text pattern max_distance = Ok [] ∧
   count_comparisons_levenshtein text pattern max_distance = Ok ([], 0)).
Proof.
  intros [->|Hshort].
  { do 4 (split; [done|]). by intros []. }
  unfold boyer_moore_search, kmp_search, count_comparisons_boyer_moore,
    count_comparisons_kmp, levenshtein_search, levenshtein_search_optimized,
    levenshtein_search_diagonal, count_comparisons_levenshtein.
  assert ((len text <? len pattern) = true) as -> by lia.
  rewrite orb_true_r.
  destruct (Z.eqb_spec (len pattern) 0) as [E|E].
  - do 4 (split; [done|]). intros Hne%len_pos_of_nonempty. lia.
  - do 4 (split; [done|]). intros _. by do 3 (split; [done|]).
Qed.

Lemma degenerate_inputs_witness :
  boyer_moore_search (str "AT") (str "ATCG") = Ok [] ∧
  kmp_search (str "AT") (str "ATCG") = Ok [] ∧
  count_comparisons_boyer_moore (str "AT") (str "ATCG") = Ok ([], 0) ∧
  count_comparisons_kmp (str "AT") (str "ATCG") = Ok ([], 0) ∧
  (str "ATCG" ≠ [] →
   levenshtein_search (str "AT") (str "ATCG") 1 = Ok [] ∧
   levenshtein_search_optimized (str "AT") (str "ATCG") 1 = Ok [] ∧
   levenshtein_search_diagonal (str "AT") (str "ATCG") 1 = Ok [] ∧
   count_comparisons_levenshtein (str "AT") (str "ATCG") 1 = Ok ([], 0)).
Proof.
  apply (degenerate_inputs (str "AT") (str "ATCG") 1). right. by vm_compute.
Defined.

(** ** When the banded search returns *)

(** A fill loop that stays inside the row returns, and keeps the length. *)
Lemma fill_ok (v : Z) a b curr :
  0 ≤ a → b ≤ len curr →
  ∃ curr', foldM (λ curr j, setitem curr j v) (range a b) curr = Ok curr' ∧
           len curr' = len curr.
Proof.
  intros Ha Hb. destruct (decide (a ≤ b)) as [Hab|Hab].
  2:{ rewrite range_nil by lia. by exists curr. }
  destruct (foldM_range_inv (λ curr j, setitem curr j v)
              (λ _ c, len c = len curr) a b curr) as (curr' & Hrun & Hl);
    [done|done| |by exists curr'].
  intros k c Hk Hc. rewrite setitem_Ok by lia. eexists; split; [done|].
  by rewrite len_insert.
Qed.

Section Banded.

Context {Σ : Type} `{Countable Σ}.
Variables (text pattern : list Σ) (d : Z).

Local Abbreviation n := (len text).
Local Abbreviation m := (len pattern).

Hypothesis Hm : 1 ≤ m.
Hypothesis Hd : 0 ≤ d.

Lemma diagonal_row_ok prev i :
  len prev = m + 1 → 1 ≤ i ≤ n → i ≤ m + d + 1 →
  ∃ curr, diagonal_row text pattern d prev i = Ok curr ∧ len curr = m + 1.
Proof.
  intros Hlp Hi Hband. unfold diagonal_row, diagonal_band, diagonal_fresh_row.
  rewrite setitem_Ok by (rewrite len_repeat_list; lia). rewrite bind_Ok.
  unfold start_j, end_j.
  destruct (foldM_range_inv (diagonal_cell text pattern prev i)
              (λ _ c, len c = m + 1)
              (Z.max 1 (i - d)) (Z.min m (i + d) + 1)
              (<[Z.to_nat 0 := i]> (repeat_list 0 (m + 1))))
    as (curr1 & -> & Hl1); [lia| | |].
  { rewrite len_insert. apply len_repeat_list. lia. }
  { intros j c Hj Hc. unfold diagonal_cell.
    destruct (zlookup_is_Some text (i - 1)) as [x Hx]; [lia|].
    destruct (zlookup_is_Some pattern (j - 1)) as [y Hy]; [lia|].
    destruct (zlookup_is_Some c (j - 1)) as [c1 Hc1]; [lia|].
    destruct (zlookup_is_Some prev j) as [p Hp]; [lia|].
    destruct (zlookup_is_Some prev (j - 1)) as [q Hq]; [lia|].
    rewrite (getitem_Ok _ _ _ Hx), bind_Ok, (getitem_Ok _ _ _ Hy), bind_Ok.
    rewrite (getitem_Ok _ _ _ Hc1), bind_Ok, (getitem_Ok _ _ _ Hp), bind_Ok.
    rewrite (getitem_Ok _ _ _ Hq), bind_Ok.
    rewrite setitem_Ok by lia. eexists; split; [done|]. by rewrite len_insert. }
  rewrite bind_Ok.
  destruct (fill_ok (d + 5) 1 (Z.max 1 (i - d)) curr1) as (curr2 & -> & Hl2); [lia|lia|].
  rewrite bind_Ok.
  destruct (fill_ok (d + 5) (Z.min m (i + d) + 1) (m + 1) curr2)
    as (curr3 & -> & Hl3); [lia|lia|].
  exists curr3. split; [done|lia].
Qed.

(** The first row whose left fill runs past the end of the row. *)
Lemma diagonal_row_overrun prev :
  diagonal_row text pattern d prev (m + d + 2) = Raise IndexError.
Proof.
  unfold diagonal_row, diagonal_band, diagonal_fresh_row.
  rewrite setitem_Ok by (rewrite len_repeat_list; lia). rewrite bind_Ok.
  unfold start_j, end_j.
  replace (Z.max 1 (m + d + 2 - d)) with (m + 1 + 1) by lia.
  rewrite (range_nil (m + 1 + 1)) by lia. cbn [foldM]. rewrite bind_Ok.
  rewrite (range_snoc 1 (m + 1)) by lia. rewrite foldM_app.
  destruct (fill_ok (d + 5) 1 (m + 1) (<[Z.to_nat 0 := m + d + 2]> (repeat_list 0 (m + 1))))
    as (curr & -> & Hl); [lia|rewrite len_insert, len_repeat_list; lia|].
  rewrite bind_Ok. simpl.
  rewrite setitem_out_of_range; [done|].
  rewrite Hl, len_insert, len_repeat_list; lia.
Qed.

Definition banded_state (i : Z) (st : list Z * list Z) : Prop :=
  len st.2 = m + 1 ∧ StronglySorted Z.lt st.1 ∧ Forall (λ s, 0 ≤ s < i - m) st.1.

Lemma diagonal_step_ok st i :
  banded_state i st → 1 ≤ i ≤ n → i ≤ m + d + 1 →
  ∃ st', diagonal_step text pattern d st i = Ok st' ∧ banded_state (i + 1) st'.
Proof.
  destruct st as [matches prev]. intros (Hl & Hs & Hf) Hi Hband. cbn [fst snd] in *.
  unfold diagonal_step.
  destruct (diagonal_row_ok prev i Hl Hi Hband) as (curr & -> & Hlc). rewrite bind_Ok.
  assert (Forall (λ s, 0 ≤ s < i + 1 - m) matches) as Hf'.
  { eapply Forall_impl; [exact Hf|]. simpl. intros; lia. }
  assert (banded_state (i + 1) (matches, curr)) as Hkeep by (by split).
  destruct (Z.leb_spec m i) as [Hmi|Hmi].
  - destruct (zlookup_is_Some curr m) as [c Hc]; [lia|].
    rewrite (getitem_Ok _ _ _ Hc), !bind_Ok. eexists; split; [done|].
    destruct (c <=? d); [|done].
    split; [done|]. cbn [fst snd]. split.
    + apply StronglySorted_app. split; [|split; [done|repeat constructor]].
      intros x1 x2 Hx1 Hx2%list_elem_of_singleton. subst x2.
      rewrite Forall_forall in Hf. specialize (Hf _ Hx1). lia.
    + apply Forall_app. split; [done|]. repeat constructor; lia.
  - rewrite bind_Ok. by eexists.
Qed.

End Banded.

(** For a non-empty pattern and [max_distance >= 0], the banded search
    returns a match set when [len(text) <= len(pattern) + max_distance + 1]. *)
Theorem diagonal_search_returns {Σ : Type} `{Countable Σ}
    (text pattern : list Σ) (max_distance : Z) :
  pattern ≠ [] → 0 ≤ max_distance →
  len text ≤ len pattern + max_distance + 1 →
  ∃ l, levenshtein_search_diagonal text pattern max_distance = Ok l ∧
       match_set text pattern l.
Proof.
  intros Hm%len_pos_of_nonempty Hd Hn. unfold levenshtein_search_diagonal.
  assert ((len pattern =? 0) = false) as -> by lia.
  destruct (Z.ltb_spec (len text) (len pattern)) as [Hshort|Hfit].
  { exists []. split; [done|apply match_set_nil]. }
  destruct (foldM_range_inv (diagonal_step text pattern max_distance)
              (banded_state pattern) 1 (len text + 1) ([], range 0 (len pattern + 1)))
    as ([matches prev] & -> & Hfin); [lia| | |].
  { split; [cbn [snd]; rewrite len_range; lia|]. split; constructor. }
  { intros i st Hi Hst. apply diagonal_step_ok; [done|done|done|lia|lia]. }
  rewrite bind_Ok. exists matches. split; [done|].
  destruct Hfin as (_ & Hs & Hf). cbn [fst] in *. split; [done|].
  eapply Forall_impl; [exact Hf|]. simpl. intros; lia.
Qed.

Lemma diagonal_search_returns_witness :
  ∃ l, levenshtein_search_diagonal (str "ATCG") (str "ATG") 1 = Ok l ∧
       match_set (str "ATCG") (str "ATG") l.
Proof.
  apply diagonal_search_returns; [discriminate|lia|by vm_compute].
Defined.

(** For a non-empty pattern and [max_distance >= 0], the banded search raises
    [IndexError] as soon as [len(text) >= len(pattern) + max_distance + 2]. *)
Theorem diagonal_search_overruns {Σ : Type} `{Countable Σ}
    (text pattern : list Σ) (max_distance : Z) :
  pattern ≠ [] → 0 ≤ max_distance →
  len pattern + max_distance + 2 ≤ len text →
  levenshtein_search_diagonal text pattern max_distance = Raise IndexError.
Proof.
  intros Hm%len_pos_of_nonempty Hd Hn. unfold levenshtein_search_diagonal.
  assert ((len pattern =? 0) = false) as -> by lia.
  assert ((len text <? len pattern) = false) as -> by lia.
  rewrite (range_split 1 (len pattern + max_distance + 2) (len text + 1)) by lia.
  rewrite foldM_app.
  destruct (foldM_range_inv (diagonal_step text pattern max_distance)
              (banded_state pattern) 1 (len pattern + max_distance + 2)
              ([], range 0 (len pattern + 1)))
    as ([matches prev] & -> & Hfin); [lia| | |].
  { split; [cbn [snd]; rewrite len_range; lia|]. split; constructor. }
  { intros i st Hi Hst. apply diagonal_step_ok; [done|done|done|lia|lia]. }
  rewrite bind_Ok. rewrite range_cons by lia. simpl foldM.
  unfold diagonal_step at 1. by rewrite diagonal_row_overrun.
Qed.

Lemma diagonal_search_overruns_witness :
  levenshtein_search_diagonal (str "ATCGATCG") (str "GATG") 1 = Raise IndexError.
Proof.
  apply diagonal_search_overruns; [discriminate|lia|by vm_compute].
Defined.

(** In a finished row of the banded search, every cell of the columns
    [1..len(pattern)] outside the band holds [max_distance + 5], which
    exceeds [max_distance]. *)
Theorem diagonal_row_sentinels {Σ : Type} `{Countable Σ}
    (text pattern : list Σ) (max_distance : Z) (prev curr : list Z) (i j : Z) :
  0 ≤ max_distance → 1 ≤ i →
  diagonal_row text pattern max_distance prev i = Ok curr →
  1 ≤ j ≤ len pattern →
  ¬ (start_j i max_distance ≤ j ≤ end_j (len pattern) i max_distance) →
  zlookup curr j = Some (max_distance + 5) ∧ max_distance < max_distance + 5.
Proof.
  intros Hd Hi Hrow Hj Hout. split; [|lia]. revert Hrow.
  unfold diagonal_row.
  intros (curr1 & _ & (curr2 & Hleft & Hright)%bind_Ok_inv)%bind_Ok_inv.
  unfold start_j, end_j in *.
  apply fill_spec in Hleft as [Hl _]; [|lia].
  apply fill_spec in Hright as [Hr Hr']; [|lia].
  destruct (decide (Z.min (len pattern) (i + max_distance) + 1 ≤ j)) as [Hc|Hc].
  - apply Hr. lia.
  - rewrite Hr' by lia. apply Hl. lia.
Qed.

Lemma diagonal_row_sentinels_witness :
  zlookup [3; 6; 1] 1 = Some (1 + 5) ∧ 1 < 1 + 5.
Proof.
  apply (diagonal_row_sentinels (str "XXX") (str "AB") 1 [2; 2; 2] [3; 6; 1] 3 1);
    [lia|lia|by vm_compute|by vm_compute|].
  unfold start_j, end_j. lia.
Defined.

(** [bad_character_table] maps every symbol of the pattern to the index of
    its rightmost occurrence; a lookup with default [-1] gives [-1] exactly
    for the symbols that do not occur. *)
Theorem bad_character_table_rightmost {Σ : Type} `{Countable Σ} (pattern : list Σ) :
  ∃ bad_char,
    bad_character_table pattern = Ok bad_char ∧
    ∀ c,
      let r := dict_get bad_char c (-1) in
      (r = -1 ∨ zlookup pattern r = Some c) ∧
      ∀ t, zlookup pattern t = Some c → t ≤ r.
Proof.
  pose proof (len_nonneg pattern). unfold bad_character_table.
  destruct (foldM_range_inv
              (λ (bad_char : gmap Σ Z) i, c ← getitem pattern i; Ok (<[c := i]> bad_char))
              (λ k bad_char, ∀ c,
                 (dict_get bad_char c (-1) = -1 ∨
                  zlookup pattern (dict_get bad_char c (-1)) = Some c) ∧
                 ∀ t, 0 ≤ t < k → zlookup pattern t = Some c →
                      t ≤ dict_get bad_char c (-1))
              0 (len pattern) ∅) as (bad_char & -> & Hbc); [lia| | |].
  - intros c. unfold dict_get. rewrite lookup_empty. simpl. split; [by left|]. intros; lia.
  - intros k bc Hk Hinv. destruct (zlookup_is_Some pattern k) as [ck Hck]; [lia|].
    rewrite (getitem_Ok _ _ _ Hck), bind_Ok. eexists; split; [done|].
    intros c. rewrite dict_get_insert. destruct (Hinv c) as [Hat Hocc].
    destruct (decide (ck = c)) as [->|Hne].
    + split; [by right|]. intros; lia.
    + split; [done|]. intros t Ht Hc. apply Hocc; [|done].
      destruct (decide (t = k)) as [->|?]; [congruence|lia].
  - exists bad_char. split; [done|]. intros c. cbv zeta.
    destruct (Hbc c) as [Hat Hocc]. split; [done|].
    intros t Ht. apply Hocc; [|done]. by apply zlookup_Some_range in Ht.
Qed.

(** ** The edit distance and the thresholds of the window searches *)

Lemma lev_cell_max {Σ : Type} `{Countable Σ} (a b : list Σ) i j :
  lev_cell a b i j ≤ Z.max (Z.of_nat i) (Z.of_nat j).
Proof.
  revert j. induction i as [|i IHi]; intros j; [simpl; lia|].
  destruct j as [|j]; [rewrite lev_cell_0_r; lia|].
  rewrite lev_cell_S. pose proof (IHi j). pose proof (cost_at_range a b i j).
  unfold min3. lia.
Qed.

(** [levenshtein_distance] lies between the difference of the two lengths
    and the larger of them. *)
Theorem levenshtein_distance_bounds {Σ : Type} `{Countable Σ} (a b : list Σ) :
  ∃ dist,
    levenshtein_distance a b = Ok dist ∧
    Z.abs (len a - len b) ≤ dist ≤ Z.max (len a) (len b).
Proof.
  exists (edit_distance a b). split; [apply levenshtein_distance_spec|].
  unfold edit_distance, len.
  pose proof (lev_cell_lower a b (length a) (length b)).
  pose proof (lev_cell_max a b (length a) (length b)). lia.
Qed.

Lemma filter_ext_in (p q : Z → bool) (l : list Z) :
  (∀ x, x ∈ l → p x = q x) → List.filter p l = List.filter q l.
Proof.
  induction l as [|x l IH]; intros Hpq; [done|]. simpl.
  rewrite (Hpq x) by left. rewrite IH; [done|]. intros. apply Hpq. by right.
Qed.

Lemma filter_sublist (p q : Z → bool) (l : list Z) :
  (∀ x, p x = true → q x = true) → sublist (List.filter p l) (List.filter q l).
Proof.
  intros Hpq. induction l as [|x l IH]; [constructor|]. simpl.
  destruct (p x) eqn:Hp.
  - rewrite (Hpq x Hp). by constructor.
  - destruct (q x); [by constructor|done].
Qed.

Lemma filter_all (p : Z → bool) (l : list Z) :
  (∀ x, x ∈ l → p x = true) → List.filter p l = l.
Proof.
  induction l as [|x l IH]; intros Hp; [done|]. simpl.
  rewrite (Hp x) by left. f_equal. apply IH. intros. apply Hp. by right.
Qed.

Lemma window_within_zero {Σ : Type} `{Countable Σ} (text pattern : list Σ) s :
  window_within text pattern 0 s = occurs_at text pattern s.
Proof.
  unfold window_within, occurs_at.
  pose proof (edit_distance_nonneg (slice text s (s + len pattern)) pattern).
  destruct (decide (slice text s (s + len pattern) = pattern)) as [Heq|Hne].
  - rewrite bool_decide_eq_true_2 by done. rewrite Heq, edit_distance_refl. done.
  - rewrite bool_decide_eq_false_2 by done.
    destruct (Z.leb_spec (edit_distance (slice text s (s + len pattern)) pattern) 0)
      as [Hle|]; [|done].
    exfalso. apply Hne. apply edit_distance_zero. lia.
Qed.

(** With [max_distance = 0] the two window searches return exactly the
    occurrences that the exact matchers return. *)
Theorem zero_distance_search_is_exact {Σ : Type} `{Countable Σ}
    (text pattern : list Σ) :
  pattern ≠ [] → len pattern ≤ len text →
  ∃ matches,
    levenshtein_search text pattern 0 = Ok matches ∧
    levenshtein_search_optimized text pattern 0 = Ok matches ∧
    kmp_search text pattern = Ok matches ∧
    boyer_moore_search text pattern = Ok matches.
Proof.
  intros Hm%len_pos_of_nonempty Hfit. exists (occurrences text pattern).
  assert (approx_matches text pattern 0 = occurrences text pattern) as <-.
  { unfold approx_matches, occurrences, occurrences_below.
    apply filter_ext_in. intros. apply window_within_zero. }
  split; [apply levenshtein_search_spec; lia|].
  split; [apply levenshtein_search_optimized_spec; lia|].
  assert (approx_matches text pattern 0 = occurrences text pattern) as ->.
  { unfold approx_matches, occurrences, occurrences_below.
    apply filter_ext_in. intros. apply window_within_zero. }
  split; [by apply kmp_search_spec|by apply boyer_moore_search_spec].
Qed.

Lemma zero_distance_search_is_exact_witness :
  ∃ matches,
    levenshtein_search (str "ATCGATCGATCG") (str "GATC") 0 = Ok matches ∧
    levenshtein_search_optimized (str "ATCGATCGATCG") (str "GATC") 0 = Ok matches ∧
    kmp_search (str "ATCGATCGATCG") (str "GATC") = Ok matches ∧
    boyer_moore_search (str "ATCGATCGATCG") (str "GATC") = Ok matches.
Proof.
  apply zero_distance_search_is_exact; [discriminate|by vm_compute].
Defined.

(** Raising the threshold never loses a match: the list for the smaller
    threshold is a sub-list of the list for the larger one. *)
Theorem window_search_monotone {Σ : Type} `{Countable Σ}
    (text pattern : list Σ) (d1 d2 : Z) :
  d1 ≤ d2 →
  ∃ l1 l2,
    levenshtein_search text pattern d1 = Ok l1 ∧
    levenshtein_search text pattern d2 = Ok l2 ∧
    levenshtein_search_optimized text pattern d1 = Ok l1 ∧
    levenshtein_search_optimized text pattern d2 = Ok l2 ∧
    sublist l1 l2.
Proof.
  intros Hd. destruct (len_zero_cases pattern) as [Hm|Hm].
  { exists (range 0 (len text + 1)), (range 0 (len text + 1)).
    unfold levenshtein_search, levenshtein_search_optimized. rewrite Hm. simpl.
    by repeat split. }
  destruct (decide (len text < len pattern)) as [Hshort|Hfit].
  { exists [], []. unfold levenshtein_search, levenshtein_search_optimized.
    assert ((len pattern =? 0) = false) as -> by lia.
    assert ((len text <? len pattern) = true) as -> by lia. by repeat split. }
  exists (approx_matches text pattern d1), (approx_matches text pattern d2).
  split; [apply levenshtein_search_spec; lia|].
  split; [apply levenshtein_search_spec; lia|].
  split; [apply levenshtein_search_optimized_spec; lia|].
  split; [apply levenshtein_search_optimized_spec; lia|].
  apply filter_sublist. intros x. unfold window_within. lia.
Qed.

Lemma window_search_monotone_witness :
  ∃ l1 l2,
    levenshtein_search (str "CGATGGCCATGAACGTG") (str "ATG") 0 = Ok l1 ∧
    levenshtein_search (str "CGATGGCCATGAACGTG") (str "ATG") 1 = Ok l2 ∧
    levenshtein_search_optimized (str "CGATGGCCATGAACGTG") (str "ATG") 0 = Ok l1 ∧
    levenshtein_search_optimized (str "CGATGGCCATGAACGTG") (str "ATG") 1 = Ok l2 ∧
    sublist l1 l2.
Proof. apply window_search_monotone. lia. Defined.

(** Once the threshold reaches the pattern length, every window matches:
    the window searches return all offsets [0..len(text) - len(pattern)]. *)
Theorem window_search_saturates {Σ : Type} `{Countable Σ}
    (text pattern : list Σ) (max_distance : Z) :
  pattern ≠ [] → len pattern ≤ len text → len pattern ≤ max_distance →
  levenshtein_search text pattern max_distance
    = Ok (range 0 (len text - len pattern + 1)) ∧
  levenshtein_search_optimized text pattern max_distance
    = Ok (range 0 (len text - len pattern + 1)).
Proof.
  intros Hm%len_pos_of_nonempty Hfit Hd.
  assert (approx_matches text pattern max_distance
          = range 0 (len text - len pattern + 1)) as <-.
  { unfold approx_matches. apply filter_all. intros s Hs%elem_of_range.
    unfold window_within.
    pose proof (lev_cell_max (slice text s (s + len pattern)) pattern
                  (length (slice text s (s + len pattern))) (length pattern)) as Hmax.
    fold (edit_distance (slice text s (s + len pattern)) pattern) in Hmax.
    fold (len (slice text s (s + len pattern))) in Hmax. fold (len pattern) in Hmax.
    rewrite len_slice in Hmax by lia. lia. }
  split; [apply levenshtein_search_spec; lia|apply levenshtein_search_optimized_spec; lia].
Qed.

Lemma window_search_saturates_witness :
  levenshtein_search (str "ATCGATCG") (str "GGG") 3 = Ok (range 0 (8 - 3 + 1)) ∧
  levenshtein_search_optimized (str "ATCGATCG") (str "GGG") 3 = Ok (range 0 (8 - 3 + 1)).
Proof.
  apply (window_search_saturates (str "ATCGATCG") (str "GGG") 3);
    [discriminate|by vm_compute|by vm_compute].
Defined.

(** On the empty pattern the reference search and the exact matchers differ:
    [native_search] returns every offset [0..len(text)], [boyer_moore_search]
    and [kmp_search] return the empty list. *)
Theorem empty_pattern_exact_search {Σ : Type} `{Countable Σ} (text : list Σ) :
  native_search text [] = Ok (range 0 (len text + 1)) ∧
  boyer_moore_search text [] = Ok [] ∧
  kmp_search text [] = Ok [] ∧
  range 0 (len text + 1) ≠ [].
Proof.
  pose proof (len_nonneg text). split; [|split; [done|split; [done|]]].
  - rewrite native_search_spec by (unfold len at 1; simpl; lia).
    f_equal. unfold occurrences, occurrences_below.
    replace (len text - len (@nil Σ) + 1) with (len text + 1)
      by (unfold len at 3; simpl; lia).
    apply filter_all. intros s Hs%elem_of_range. unfold occurs_at.
    apply bool_decide_eq_true_2.
    replace (s + len (@nil Σ)) with s by (unfold len; simpl; lia).
    unfold slice. by rewrite Z.sub_diag.
  - rewrite range_cons by lia. discriminate.
Qed.

(** ** Comparison counts *)

(** A loop whose every step adds [k] to a counter adds [k] per element. *)
Lemma foldM_counter {S X} (f : S → X → result S) (cnt : S → Z) (k : Z) xs s s' :
  (∀ s x s', x ∈ xs → f s x = Ok s' → cnt s' = cnt s + k) →
  foldM f xs s = Ok s' → cnt s' = cnt s + k * len xs.
Proof.
  revert s. induction xs as [|x xs IH]; intros s Hstep; simpl.
  - intros [= <-]. unfold len. simpl. lia.
  - intros (s1 & Hs1 & Hrest)%bind_Ok_inv.
    rewrite (IH s1); [|intros ? ? ? ?; apply Hstep; by right|done].
    rewrite (Hstep s x s1); [|by left|done].
    unfold len. simpl length. lia.
Qed.

Section Counts.

Context {Σ : Type} `{Countable Σ}.
Variables (text pattern : list Σ).

Local Abbreviation n := (len text).
Local Abbreviation m := (len pattern).

Lemma counting_row_count start st i st' :
  counting_row text pattern start m st i = Ok st' → st'.2 = st.2 + m.
Proof.
  destruct st as [[prev curr] c]. unfold counting_row.
  intros (curr0 & _ & ([curr1 c1] & Hcells & [= <-])%bind_Ok_inv)%bind_Ok_inv.
  cbn [snd].
  apply (foldM_counter _ snd 1) in Hcells.
  - cbn [snd] in Hcells. rewrite Hcells. pose proof (len_nonneg pattern).
    rewrite len_range by lia. lia.
  - intros [c0 k0] j [c0' k0'] _. unfold counting_cell.
    intros (x & _ & (c2 & _ & [= <- <-])%bind_Ok_inv)%bind_Ok_inv. done.
Qed.

Lemma counting_rows_count start st st' :
  foldM (counting_row text pattern start m) (range 1 (m + 1)) st = Ok st' →
  st'.2 = st.2 + m * m.
Proof.
  intros Hrun. apply (foldM_counter _ snd m) in Hrun.
  - rewrite Hrun. pose proof (len_nonneg pattern). rewrite len_range by lia. lia.
  - intros s i s' _. apply counting_row_count.
Qed.

Lemma kmp_count_loop_lower lps fuel i j occ (c : Z) r c' :
  kmp_count_loop fuel text pattern n m lps i j occ c = Ok (r, c') →
  i ≤ c → n ≤ c'.
Proof.
  revert i j occ c. induction fuel as [|fuel IH]; intros i j occ c; [done|].
  cbn [kmp_count_loop]. destruct (Z.ltb_spec i n) as [Hin|Hin].
  2:{ intros [= <- <-] Hc. lia. }
  intros (x & _ & (y & _ & Hrest)%bind_Ok_inv)%bind_Ok_inv Hc.
  destruct (decide (x = y)).
  - destruct (j + 1 =? m).
    + apply bind_Ok_inv in Hrest as (j' & _ & Hrest). apply IH in Hrest; lia.
    + apply IH in Hrest; lia.
  - destruct (negb (j =? 0)).
    + apply bind_Ok_inv in Hrest as (j' & _ & Hrest). apply IH in Hrest; lia.
    + apply IH in Hrest; lia.
Qed.

Lemma bm_count_compare_count fuel s j (c : Z) j' c' :
  bm_count_compare fuel text pattern s j c = Ok (j', c') → -1 ≤ j →
  -1 ≤ j' ≤ j ∧ c' = c + (j - j') + (if 0 <=? j' then 1 else 0).
Proof.
  revert j c. induction fuel as [|fuel IH]; intros j c; [done|].
  cbn [bm_count_compare]. destruct (Z.leb_spec 0 j) as [Hpos|Hneg].
  2:{ intros [= <- <-] Hj. assert ((0 <=? j) = false) as -> by lia. lia. }
  intros (x & _ & (y & _ & Hrest)%bind_Ok_inv)%bind_Ok_inv Hj.
  destruct (decide (x ≠ y)).
  - injection Hrest as <- <-. assert ((0 <=? j) = true) as -> by lia. lia.
  - apply IH in Hrest as [Hj' ->]; [|lia]. split; lia.
Qed.

Lemma bm_advance_positive good_suffix bad_char s j step :
  good_suffix_spec pattern good_suffix → 1 ≤ m → -1 ≤ j < m →
  bm_advance text n m bad_char good_suffix s j = Ok step → 1 ≤ step.
Proof.
  intros Hgs Hm Hj. unfold bm_advance. destruct (Z.ltb_spec j 0) as [Hneg|Hpos].
  - destruct (s + m <? n); [|intros [= <-]; lia].
    destruct (good_suffix_le_m pattern good_suffix 0 Hgs) as (v & Hv & Hv1 & _); [lia|].
    rewrite (getitem_Ok _ _ _ Hv). intros [= <-]. lia.
  - intros (c & _ & Hrest)%bind_Ok_inv.
    destruct (good_suffix_le_m pattern good_suffix j Hgs) as (v & Hv & Hv1 & _); [lia|].
    rewrite (getitem_Ok _ _ _ Hv), bind_Ok in Hrest. injection Hrest as <-. lia.
Qed.

Lemma bm_count_loop_bounds bad_char good_suffix fuel s matches (c : Z) r c' :
  good_suffix_spec pattern good_suffix → 1 ≤ m → m ≤ n →
  bm_count_loop fuel text pattern n m bad_char good_suffix s matches c = Ok (r, c') →
  0 ≤ s → m * len matches ≤ c → c ≤ m * Z.min s (n - m + 1) →
  m * len r ≤ c' ≤ m * (n - m + 1).
Proof.
  intros Hgs Hm Hfit. revert s matches c.
  induction fuel as [|fuel IH]; intros s matches c; [done|].
  cbn [bm_count_loop]. destruct (Z.leb_spec s (n - m)) as [Hin|Hout].
  2:{ intros [= <- <-] Hs Hlo Hhi. split; [done|nia]. }
  intros ([j c1] & Hcmp & (step & Hadv & Hrest)%bind_Ok_inv)%bind_Ok_inv Hs Hlo Hhi.
  apply bm_count_compare_count in Hcmp as [Hj Hc1]; [|lia].
  apply bm_advance_positive in Hadv; [|done|done|lia].
  apply IH in Hrest; [done|lia| |].
  - destruct (Z.ltb_spec j 0) as [Hneg|Hpos].
    + rewrite len_app. change (len [s]) with 1.
      assert ((0 <=? j) = false) as E by lia. rewrite E in Hc1. nia.
    + destruct (0 <=? j); nia.
  - assert (c1 ≤ c + m) by (destruct (0 <=? j) eqn:E; lia).
    assert (c ≤ m * s) by nia.
    assert (s + 1 ≤ Z.min (s + step) (n - m + 1)) by lia. nia.
Qed.

End Counts.

(** [count_comparisons_levenshtein] counts one comparison per cell of every
    window's table: [(len(text) - len(pattern) + 1) * len(pattern)^2] in all,
    whatever the symbols and the threshold are. *)
Theorem levenshtein_comparison_count {Σ : Type} `{Countable Σ}
    (text pattern : list Σ) (max_distance : Z) :
  pattern ≠ [] → len pattern ≤ len text →
  ∃ matches,
    count_comparisons_levenshtein text pattern max_distance
    = Ok (matches, (len text - len pattern + 1) * (len pattern * len pattern)).
Proof.
  intros Hm%len_pos_of_nonempty Hfit.
  destruct (count_comparisons_levenshtein_spec text pattern max_distance)
    as (c & Hrun & _); [lia|lia|].
  exists (approx_matches text pattern max_distance). rewrite Hrun. do 2 f_equal.
  unfold count_comparisons_levenshtein in Hrun.
  assert ((len pattern =? 0) = false) as E1 by lia.
  assert ((len text <? len pattern) = false) as E2 by lia.
  rewrite E1, E2 in Hrun.
  apply (foldM_counter _ snd (len pattern * len pattern)) in Hrun.
  - cbn [snd] in Hrun. rewrite Hrun. rewrite len_range by lia. lia.
  - intros [ms k] start [ms' k'] _.
    intros ([[prev curr] k1] & Hrows & (d0 & _ & Hres)%bind_Ok_inv)%bind_Ok_inv.
    apply counting_rows_count in Hrows. cbn [snd] in *.
    destruct (d0 <=? max_distance); injection Hres as <- <-; done.
Qed.

Lemma levenshtein_comparison_count_witness :
  ∃ matches,
    count_comparisons_levenshtein (str "ATCGATCG") (str "GATG") 1
    = Ok (matches, (len (str "ATCGATCG") - len (str "GATG") + 1)
                   * (len (str "GATG") * len (str "GATG"))).
Proof.
  apply levenshtein_comparison_count; [discriminate|by vm_compute].
Defined.

(** [count_comparisons_kmp] makes at least one comparison per text symbol and
    at most two. *)
Theorem kmp_comparisons_linear {Σ : Type} `{Countable Σ} (text pattern : list Σ) :
  pattern ≠ [] → len pattern ≤ len text →
  ∃ matches comparisons,
    count_comparisons_kmp text pattern = Ok (matches, comparisons) ∧
    len text ≤ comparisons ≤ 2 * len text.
Proof.
  intros Hm%len_pos_of_nonempty Hfit.
  destruct (count_comparisons_kmp_spec text pattern Hm Hfit) as (c & Hrun & Hc).
  exists (occurrences text pattern), c. split; [done|]. split; [|lia].
  unfold count_comparisons_kmp in Hrun.
  assert ((len pattern =? 0) = false) as E1 by lia.
  assert ((len text <? len pattern) = false) as E2 by lia.
  rewrite E1, E2 in Hrun. cbn [orb] in Hrun.
  apply bind_Ok_inv in Hrun as (lps & _ & Hloop).
  apply kmp_count_loop_lower in Hloop; lia.
Qed.

Lemma kmp_comparisons_linear_witness :
  ∃ matches comparisons,
    count_comparisons_kmp (str "ATCGATCG") (str "GATC") = Ok (matches, comparisons) ∧
    len (str "ATCGATCG") ≤ comparisons ≤ 2 * len (str "ATCGATCG").
Proof.
  apply kmp_comparisons_linear; [discriminate|by vm_compute].
Defined.

(** [count_comparisons_boyer_moore] spends [len(pattern)] comparisons on every
    match it reports and at most [len(pattern)] on each of the at most
    [len(text) - len(pattern) + 1] windows it visits. *)
Theorem boyer_moore_comparisons_bounded {Σ : Type} `{Countable Σ}
    (text pattern : list Σ) :
  pattern ≠ [] → len pattern ≤ len text →
  ∃ matches comparisons,
    count_comparisons_boyer_moore text pattern = Ok (matches, comparisons) ∧
    len pattern * len matches ≤ comparisons ∧
    comparisons ≤ len pattern * (len text - len pattern + 1).
Proof.
  intros Hm%len_pos_of_nonempty Hfit.
  destruct (count_comparisons_boyer_moore_spec text pattern Hm Hfit) as (c & Hrun & Hc).
  exists (occurrences text pattern), c. split; [done|].
  unfold count_comparisons_boyer_moore in Hrun.
  assert ((len pattern =? 0) = false) as E1 by lia.
  assert ((len text <? len pattern) = false) as E2 by lia.
  rewrite E1, E2 in Hrun.
  destruct (bad_character_table_spec pattern) as (bad_char & Hbc & _).
  destruct (good_suffix_table_spec pattern Hm) as (good_suffix & Hgs & Hspec).
  rewrite Hbc, bind_Ok, Hgs, bind_Ok in Hrun.
  apply (bm_count_loop_bounds text pattern) in Hrun; [lia|done|done|done|lia| |].
  - unfold len at 2. simpl. lia.
  - lia.
Qed.

Lemma boyer_moore_comparisons_bounded_witness :
  ∃ matches comparisons,
    count_comparisons_boyer_moore (str "AAAAAAA") (str "AAA") = Ok (matches, comparisons) ∧
    len (str "AAA") * len matches ≤ comparisons ∧
    comparisons ≤ len (str "AAA") * (len (str "AAAAAAA") - len (str "AAA") + 1).
Proof.
  apply boyer_moore_comparisons_bounded; [discriminate|by vm_compute].
Defined.

(** ** The shift after a full match *)

Lemma setitem_Ok_inv {T} (l l' : list T) i x :
  0 ≤ i → setitem l i x = Ok l' → l' = <[Z.to_nat i := x]> l ∧ i < len l.
Proof.
  intros Hi Hset. destruct (decide (i < len l)) as [Hin|Hout].
  - rewrite setitem_Ok in Hset by lia. by injection Hset as <-.
  - rewrite setitem_out_of_range in Hset by lia. discriminate.
Qed.

Section Period.

Context {Σ : Type} `{Countable Σ}.
Variable pattern : list Σ.

Local Abbreviation m := (len pattern).

(** A border of the whole pattern, seen from the left and from the right. *)
Lemma pborder_sborder k : 0 ≤ k < m → pborder pattern k m ↔ sborder pattern 0 (m - k).
Proof.
  intros Hk. split.
  - intros (_ & _ & Hb). split; [lia|]. split; [lia|].
    intros t Ht. rewrite Z.add_0_l. rewrite (Hb t) by lia. f_equal; lia.
  - intros (_ & _ & Hb). split; [lia|]. split; [lia|].
    intros t Ht. specialize (Hb t ltac:(lia)). rewrite Z.add_0_l in Hb.
    rewrite Hb. f_equal; lia.
Qed.

(** The later steps of the second phase leave [shift[0]] alone. *)
Lemma prefix_step_frame border st i st' :
  1 ≤ i → prefix_step m border st i = Ok st' → zlookup st'.1 0 = zlookup st.1 0.
Proof.
  destruct st as [shift j]. intros Hi. unfold prefix_step.
  intros (s & _ & (shift1 & Hstore & Hrest)%bind_Ok_inv)%bind_Ok_inv.
  assert (zlookup shift1 0 = zlookup shift 0) as Hkeep.
  { destruct (s =? m); [|by injection Hstore as <-].
    apply setitem_Ok_inv in Hstore as [-> _]; [|lia].
    apply zlookup_insert_ne; lia. }
  destruct (i =? j).
  - apply bind_Ok_inv in Hrest as (j1 & _ & [= <-]). done.
  - by injection Hrest as <-.
Qed.

Lemma good_suffix_first_entry :
  1 ≤ m →
  ∃ shift j0,
    good_suffix_table pattern = Ok shift ∧ zlookup shift 0 = Some j0 ∧
    sborder pattern 0 j0 ∧ ∀ j', sborder pattern 0 j' → j0 ≤ j'.
Proof.
  intros Hm. destruct (good_suffix_table_spec pattern Hm) as (shiftF & Hrun & _).
  exists shiftF. pose proof Hrun as Hrun'. unfold good_suffix_table in Hrun.
  rewrite setitem_Ok in Hrun by (rewrite len_repeat_list; lia). rewrite bind_Ok in Hrun.
  destruct (border_outer_spec pattern (Z.to_nat (m + 1)) (repeat_list m m)
              (<[Z.to_nat m := m + 1]> (repeat_list 0 (m + 1))) m (m + 1))
    as (shift & border & Hout & Hbc & Hok & _); [|lia|].
  { split; [lia|]. split; [|split; [|split; [|split]]].
    - split; [rewrite len_insert; apply len_repeat_list; lia|].
      intros k Hk. assert (k = m) as -> by lia. exists (m + 1).
      rewrite zlookup_insert_eq by (rewrite len_repeat_list; lia).
      split; [done|]. split; [apply sborder_end; lia|]. intros j' (? & _). lia.
    - apply sborder_end. lia.
    - intros j' (? & _). lia.
    - split; [apply len_repeat_list; lia|]. intros q Hq. exists m.
      rewrite zlookup_repeat_list by lia. split; [done|]. by left.
    - intros i j Hi (_ & _ & (? & ? & _) & _). lia. }
  rewrite Hout, bind_Ok in Hrun.
  destruct Hbc as [Hlb Hbc]. destruct (Hbc 0) as (j0 & Hj0 & Hb0 & Hmin0); [lia|].
  rewrite (getitem_Ok _ _ _ Hj0), bind_Ok in Hrun.
  exists j0. split; [done|]. split; [|by split].
  apply bind_Ok_inv in Hrun as ([shift' j'] & Hfold & [= <-]).
  rewrite range_cons in Hfold by lia. cbn [foldM] in Hfold.
  apply bind_Ok_inv in Hfold as (st1 & Hfirst & Hrest).
  assert (zlookup st1.1 0 = Some j0) as Hst1.
  { destruct Hok as [Hl Hs]. destruct (Hs 0) as (v & Hv & Hvm); [lia|].
    assert (v = m) as -> by lia.
    unfold prefix_step in Hfirst.
    rewrite (getitem_Ok _ _ _ Hv), bind_Ok, Z.eqb_refl in Hfirst.
    rewrite setitem_Ok, bind_Ok in Hfirst by lia.
    assert ((0 =? j0) = false) as E by (destruct Hb0; lia). rewrite E in Hfirst.
    injection Hfirst as <-. cbn [fst]. apply zlookup_insert_eq. lia. }
  apply (foldM_preserves _ (λ st, zlookup st.1 0 = Some j0)) in Hrest; [done| |done].
  intros st i st' Hi%elem_of_range Hst Hstep.
  by rewrite (prefix_step_frame border st i st' ltac:(lia) Hstep).
Qed.

End Period.

(** The shift that [boyer_moore_search] applies after a full match,
    [good_suffix_table(pattern)[0]], is the smallest period of the pattern:
    [len(pattern)] minus the last entry of [compute_lps_table(pattern)]. *)
Theorem good_suffix_first_is_period {Σ : Type} `{Countable Σ} (pattern : list Σ) :
  pattern ≠ [] →
  ∃ lps shift k v,
    compute_lps_table pattern = Ok lps ∧ good_suffix_table pattern = Ok shift ∧
    getitem lps (len pattern - 1) = Ok k ∧ getitem shift 0 = Ok v ∧
    v = len pattern - k.
Proof.
  intros Hm%len_pos_of_nonempty.
  destruct (compute_lps_table_spec pattern Hm) as (lps & Hlps & Hl & Hcorrect).
  destruct (lps_lookup pattern lps (len pattern) (len pattern) Hcorrect)
    as (k & Hk & Hr & Hb & Hmax); [lia|].
  destruct (good_suffix_first_entry pattern Hm) as (shift & j0 & Hgs & Hj0 & Hb0 & Hmin0).
  exists lps, shift, k, j0. split; [done|]. split; [done|].
  split; [by apply getitem_Ok|]. split; [by apply getitem_Ok|].
  assert (j0 ≤ len pattern) as Hj0m by (apply Hmin0, sborder_empty; lia).
  assert (1 ≤ j0) as Hj01 by (destruct Hb0; lia).
  assert (j0 ≤ len pattern - k).
  { apply Hmin0. destruct (decide (k = 0)) as [->|Hk0].
    - rewrite Z.sub_0_r. apply sborder_empty. lia.
    - apply pborder_sborder; [lia|]. apply Hb. lia. }
  assert (len pattern - j0 ≤ k); [|lia].
  apply Hmax. apply pborder_sborder; [lia|].
  by replace (len pattern - (len pattern - j0)) with j0 by lia.
Qed.

Lemma good_suffix_first_is_period_witness :
  ∃ lps shift k v,
    compute_lps_table (str "GCAGAGAG") = Ok lps ∧
    good_suffix_table (str "GCAGAGAG") = Ok shift ∧
    getitem lps (len (str "GCAGAGAG") - 1) = Ok k ∧ getitem shift 0 = Ok v ∧
    v = len (str "GCAGAGAG") - k.
Proof. apply good_suffix_first_is_period. discriminate. Defined.

(** ** A match the banded search always reports *)

Section Spurious.

Context {Σ : Type} `{Countable Σ}.
Variables (text pattern : list Σ) (d : Z).

Local Abbreviation n := (len text).
Local Abbreviation m := (len pattern).

Hypothesis Hm : 2 ≤ m.
Hypothesis Hd : 1 ≤ d.
Hypothesis Hn : m + d ≤ n.

(** In row [m + d] the band is the single column [m]; its left neighbour
    [curr[m - 1]] is still the [0] of the fresh row when the cell is
    computed, so the cell is at most [0 + 1]. *)
Lemma diagonal_row_spurious prev :
  len prev = m + 1 →
  ∃ curr v, diagonal_row text pattern d prev (m + d) = Ok curr ∧
            zlookup curr m = Some v ∧ v ≤ 1.
Proof.
  intros Hlp. unfold diagonal_row, diagonal_band, diagonal_fresh_row.
  rewrite setitem_Ok by (rewrite len_repeat_list; lia). rewrite bind_Ok.
  unfold start_j, end_j.
  replace (Z.max 1 (m + d - d)) with m by lia.
  replace (Z.min m (m + d + d)) with m by lia.
  rewrite (range_cons m (m + 1)) by lia. rewrite (range_nil (m + 1) (m + 1)) by lia.
  cbn [foldM]. unfold diagonal_cell.
  set (fresh := <[Z.to_nat 0 := m + d]> (repeat_list 0 (m + 1))).
  assert (len fresh = m + 1) as Hlf
    by (unfold fresh; rewrite len_insert; apply len_repeat_list; lia).
  assert (zlookup fresh (m - 1) = Some 0) as Hleft.
  { unfold fresh. rewrite zlookup_insert_ne by lia. apply zlookup_repeat_list. lia. }
  destruct (zlookup_is_Some text (m + d - 1)) as [x Hx]; [lia|].
  destruct (zlookup_is_Some pattern (m - 1)) as [y Hy]; [lia|].
  destruct (zlookup_is_Some prev m) as [p Hp]; [lia|].
  destruct (zlookup_is_Some prev (m - 1)) as [q Hq]; [lia|].
  rewrite (getitem_Ok _ _ _ Hx), bind_Ok, (getitem_Ok _ _ _ Hy), bind_Ok.
  rewrite (getitem_Ok _ _ _ Hleft), bind_Ok, (getitem_Ok _ _ _ Hp), bind_Ok.
  rewrite (getitem_Ok _ _ _ Hq), bind_Ok.
  rewrite setitem_Ok by lia. rewrite !bind_Ok.
  set (cell := min3 (0 + 1) (p + 1) (q + subst_cost x y)).
  destruct (fill_ok (d + 5) 1 m (<[Z.to_nat m := cell]> fresh)) as (curr & Hfill & Hlc);
    [lia|rewrite len_insert; lia|].
  rewrite Hfill, bind_Ok. exists curr, cell. split; [done|].
  apply fill_spec in Hfill as [_ Hout]; [|lia].
  rewrite Hout by lia. split; [apply zlookup_insert_eq; lia|].
  unfold cell, min3. lia.
Qed.

Lemma diagonal_step_spurious matches prev :
  len prev = m + 1 →
  ∃ curr, diagonal_step text pattern d (matches, prev) (m + d) = Ok (matches ++ [d], curr).
Proof.
  intros Hlp. destruct (diagonal_row_spurious prev Hlp) as (curr & v & Hrow & Hv & Hv1).
  exists curr. unfold diagonal_step. rewrite Hrow, bind_Ok.
  assert ((m <=? m + d) = true) as -> by lia.
  rewrite (getitem_Ok _ _ _ Hv), !bind_Ok.
  assert ((v <=? d) = true) as -> by lia.
  by replace (m + d - m) with d by lia.
Qed.

(** A row never removes an offset from the list of matches. *)
Lemma diagonal_step_grows st i st' x :
  diagonal_step text pattern d st i = Ok st' → x ∈ st.1 → x ∈ st'.1.
Proof.
  destruct st as [matches prev]. unfold diagonal_step.
  intros (curr & _ & (hit & _ & [= <-])%bind_Ok_inv)%bind_Ok_inv Hx. cbn [fst] in *.
  destruct hit; [|done]. apply elem_of_app. by left.
Qed.

Lemma diagonal_search_spurious :
  n ≤ m + d + 1 →
  ∃ l, levenshtein_search_diagonal text pattern d = Ok l ∧ d ∈ l.
Proof.
  intros Hn'. unfold levenshtein_search_diagonal.
  assert ((m =? 0) = false) as -> by lia.
  assert ((n <? m) = false) as -> by lia.
  destruct (foldM_range_inv (diagonal_step text pattern d)
              (λ i st, banded_state pattern i st ∧ (m + d < i → d ∈ st.1))
              1 (n + 1) ([], range 0 (m + 1)))
    as ([matches prev] & -> & (_ & Hin)); [lia| | |].
  { split; [|lia]. split; [cbn [snd]; rewrite len_range; lia|]. split; constructor. }
  { intros i st Hi [Hst Hd']. 
    destruct (diagonal_step_ok text pattern d ltac:(lia) ltac:(lia) st i Hst)
      as (st' & Hstep & Hst'); [lia|lia|].
    exists st'. split; [done|]. split; [done|]. intros Hlate.
    destruct (decide (i = m + d)) as [->|Hne].
    - destruct st as [ms pv]. destruct Hst as (Hlp & _). cbn [snd] in Hlp.
      destruct (diagonal_step_spurious ms pv Hlp) as (curr & Hsp).
      rewrite Hsp in Hstep. injection Hstep as <-. cbn [fst].
      apply elem_of_app. right. by apply list_elem_of_singleton.
    - apply (diagonal_step_grows st i st' d Hstep). apply Hd'. lia. }
  rewrite bind_Ok. exists matches. split; [done|]. apply Hin. lia.
Qed.

End Spurious.

(** For a pattern of at least two symbols and [max_distance >= 1], on a text
    of length [len(pattern) + max_distance] or one more, the banded search
    returns a list that contains the offset [max_distance], whatever the
    symbols of the text and the pattern are. *)
Theorem diagonal_search_reports_max_distance {Σ : Type} `{Countable Σ}
    (text pattern : list Σ) (max_distance : Z) :
  2 ≤ len pattern → 1 ≤ max_distance →
  len pattern + max_distance ≤ len text ≤ len pattern + max_distance + 1 →
  ∃ l, levenshtein_search_diagonal text pattern max_distance = Ok l ∧
       max_distance ∈ l.
Proof.
  intros Hm Hd [Hn Hn']. by apply diagonal_search_spurious.
Qed.

Lemma diagonal_search_reports_max_distance_witness :
  ∃ l, levenshtein_search_diagonal (str "GGGGGG") (str "ACT") 2 = Ok l ∧ 2 ∈ l.
Proof.
  apply diagonal_search_reports_max_distance; [by vm_compute|lia|by vm_compute].
Defined.

(** ** The literal regular-expression search *)

(** The offsets of [l] that a scan keeps which starts at [pos] and resumes
    [gap] after every offset it takes. *)
Fixpoint non_overlapping (gap pos : Z) (l : list Z) : list Z :=
  match l with
  | [] => []
  | s :: l =>
    if pos <=? s then s :: non_overlapping gap (s + gap) l
    else non_overlapping gap pos l
  end.

Lemma non_overlapping_skip gap (p : Z → bool) a b pos :
  a ≤ pos →
  non_overlapping gap pos (List.filter p (range a b)) =
  non_overlapping gap pos (List.filter p (range pos b)).
Proof.
  intros Hap. remember (Z.to_nat (pos - a)) as d eqn:Hd.
  revert a Hap Hd. induction d as [|d IH]; intros a Hap Hd.
  - by replace a with pos by lia.
  - destruct (decide (a < b)) as [Hab|Hab].
    2:{ by rewrite !range_nil by lia. }
    rewrite (range_cons a) by lia. simpl. destruct (p a); simpl.
    + assert ((pos <=? a) = false) as -> by lia. apply IH; lia.
    + apply IH; lia.
Qed.

Lemma non_overlapping_sublist gap pos l : sublist (non_overlapping gap pos l) l.
Proof.
  revert pos. induction l as [|s l IH]; intros pos; simpl; [done|].
  destruct (pos <=? s); [by apply sublist_skip|by apply sublist_cons].
Qed.

Lemma non_overlapping_lower gap pos l :
  0 ≤ gap → Forall (λ s, pos ≤ s) (non_overlapping gap pos l).
Proof.
  intros Hgap. revert pos. induction l as [|s l IH]; intros pos; simpl; [done|].
  destruct (Z.leb_spec pos s) as [Hs|Hs]; [|done].
  constructor; [done|]. eapply Forall_impl; [apply (IH (s + gap))|].
  simpl. intros; lia.
Qed.

Lemma non_overlapping_apart gap pos l :
  0 ≤ gap → StronglySorted (λ a b, a + gap ≤ b) (non_overlapping gap pos l).
Proof.
  intros Hgap. revert pos. induction l as [|s l IH]; intros pos; simpl; [constructor|].
  destruct (pos <=? s); [|done].
  apply StronglySorted_cons. split; [|done]. by apply non_overlapping_lower.
Qed.

Lemma non_overlapping_covers gap pos l s :
  1 ≤ gap → StronglySorted Z.lt l → s ∈ l → pos ≤ s →
  ∃ r, r ∈ non_overlapping gap pos l ∧ r ≤ s < r + gap.
Proof.
  intros Hgap Hsorted. revert pos.
  induction Hsorted as [|x l Hsorted IH Hx]; intros pos Hs Hpos; [by inversion Hs|].
  simpl. apply elem_of_cons in Hs as [->|Hs].
  - assert ((pos <=? x) = true) as -> by lia. exists x. split; [left|lia].
  - rewrite Forall_forall in Hx. specialize (Hx _ Hs).
    destruct (Z.leb_spec pos x) as [Hpx|Hpx].
    + destruct (decide (s < x + gap)) as [Hnear|Hfar].
      * exists x. split; [left|lia].
      * destruct (IH (x + gap) Hs) as (r & Hr & Hrs); [lia|].
        exists r. split; [by right|done].
    + by apply IH.
Qed.

Lemma non_overlapping_all gap pos l :
  StronglySorted (λ a b, a + gap ≤ b) l → Forall (λ s, pos ≤ s) l →
  non_overlapping gap pos l = l.
Proof.
  intros Hsorted. revert pos.
  induction Hsorted as [|x l Hsorted IH Hx]; intros pos Hpos; [done|].
  simpl. apply Forall_cons in Hpos as [Hpx _].
  assert ((pos <=? x) = true) as -> by lia. f_equal. by apply IH.
Qed.

Lemma strongly_sorted_either (R : Z → Z → Prop) l a b :
  StronglySorted R l → a ∈ l → b ∈ l → a = b ∨ R a b ∨ R b a.
Proof.
  induction 1 as [|x l Hsorted IH Hx]; intros Ha Hb; [by inversion Ha|].
  rewrite Forall_forall in Hx.
  apply elem_of_cons in Ha as [->|Ha]; apply elem_of_cons in Hb as [->|Hb].
  - by left.
  - right. left. by apply Hx.
  - right. right. by apply Hx.
  - by apply IH.
Qed.

Section Regex.

Context {Σ : Type} `{Countable Σ}.
Variables (text pattern : list Σ).

Local Abbreviation n := (len text).
Local Abbreviation m := (len pattern).
Local Abbreviation gap := (Z.max 1 (len pattern)).

Lemma finditer_loop_spec fuel matches pos :
  0 ≤ pos → Z.max 0 (n - m + 1 - pos) < Z.of_nat fuel →
  finditer_loop fuel text pattern matches pos =
  Ok (matches ++ non_overlapping gap pos
                   (List.filter (occurs_at text pattern) (range pos (n - m + 1)))).
Proof.
  revert matches pos. induction fuel as [|fuel IH]; intros matches pos Hpos Hfuel; [lia|].
  cbn [finditer_loop]. unfold str_find.
  assert ((pos <? 0) = false) as -> by lia.
  destruct (decide (pos ≤ n - m + 1)) as [Hin|Hout].
  2:{ rewrite range_nil by lia. simpl. by rewrite app_nil_r. }
  pose proof (find_range (occurs_at text pattern) pos (n - m + 1) Hin) as Hfind.
  unfold occurs_at at 1 in Hfind.
  destruct (List.find _ (range pos (n - m + 1))) as [idx|].
  - destruct Hfind as (Hidx & Hocc & Hnone).
    assert ((idx =? -1) = false) as -> by lia.
    rewrite IH by lia.
    rewrite (range_split pos idx (n - m + 1)) by lia.
    rewrite List.filter_app, Hnone, app_nil_l.
    rewrite (range_cons idx) by lia. simpl. rewrite Hocc. simpl.
    assert ((pos <=? idx) = true) as -> by lia.
    rewrite (non_overlapping_skip gap _ (idx + 1) _ (idx + gap)) by lia.
    by rewrite <- app_assoc.
  - simpl. rewrite Hfind. simpl. by rewrite app_nil_r.
Qed.

Lemma regex_search_spec :
  regex_search text pattern = Ok (non_overlapping gap 0 (occurrences text pattern)).
Proof.
  pose proof (len_nonneg text). pose proof (len_nonneg pattern).
  unfold regex_search. rewrite finditer_loop_spec by lia. done.
Qed.

Lemma native_search_total :
  native_search text pattern = Ok (occurrences text pattern).
Proof.
  destruct (decide (m ≤ n)) as [Hfit|Hshort]; [by apply native_search_spec|].
  pose proof (len_nonneg text).
  unfold native_search, occurrences, occurrences_below.
  rewrite range_nil by lia.
  destruct (Z.to_nat (n + 2)) as [|fuel] eqn:E; [lia|].
  cbn [native_loop]. unfold str_find. simpl. by rewrite range_nil by lia.
Qed.

End Regex.

(** [regex_search] returns a sub-list of the offsets [native_search]
    returns: the reported offsets are at least [len(pattern)] apart, so the
    reported matches do not overlap, and every occurrence of the pattern
    starts inside a reported match. *)
Theorem regex_search_skips_overlaps {Σ : Type} `{Countable Σ} (text pattern : list Σ) :
  ∃ l l',
    regex_search text pattern = Ok l ∧ native_search text pattern = Ok l' ∧
    sublist l l' ∧
    StronglySorted (λ a b, a + Z.max 1 (len pattern) ≤ b) l ∧
    ∀ s, s ∈ l' → ∃ r, r ∈ l ∧ r ≤ s < r + Z.max 1 (len pattern).
Proof.
  exists (non_overlapping (Z.max 1 (len pattern)) 0 (occurrences text pattern)),
         (occurrences text pattern).
  split; [apply regex_search_spec|]. split; [apply native_search_total|].
  split; [apply non_overlapping_sublist|].
  split; [apply non_overlapping_apart; lia|].
  intros s Hs.
  destruct (filter_range_ascending (occurs_at text pattern) 0
              (len text - len pattern + 1)) as [Hsorted Hrange].
  apply non_overlapping_covers; [lia|done|done|].
  rewrite Forall_forall in Hrange. apply (Hrange s) in Hs. lia.
Qed.

(** [regex_search] returns the list [native_search] returns exactly when
    no two occurrences of the pattern in the text overlap. *)
Theorem regex_search_agrees_iff_no_overlap {Σ : Type} `{Countable Σ}
    (text pattern : list Σ) :
  ∃ l',
    native_search text pattern = Ok l' ∧
    (regex_search text pattern = Ok l' ↔
     ∀ a b, a ∈ l' → b ∈ l' → a < b → a + len pattern ≤ b).
Proof.
  exists (occurrences text pattern). split; [apply native_search_total|].
  rewrite regex_search_spec.
  destruct (filter_range_ascending (occurs_at text pattern) 0
              (len text - len pattern + 1)) as [Hsorted Hrange].
  fold (occurrences_below text pattern (len text - len pattern + 1)) in Hsorted, Hrange.
  fold (occurrences text pattern) in Hsorted, Hrange.
  split.
  - intros [= Heq] a b Ha Hb Hab.
    pose proof (non_overlapping_apart (Z.max 1 (len pattern)) 0
                  (occurrences text pattern) ltac:(lia)) as Hapart.
    rewrite Heq in Hapart.
    destruct (strongly_sorted_either _ _ a b Hapart Ha Hb) as [?|[?|?]]; lia.
  - intros Hfar. f_equal. apply non_overlapping_all.
    + revert Hfar. clear Hrange.
      induction Hsorted as [|x l Hsorted IH Hx]; intros Hfar; [constructor|].
      apply StronglySorted_cons. split.
      * rewrite Forall_forall in Hx. apply Forall_forall. intros b Hb.
        specialize (Hx b Hb). specialize (Hfar x b). 
        assert (x + len pattern ≤ b) by (apply Hfar; [left|by right|done]). lia.
      * apply IH. intros a b Ha Hb. apply Hfar; by right.
    + eapply Forall_impl; [exact Hrange|]. simpl. intros; lia.
Qed.

(** ** One edit at a time *)

Section SingleEdits.

Context {Σ : Type} `{Countable Σ}.
Implicit Types (a b l : list Σ).

Lemma lev_cell_diag a b i j :
  lev_cell a b (S i) (S j) ≤ lev_cell a b i j + cost_at a b i j.
Proof. rewrite lev_cell_S. unfold min3. lia. Qed.

Lemma lev_cell_step_r a b i j : lev_cell a b i (S j) ≤ lev_cell a b i j + 1.
Proof. rewrite !(lev_cell_sym a b). apply lev_cell_step_l. Qed.

(** Along a diagonal on which the two strings agree the cell does not grow. *)
Lemma lev_cell_run a b i j t :
  (∀ s, (s < t)%nat → cost_at a b (i + s) (j + s) = 0) →
  lev_cell a b (i + t) (j + t) ≤ lev_cell a b i j.
Proof.
  induction t as [|t IH]; intros Hc.
  - rewrite !Nat.add_0_r. lia.
  - rewrite !Nat.add_succ_r.
    pose proof (lev_cell_diag a b (i + t) (j + t)) as Hd.
    rewrite (Hc t) in Hd by lia.
    assert (lev_cell a b (i + t) (j + t) ≤ lev_cell a b i j); [|lia].
    apply IH. intros s Hs. apply Hc. lia.
Qed.

Lemma cost_at_eq a b i j x :
  a !! i = Some x → b !! j = Some x → cost_at a b i j = 0.
Proof.
  intros Ha Hb. unfold cost_at, subst_cost. rewrite Ha, Hb.
  by destruct (decide (x = x)).
Qed.

Lemma edit_distance_substitute l (k : nat) c : edit_distance l (<[k := c]> l) ≤ 1.
Proof.
  destruct (decide (k < length l)%nat) as [Hk|Hk].
  2:{ rewrite list_insert_ge by lia. rewrite edit_distance_refl. lia. }
  unfold edit_distance. rewrite length_insert. set (b := <[k := c]> l).
  assert (lev_cell l b k k ≤ 0) as Hbefore.
  { apply (lev_cell_run l b 0 0 k). intros s Hs. cbn [Nat.add].
    destruct (lookup_lt_is_Some_2 l s) as [x Hx]; [lia|].
    apply (cost_at_eq _ _ _ _ x); [done|].
    unfold b. by rewrite list_lookup_insert_ne by lia. }
  pose proof (lev_cell_diag l b k k) as Hat. pose proof (cost_at_range l b k k).
  assert (lev_cell l b (S k + (length l - S k)) (S k + (length l - S k))
          ≤ lev_cell l b (S k) (S k)) as Hafter.
  { apply lev_cell_run. intros s Hs.
    destruct (lookup_lt_is_Some_2 l (S k + s)) as [x Hx]; [lia|].
    apply (cost_at_eq _ _ _ _ x); [done|].
    unfold b. by rewrite list_lookup_insert_ne by lia. }
  replace (S k + (length l - S k))%nat with (length l) in Hafter by lia. lia.
Qed.

Lemma edit_distance_insert l (k : nat) c :
  (k ≤ length l)%nat → edit_distance l (take k l ++ c :: drop k l) ≤ 1.
Proof.
  intros Hk. unfold edit_distance. set (b := take k l ++ c :: drop k l).
  assert (length b = S (length l)) as ->.
  { unfold b. rewrite length_app, length_take, length_cons, length_drop. lia. }
  assert (lev_cell l b k k ≤ 0) as Hbefore.
  { apply (lev_cell_run l b 0 0 k). intros s Hs. cbn [Nat.add].
    destruct (lookup_lt_is_Some_2 l s) as [x Hx]; [lia|].
    apply (cost_at_eq _ _ _ _ x); [done|].
    unfold b. rewrite lookup_app_l by (rewrite length_take; lia).
    by rewrite lookup_take_lt by lia. }
  pose proof (lev_cell_step_r l b k k) as Hat.
  assert (lev_cell l b (k + (length l - k)) (S k + (length l - k))
          ≤ lev_cell l b k (S k)) as Hafter.
  { apply lev_cell_run. intros s Hs.
    destruct (lookup_lt_is_Some_2 l (k + s)) as [x Hx]; [lia|].
    apply (cost_at_eq _ _ _ _ x); [done|].
    unfold b. rewrite lookup_app_r by (rewrite length_take; lia).
    rewrite length_take.
    replace (S k + s - k `min` length l)%nat with (S s) by lia.
    simpl. by rewrite lookup_drop. }
  replace (k + (length l - k))%nat with (length l) in Hafter by lia.
  replace (S k + (length l - k))%nat with (S (length l)) in Hafter by lia. lia.
Qed.

Lemma edit_distance_delete l (k : nat) :
  (k < length l)%nat → edit_distance l (delete k l) ≤ 1.
Proof.
  intros Hk. destruct (lookup_lt_is_Some_2 l k) as [x Hx]; [lia|].
  rewrite edit_distance_sym.
  assert (take k (delete k l) = take k l) as Htake.
  { rewrite delete_take_drop. apply take_app_length'. rewrite length_take. lia. }
  assert (drop k (delete k l) = drop (S k) l) as Hdrop.
  { rewrite delete_take_drop. apply drop_app_length'. rewrite length_take. lia. }
  pose proof (edit_distance_insert (delete k l) k x) as Hins.
  rewrite Htake, Hdrop, (take_drop_middle l k x Hx) in Hins. apply Hins.
  rewrite length_delete by done. lia.
Qed.

End SingleEdits.

(** ** The generator *)

(** The call returns, whatever the state of [random], a value with [P]. *)
Definition returns_with {T : Type} (c : rand T) (P : T → Prop) : Prop :=
  ∀ g, ∃ x g', c g = Returns x g' ∧ P x.

Lemma returns_ret {T} (x : T) (P : T → Prop) : P x → returns_with (mret x) P.
Proof. intros HP g. by exists x, g. Qed.

Lemma returns_bind {T U} (c : rand T) (f : T → rand U) (P : T → Prop) (Q : U → Prop) :
  returns_with c P → (∀ x, P x → returns_with (f x) Q) → returns_with (c ≫= f) Q.
Proof.
  intros Hc Hf g. destruct (Hc g) as (x & g' & Hx & HP).
  unfold mbind, rand_mbind, rand_bind. rewrite Hx. by apply Hf.
Qed.

Lemma returns_mono {T} (c : rand T) (P Q : T → Prop) :
  returns_with c P → (∀ x, P x → Q x) → returns_with c Q.
Proof.
  intros Hc HPQ g. destruct (Hc g) as (x & g' & Hx & HP). exists x, g'. auto.
Qed.

Lemma returns_lift {T} (c : result T) (x : T) (P : T → Prop) :
  c = Ok x → P x → returns_with (lift c) P.
Proof. intros -> HP g. by exists x, g. Qed.

Lemma returns_randbelow n : 0 < n → returns_with (randbelow n) (λ r, 0 ≤ r < n).
Proof. intros Hn g. eexists _, _. split; [done|]. by apply Z.mod_pos_bound. Qed.

Lemma returns_randint a b : a ≤ b → returns_with (randint a b) (λ r, a ≤ r ≤ b).
Proof.
  intros Hab. unfold randint. assert ((b <? a) = false) as -> by lia.
  apply returns_bind with (P := λ r, 0 ≤ r < b - a + 1).
  - apply returns_randbelow. lia.
  - intros r Hr. apply returns_ret. lia.
Qed.

Lemma returns_choice {T} (seq : list T) :
  seq ≠ [] → returns_with (choice seq) (λ x, x ∈ seq).
Proof.
  intros Hne%len_pos_of_nonempty. unfold choice.
  assert ((len seq =? 0) = false) as -> by lia.
  apply returns_bind with (P := λ r, 0 ≤ r < len seq).
  - apply returns_randbelow. lia.
  - intros r Hr. destruct (zlookup_is_Some seq r Hr) as [x Hx].
    apply (returns_lift _ x); [by apply getitem_Ok|].
    rewrite zlookup_nonneg in Hx by lia. by apply list_elem_of_lookup_2 in Hx.
Qed.

Lemma returns_for_each {S X} (f : S → X → rand S) (I : nat → S → Prop) xs s :
  I O s →
  (∀ i s x, xs !! i = Some x → I i s → returns_with (f s x) (I (Datatypes.S i))) →
  returns_with (for_each f xs s) (I (length xs)).
Proof.
  revert s I. induction xs as [|x xs IH]; intros s I H0 Hstep; simpl.
  - by apply returns_ret.
  - apply returns_bind with (P := I 1%nat).
    + by apply (Hstep O s x).
    + intros s' Hs'. apply (IH s' (λ i, I (Datatypes.S i))); [done|].
      intros i s'' x' Hx' Hi. by apply (Hstep (Datatypes.S i)).
Qed.

Lemma returns_seed_if_given seed : returns_with (seed_if_given seed) (λ _, True).
Proof.
  destruct seed as [s|]; simpl; [|by apply returns_ret].
  destruct (s =? 0); [by apply returns_ret|].
  intros g. by eexists _, _.
Qed.

Lemma length_range a b : length (range a b) = Z.to_nat (b - a).
Proof. unfold range. apply length_seqZ. Qed.

Lemma elem_of_bases_filter (current_base : Ascii.ascii) :
  List.filter (λ b, bool_decide (b ≠ current_base)) bases ≠ [] ∧
  ∀ c, c ∈ List.filter (λ b, bool_decide (b ≠ current_base)) bases →
       c ∈ bases ∧ c ≠ current_base.
Proof.
  split.
  - intros Hnil.
    assert (∀ c, c ∈ bases → c = current_base) as Hall.
    { intros c Hc. destruct (decide (c = current_base)) as [|Hne]; [done|].
      assert (c ∈ List.filter (λ b, bool_decide (b ≠ current_base)) bases) as Hin.
      { rewrite list_elem_of_In, List.filter_In, <- list_elem_of_In.
        split; [done|]. by apply bool_decide_eq_true. }
      rewrite Hnil in Hin. by inversion Hin. }
    assert (Ascii.Ascii true false false false false false true false = current_base)
      as HA by (apply Hall; unfold bases, str; simpl; set_solver).
    assert (Ascii.Ascii false false true false true false true false = current_base)
      as HT by (apply Hall; unfold bases, str; simpl; set_solver).
    rewrite <- HA in HT. discriminate HT.
  - intros c. rewrite list_elem_of_In, List.filter_In, <- list_elem_of_In.
    by rewrite bool_decide_eq_true.
Qed.

Lemma mutate_spec mutation_type l :
  returns_with (mutate mutation_type l)
    (λ l', edit_distance l l' ≤ 1 ∧
           (mutation_type = "sub" → len l' = len l) ∧
           (Forall (λ c, c ∈ bases) l → Forall (λ c, c ∈ bases) l')).
Proof.
  assert (returns_with (mret l)
            (λ l', edit_distance l l' ≤ 1 ∧
                   (mutation_type = "sub" → len l' = len l) ∧
                   (Forall (λ c, c ∈ bases) l → Forall (λ c, c ∈ bases) l'))) as Hsame.
  { apply returns_ret. rewrite edit_distance_refl. split; [lia|done]. }
  pose proof (len_nonneg l) as Hlen.
  unfold mutate.
  apply returns_bind with (P := λ op, mutation_type = "sub" → op = "sub").
  { destruct (bool_decide_reflect (mutation_type = "sub")) as [E|E].
    - by apply returns_ret.
    - eapply returns_mono; [by apply returns_choice|]. simpl. by intros. }
  intros op Hop.
  destruct (bool_decide_reflect (op = "sub")) as [->|Hnsub]; cbn [andb].
  - destruct (Z.ltb_spec 0 (len l)) as [Hpos|Hzero].
    + apply returns_bind with (P := λ idx, 0 ≤ idx ≤ len l - 1);
        [apply returns_randint; lia|].
      intros idx Hidx. destruct (zlookup_is_Some l idx) as [x Hx]; [lia|].
      apply returns_bind with (P := λ _, True);
        [by apply (returns_lift _ x); [apply getitem_Ok|]|].
      intros current_base _. cbv zeta.
      destruct (elem_of_bases_filter current_base) as [Hne Hin].
      apply returns_bind
        with (P := λ c, c ∈ List.filter (λ b, bool_decide (b ≠ current_base)) bases);
        [by apply returns_choice|].
      intros c [Hc _]%Hin.
      apply (returns_lift _ (<[Z.to_nat idx := c]> l)); [apply setitem_Ok; lia|].
      split; [apply edit_distance_substitute|]. split; [by rewrite len_insert|].
      intros Hl. by apply Forall_insert.
    + destruct (bool_decide_reflect ("sub" = "ins")) as [E|_]; [discriminate E|].
      by destruct (bool_decide_reflect ("sub" = "del")) as [E|_]; [discriminate E|].
  - assert (mutation_type ≠ "sub") as Hmix by (intros E; by apply Hnsub, Hop).
    destruct (bool_decide_reflect (op = "ins")) as [->|Hnins].
    + apply returns_bind with (P := λ idx, 0 ≤ idx ≤ len l);
        [apply returns_randint; lia|].
      intros idx Hidx.
      apply returns_bind with (P := λ c, c ∈ bases); [by apply returns_choice|].
      intros c Hc. apply returns_ret. unfold list_insert, clamp_index.
      assert ((idx <? 0) = false) as -> by lia.
      replace (Z.min idx (len l)) with idx by lia.
      split; [apply edit_distance_insert; unfold len in *; lia|]. split; [done|].
      intros Hl. apply Forall_app. split; [by apply Forall_take|].
      constructor; [done|by apply Forall_drop].
    + destruct (bool_decide_reflect (op = "del")) as [->|Hndel]; cbn [andb]; [|done].
      destruct (Z.ltb_spec 0 (len l)) as [Hpos|Hzero]; [|done].
      apply returns_bind with (P := λ idx, 0 ≤ idx ≤ len l - 1);
        [apply returns_randint; lia|].
      intros idx Hidx.
      apply (returns_lift _ (delete (Z.to_nat idx) l)).
      * unfold list_pop, norm_index.
        assert ((idx <? 0) = false) as E by lia. rewrite E. cbv iota. rewrite E.
        by assert ((len l <=? idx) = false) as -> by lia.
      * split; [apply edit_distance_delete; unfold len in *; lia|]. split; [done|].
        intros Hl. by apply Forall_delete.
Qed.

Lemma generate_mutated_pattern_spec original_pattern k mutation_type seed :
  returns_with (generate_mutated_pattern original_pattern k mutation_type seed)
    (λ mutated,
       edit_distance original_pattern mutated ≤ Z.max 0 k ∧
       (mutation_type = "sub" → len mutated = len original_pattern) ∧
       (Forall (λ c, c ∈ bases) original_pattern → Forall (λ c, c ∈ bases) mutated)).
Proof.
  unfold generate_mutated_pattern.
  apply returns_bind with (P := λ _, True); [apply returns_seed_if_given|].
  intros _ _.
  eapply returns_mono.
  - apply (returns_for_each _
             (λ i cur, edit_distance original_pattern cur ≤ Z.of_nat i ∧
                       (mutation_type = "sub" → len cur = len original_pattern) ∧
                       (Forall (λ c, c ∈ bases) original_pattern →
                        Forall (λ c, c ∈ bases) cur))).
    + rewrite edit_distance_refl. split; [lia|done].
    + intros i cur _ _ (Hdist & Hlen & Hbases).
      eapply returns_mono; [apply mutate_spec|]. simpl.
      intros cur' (Hstep & Hlen' & Hbases').
      pose proof (edit_distance_triangle original_pattern cur cur').
      split; [lia|]. split; [intros E; by rewrite Hlen', Hlen|auto].
  - simpl. rewrite length_range. intros mutated (Hdist & Hrest). split; [lia|done].
Qed.

Lemma choices_spec {T} (population : list T) k :
  population ≠ [] →
  returns_with (choices population k)
    (λ picked, len picked = Z.max 0 k ∧ Forall (λ x, x ∈ population) picked).
Proof.
  intros Hne%len_pos_of_nonempty. unfold choices. eapply returns_mono.
  - apply (returns_for_each _
             (λ i picked, len picked = Z.of_nat i ∧ Forall (λ x, x ∈ population) picked)).
    + by split.
    + intros i picked _ _ [Hlen Hall].
      apply returns_bind with (P := λ r, 0 ≤ r < len population);
        [apply returns_randbelow; lia|].
      intros r Hr. destruct (zlookup_is_Some population r Hr) as [x Hx].
      apply returns_bind with (P := λ x, x ∈ population).
      { apply (returns_lift _ x); [by apply getitem_Ok|].
        rewrite zlookup_nonneg in Hx by lia. by apply list_elem_of_lookup_2 in Hx. }
      intros y Hy. apply returns_ret. split.
      * unfold len in *. rewrite length_app. simpl. lia.
      * apply Forall_app. split; [done|]. by constructor.
  - simpl. rewrite length_range. intros picked [Hlen Hall]. split; [lia|done].
Qed.

Lemma generate_patterns_from_text_spec {Σ : Type} (text : list Σ) length count seed :
  length ≤ len text →
  returns_with (generate_patterns_from_text text length count seed)
    (λ patterns,
       len patterns = Z.max 0 count ∧
       Forall (λ p, ∃ s, 0 ≤ s ≤ len text - length ∧ p = slice text s (s + length))
              patterns).
Proof.
  intros Hfit. unfold generate_patterns_from_text.
  apply returns_bind with (P := λ _, True); [apply returns_seed_if_given|].
  intros _ _. cbv zeta. assert ((len text <? length) = false) as -> by lia.
  eapply returns_mono.
  - apply (returns_for_each _
             (λ i patterns,
                len patterns = Z.of_nat i ∧
                Forall (λ p, ∃ s, 0 ≤ s ≤ len text - length ∧
                                  p = slice text s (s + length)) patterns)).
    + by split.
    + intros i patterns _ _ [Hlen Hall].
      apply returns_bind with (P := λ s, 0 ≤ s ≤ len text - length);
        [apply returns_randint; lia|].
      intros s Hs. apply returns_ret. split.
      * unfold len in *. rewrite length_app. simpl. lia.
      * apply Forall_app. split; [done|]. constructor; [|done]. by exists s.
  - simpl. rewrite length_range. intros patterns [Hlen Hall]. split; [lia|done].
Qed.

Lemma generate_patterns_from_text_raises {Σ : Type} (text : list Σ) length count seed g :
  len text < length →
  generate_patterns_from_text text length count seed g = Raises ValueError.
Proof.
  intros Hlong. unfold generate_patterns_from_text.
  destruct (returns_seed_if_given seed g) as ([] & g' & Hseed & _).
  unfold mbind, rand_mbind, rand_bind. rewrite Hseed. cbv zeta.
  by assert ((len text <? length) = true) as -> by lia.
Qed.

(** [generate_mutated_pattern] never raises, and the string it returns is
    within [k] edits of the original: [levenshtein_distance] of the two is
    at most [max(k, 0)]. With [mutation_type = "sub"] the length is kept; and
    a pattern over [A], [T], [C], [G] stays one. *)
Theorem mutated_pattern_within_k_edits
    (original_pattern : list Ascii.ascii) (k : Z) (mutation_type : string)
    (seed : option Z) (g : rng) :
  ∃ mutated g',
    generate_mutated_pattern original_pattern k mutation_type seed g
      = Returns mutated g' ∧
    (∃ dist, levenshtein_distance original_pattern mutated = Ok dist ∧
             0 ≤ dist ≤ Z.max 0 k) ∧
    (mutation_type = "sub" → len mutated = len original_pattern) ∧
    (Forall (λ c, c ∈ bases) original_pattern → Forall (λ c, c ∈ bases) mutated).
Proof.
  destruct (generate_mutated_pattern_spec original_pattern k mutation_type seed g)
    as (mutated & g' & Hrun & Hdist & Hlen & Hbases).
  exists mutated, g'. split; [done|]. split; [|done].
  exists (edit_distance original_pattern mutated).
  split; [apply levenshtein_distance_spec|].
  pose proof (edit_distance_nonneg original_pattern mutated). lia.
Qed.

(** A pattern cut out of the text at offset [s] and then mutated by [k]
    substitutions is reported at [s] by the full-table and the rolling-row
    search with [max_distance = k]. *)
Theorem substituted_pattern_is_found
    (text : list Ascii.ascii) (s length k : Z) (seed : option Z) (g : rng) :
  0 ≤ k → 0 ≤ s → 1 ≤ length → s + length ≤ len text →
  ∃ mutated g' l,
    generate_mutated_pattern (slice text s (s + length)) k "sub" seed g
      = Returns mutated g' ∧
    levenshtein_search text mutated k = Ok l ∧
    levenshtein_search_optimized text mutated k = Ok l ∧
    s ∈ l.
Proof.
  intros Hk Hs Hlength Hfit.
  destruct (generate_mutated_pattern_spec (slice text s (s + length)) k "sub" seed g)
    as (mutated & g' & Hrun & Hdist & Hlen & _).
  specialize (Hlen eq_refl). rewrite len_slice in Hlen by lia.
  exists mutated, g', (approx_matches text mutated k). split; [done|].
  split; [apply levenshtein_search_spec; lia|].
  split; [apply levenshtein_search_optimized_spec; lia|].
  unfold approx_matches. rewrite list_elem_of_In, List.filter_In, <- list_elem_of_In.
  rewrite elem_of_range. split; [lia|]. unfold window_within.
  replace (s + len mutated) with (s + length) by lia. lia.
Qed.

Lemma substituted_pattern_is_found_witness :
  ∃ mutated g' l,
    generate_mutated_pattern (slice (str "ATCGATCG") 2 (2 + 4)) 2 "sub" (Some 7)
      {| draws := λ i, Z.of_nat i; seeded := λ s i, s + 3 * Z.of_nat i |}
      = Returns mutated g' ∧
    levenshtein_search (str "ATCGATCG") mutated 2 = Ok l ∧
    levenshtein_search_optimized (str "ATCGATCG") mutated 2 = Ok l ∧
    2 ∈ l.
Proof.
  apply substituted_pattern_is_found; [lia|lia|lia|by vm_compute].
Defined.

(** Every pattern [generate_patterns_from_text] returns, for a length
    between 1 and [len(text)], has the requested length and is found in the
    text by both exact matchers; the list has [max(count, 0)] patterns. *)
Theorem extracted_patterns_are_found {Σ : Type} `{Countable Σ}
    (text : list Σ) (length count : Z) (seed : option Z) (g : rng) :
  1 ≤ length ≤ len text →
  ∃ patterns g',
    generate_patterns_from_text text length count seed g = Returns patterns g' ∧
    len patterns = Z.max 0 count ∧
    ∀ p, p ∈ patterns →
      len p = length ∧
      ∃ l s, kmp_search text p = Ok l ∧ boyer_moore_search text p = Ok l ∧ s ∈ l.
Proof.
  intros [Hlength Hfit].
  destruct (generate_patterns_from_text_spec text length count seed Hfit g)
    as (patterns & g' & Hrun & Hcount & Hall).
  exists patterns, g'. split; [done|]. split; [done|].
  intros p Hp. rewrite Forall_forall in Hall.
  destruct (Hall p Hp) as (s & Hs & ->).
  assert (len (slice text s (s + length)) = length) as Hlen
    by (rewrite len_slice by lia; lia).
  split; [done|].
  exists (occurrences text (slice text s (s + length))), s.
  split; [apply kmp_search_spec; lia|].
  split; [apply boyer_moore_search_spec; lia|].
  apply elem_of_occurrences. rewrite Hlen. split; [lia|done].
Qed.

Lemma extracted_patterns_are_found_witness :
  ∃ patterns g',
    generate_patterns_from_text (str "GATTACAGATTACA") 4 3 None
      {| draws := λ i, 5 * Z.of_nat i + 2; seeded := λ s i, s + Z.of_nat i |}
      = Returns patterns g' ∧
    len patterns = Z.max 0 3 ∧
    ∀ p, p ∈ patterns →
      len p = 4 ∧
      ∃ l s, kmp_search (str "GATTACAGATTACA") p = Ok l ∧
             boyer_moore_search (str "GATTACAGATTACA") p = Ok l ∧ s ∈ l.
Proof.
  apply extracted_patterns_are_found. by vm_compute.
Defined.

(** [generate_patterns_from_text] raises [ValueError] exactly when the
    requested length exceeds [len(text)]; otherwise it returns
    [max(count, 0)] patterns, also for a length that is zero or negative. *)
Theorem pattern_length_validation {Σ : Type}
    (text : list Σ) (length count : Z) (seed : option Z) (g : rng) :
  (len text < length →
   generate_patterns_from_text text length count seed g = Raises ValueError) ∧
  (length ≤ len text →
   ∃ patterns g',
     generate_patterns_from_text text length count seed g = Returns patterns g' ∧
     len patterns = Z.max 0 count).
Proof.
  split.
  - apply generate_patterns_from_text_raises.
  - intros Hfit.
    destruct (generate_patterns_from_text_spec text length count seed Hfit g)
      as (patterns & g' & Hrun & Hcount & _).
    by exists patterns, g'.
Qed.

(** [generate_synthetic_dna] never raises: it returns [max(length, 0)]
    symbols, each one of [A], [T], [C], [G]. *)
Theorem synthetic_dna_shape (length seed : Z) (g : rng) :
  ∃ dna g',
    generate_synthetic_dna length seed g = Returns dna g' ∧
    len dna = Z.max 0 length ∧ Forall (λ c, c ∈ bases) dna.
Proof.
  assert (returns_with (generate_synthetic_dna length seed)
            (λ dna, len dna = Z.max 0 length ∧ Forall (λ c, c ∈ bases) dna)) as Hrun.
  { unfold generate_synthetic_dna.
    apply returns_bind with (P := λ _, True); [intros g0; by eexists _, _|].
    intros _ _. by apply choices_spec. }
  destruct (Hrun g) as (dna & g' & Hdna & Hshape). by exists dna, g'.
Qed.

(** Seeding. [generate_synthetic_dna], and the other two generators when
    given a non-zero seed, do not depend on what was drawn before the call:
    two states of [random] that seed alike give the same outcome. A seed of
    [0] is not truthy: the other two generators then behave as with no seed,
    and draw from the state they find. *)
Theorem seeded_runs_are_reproducible {Σ : Type}
    (text : list Σ) (pattern : list Ascii.ascii) (length count k seed : Z)
    (mutation_type : string) (g1 g2 : rng) :
  seeded g1 = seeded g2 →
  generate_synthetic_dna length seed g1 = generate_synthetic_dna length seed g2 ∧
  (seed ≠ 0 →
   generate_patterns_from_text text length count (Some seed) g1
     = generate_patterns_from_text text length count (Some seed) g2 ∧
   generate_mutated_pattern pattern k mutation_type (Some seed) g1
     = generate_mutated_pattern pattern k mutation_type (Some seed) g2) ∧
  generate_patterns_from_text text length count (Some 0) g1
    = generate_patterns_from_text text length count None g1 ∧
  generate_mutated_pattern pattern k mutation_type (Some 0) g1
    = generate_mutated_pattern pattern k mutation_type None g1.
Proof.
  intros Hseeded.
  assert (∀ s, random_seed s g1 = random_seed s g2) as Hreseed
    by (intros s; unfold random_seed; by rewrite Hseeded).
  split.
  { unfold generate_synthetic_dna, mbind, rand_mbind, rand_bind.
    rewrite (Hreseed seed). done. }
  split; [|done].
  intros Hseed.
  unfold generate_patterns_from_text, generate_mutated_pattern, seed_if_given.
  assert ((seed =? 0) = false) as -> by lia.
  unfold mbind, rand_mbind, rand_bind. by rewrite (Hreseed seed).
Qed.

Lemma seeded_runs_are_reproducible_witness :
  generate_synthetic_dna 3 42 {| draws := λ i, Z.of_nat i; seeded := λ s i, s + Z.of_nat i |}
    = generate_synthetic_dna 3 42 {| draws := λ i, 7; seeded := λ s i, s + Z.of_nat i |} ∧
  (42 ≠ 0 →
   generate_patterns_from_text (str "GATTACA") 3 2 (Some 42)
       {| draws := λ i, Z.of_nat i; seeded := λ s i, s + Z.of_nat i |}
     = generate_patterns_from_text (str "GATTACA") 3 2 (Some 42)
         {| draws := λ i, 7; seeded := λ s i, s + Z.of_nat i |} ∧
   generate_mutated_pattern (str "GATT") 2 "mix" (Some 42)
       {| draws := λ i, Z.of_nat i; seeded := λ s i, s + Z.of_nat i |}
     = generate_mutated_pattern (str "GATT") 2 "mix" (Some 42)
         {| draws := λ i, 7; seeded := λ s i, s + Z.of_nat i |}) ∧
  generate_patterns_from_text (str "GATTACA") 3 2 (Some 0)
      {| draws := λ i, Z.of_nat i; seeded := λ s i, s + Z.of_nat i |}
    = generate_patterns_from_text (str "GATTACA") 3 2 None
        {| draws := λ i, Z.of_nat i; seeded := λ s i, s + Z.of_nat i |} ∧
  generate_mutated_pattern (str "GATT") 2 "mix" (Some 0)
      {| draws := λ i, Z.of_nat i; seeded := λ s i, s + Z.of_nat i |}
    = generate_mutated_pattern (str "GATT") 2 "mix" None
        {| draws := λ i, Z.of_nat i; seeded := λ s i, s + Z.of_nat i |}.
Proof.
  apply (seeded_runs_are_reproducible (str "GATTACA") (str "GATT") 3 2 2 42 "mix").
  reflexivity.
Defined.

(** ** The banded search with a band as wide as the row *)

Lemma lev_cell_ext {Σ : Type} `{Countable Σ} (a a' b : list Σ) i j :
  (∀ t, (t < i)%nat → a !! t = a' !! t) → lev_cell a b i j = lev_cell a' b i j.
Proof.
  revert j. induction i as [|i IHi]; intros j Hext; [done|].
  induction j as [|j IHj]; [by rewrite !lev_cell_0_r|].
  rewrite !lev_cell_S. rewrite IHj.
  rewrite (IHi (S j)), (IHi j) by (intros; apply Hext; lia).
  unfold cost_at. by rewrite (Hext i) by lia.
Qed.

Lemma lev_at_prefix {Σ : Type} `{Countable Σ} (text pattern : list Σ) i :
  0 ≤ i ≤ len text →
  lev_at text pattern i (len pattern) = edit_distance (slice text 0 i) pattern.
Proof.
  intros Hi. rewrite slice_inside by lia. unfold lev_at, edit_distance, len in *.
  rewrite Nat2Z.id. replace (Z.to_nat (i - 0)) with (Z.to_nat i) by lia.
  change (Z.to_nat 0) with O. rewrite drop_0.
  rewrite length_take_le by lia.
  apply lev_cell_ext. intros t Ht. by rewrite lookup_take_lt.
Qed.

Section FullBand.

Context {Σ : Type} `{Countable Σ}.
Variables (text pattern : list Σ) (d : Z).

Local Abbreviation n := (len text).
Local Abbreviation m := (len pattern).

Hypothesis Hm : 1 ≤ m.
Hypothesis Hfit : m ≤ n.
Hypothesis Hwide : n ≤ d + 1.

Lemma diagonal_cell_good prev curr i j :
  1 ≤ i ≤ n → 1 ≤ j ≤ m →
  row_good text pattern prev (i - 1) (λ _, True) →
  row_good text pattern curr i (λ j', j' < j) →
  ∃ curr', diagonal_cell text pattern prev i curr j = Ok curr' ∧
           row_good text pattern curr' i (λ j', j' < j + 1).
Proof.
  intros Hi Hj [Hlp Hp] [Hlc Hc].
  destruct (zlookup_is_Some text (i - 1)) as [x Hx]; [lia|].
  destruct (zlookup_is_Some pattern (j - 1)) as [y Hy]; [lia|].
  unfold diagonal_cell.
  rewrite (getitem_Ok _ _ _ Hx), bind_Ok, (getitem_Ok _ _ _ Hy), bind_Ok.
  rewrite (getitem_Ok curr (j - 1) (lev_at text pattern i (j - 1))), bind_Ok
    by (apply Hc; lia).
  rewrite (getitem_Ok prev j (lev_at text pattern (i - 1) j)), bind_Ok
    by (apply Hp; [lia|done]).
  rewrite (getitem_Ok prev (j - 1) (lev_at text pattern (i - 1) (j - 1))), bind_Ok
    by (apply Hp; [lia|done]).
  cbv zeta.
  replace (min3 (lev_at text pattern i (j - 1) + 1) (lev_at text pattern (i - 1) j + 1)
                (lev_at text pattern (i - 1) (j - 1) + subst_cost x y))
    with (lev_at text pattern i j)
    by (rewrite (lev_at_rec text pattern i j x y Hx Hy); unfold min3; lia).
  rewrite setitem_Ok by lia. eexists; split; [done|].
  split; [by rewrite len_insert|].
  intros j' Hj' Hlt. destruct (decide (j' = j)) as [->|Hne].
  - apply zlookup_insert_eq. lia.
  - rewrite zlookup_insert_ne by lia. apply Hc; lia.
Qed.

Lemma diagonal_row_full prev i :
  1 ≤ i ≤ n → row_good text pattern prev (i - 1) (λ _, True) →
  ∃ curr, diagonal_row text pattern d prev i = Ok curr ∧
          row_good text pattern curr i (λ _, True).
Proof.
  intros Hi Hprev. unfold diagonal_row, diagonal_band, diagonal_fresh_row.
  unfold start_j, end_j.
  replace (Z.max 1 (i - d)) with 1 by lia. replace (Z.min m (i + d)) with m by lia.
  destruct (row_good_first text pattern (repeat_list 0 (m + 1)) i)
    as (curr0 & -> & Hcurr0); [apply len_repeat_list; lia|lia|].
  rewrite bind_Ok.
  destruct (foldM_range_inv (diagonal_cell text pattern prev i)
              (λ k curr, row_good text pattern curr i (λ j', j' < k))
              1 (m + 1) curr0) as (curr & -> & Hcurr); [lia|done| |].
  { intros j c Hj Hc. apply diagonal_cell_good; [done|lia|done|done]. }
  rewrite bind_Ok. rewrite (range_nil 1 1), (range_nil (m + 1) (m + 1)) by lia.
  cbn [foldM]. rewrite bind_Ok. exists curr. split; [done|].
  destruct Hcurr as [Hl Hc]. split; [done|]. intros j Hj _. apply Hc; lia.
Qed.

(** The offsets [s] below [k - m] whose prefix [text[0:s + m]] is within
    [d] edits of the pattern. *)
Definition prefix_hits (k : Z) : list Z :=
  List.filter (λ s, lev_at text pattern (s + m) m <=? d) (range 0 (k - m)).

Lemma prefix_hits_succ i :
  1 ≤ i →
  prefix_hits (i + 1) =
  prefix_hits i ++
    (if (m <=? i) && (lev_at text pattern i m <=? d) then [i - m] else []).
Proof.
  intros Hi. unfold prefix_hits. destruct (Z.leb_spec m i) as [Hmi|Hmi]; cbn [andb].
  - replace (i + 1 - m) with (i - m + 1) by lia. rewrite range_snoc by lia.
    rewrite List.filter_app. simpl. replace (i - m + m) with i by lia.
    by destruct (lev_at text pattern i m <=? d).
  - rewrite !range_nil by lia. done.
Qed.

Lemma diagonal_step_full st i :
  1 ≤ i ≤ n →
  st.1 = prefix_hits i ∧ row_good text pattern st.2 (i - 1) (λ _, True) →
  ∃ st', diagonal_step text pattern d st i = Ok st' ∧
         st'.1 = prefix_hits (i + 1) ∧
         row_good text pattern st'.2 (i + 1 - 1) (λ _, True).
Proof.
  destruct st as [matches prev]. cbn [fst snd]. intros Hi [-> Hprev].
  unfold diagonal_step.
  destruct (diagonal_row_full prev i Hi Hprev) as (curr & -> & Hcurr).
  rewrite bind_Ok. rewrite prefix_hits_succ by lia.
  replace (i + 1 - 1) with i by lia.
  destruct (Z.leb_spec m i) as [Hmi|Hmi]; cbn [andb].
  - destruct Hcurr as [Hl Hc].
    rewrite (getitem_Ok curr m (lev_at text pattern i m)) by (apply Hc; [lia|done]).
    rewrite !bind_Ok. eexists; split; [done|]. cbn [fst snd].
    split; [|done]. destruct (lev_at text pattern i m <=? d); [done|].
    by rewrite app_nil_r.
  - rewrite bind_Ok. eexists; split; [done|]. cbn [fst snd].
    split; [by rewrite app_nil_r|done].
Qed.

Lemma diagonal_search_full :
  levenshtein_search_diagonal text pattern d =
  Ok (List.filter (λ s, edit_distance (slice text 0 (s + m)) pattern <=? d)
                  (range 0 (n - m + 1))).
Proof.
  unfold levenshtein_search_diagonal.
  assert ((m =? 0) = false) as -> by lia.
  assert ((n <? m) = false) as -> by lia.
  destruct (foldM_range_inv (diagonal_step text pattern d)
              (λ i st, st.1 = prefix_hits i ∧
                       row_good text pattern st.2 (i - 1) (λ _, True))
              1 (n + 1) ([], range 0 (m + 1)))
    as ([matches prev] & -> & (Hmatches & _)); [lia| | |].
  { cbn [fst snd]. split; [|apply row_good_init].
    unfold prefix_hits. by rewrite range_nil by lia. }
  { intros i st Hi Hst. apply diagonal_step_full; [lia|done]. }
  rewrite bind_Ok. cbn [fst] in Hmatches. rewrite Hmatches. f_equal.
  unfold prefix_hits. replace (n + 1 - m) with (n - m + 1) by lia.
  apply filter_ext_in. intros s Hs%elem_of_range.
  by rewrite lev_at_prefix by lia.
Qed.

End FullBand.

(** When [max_distance >= len(text) - 1] the band of every row is the whole
    row, and the banded search reports the offset [s] exactly when the whole
    prefix [text[0:s + len(pattern)]], not the window
    [text[s:s + len(pattern)]], is within [max_distance] edits of the
    pattern. *)
Theorem diagonal_search_measures_prefixes {Σ : Type} `{Countable Σ}
    (text pattern : list Σ) (max_distance : Z) :
  pattern ≠ [] → len pattern ≤ len text → len text ≤ max_distance + 1 →
  levenshtein_search_diagonal text pattern max_distance =
  Ok (List.filter
        (λ s, edit_distance (slice text 0 (s + len pattern)) pattern <=? max_distance)
        (range 0 (len text - len pattern + 1))).
Proof.
  intros Hm%len_pos_of_nonempty Hfit Hwide. by apply diagonal_search_full.
Qed.

Lemma diagonal_search_measures_prefixes_witness :
  levenshtein_search_diagonal (str "XXXAB") (str "AB") 4 =
  Ok (List.filter
        (λ s, edit_distance (slice (str "XXXAB") 0 (s + len (str "AB"))) (str "AB") <=? 4)
        (range 0 (len (str "XXXAB") - len (str "AB") + 1))).
Proof.
  apply diagonal_search_measures_prefixes; [discriminate|by vm_compute|by vm_compute].
Defined.
